(** * A segregated-list dynamic memory allocator (mm.c), embedded in Rocq.

    The heap is a byte-addressed store.  Every word access of the C code
    ([GET]/[PUT] on a [size_t *]) reads or writes eight consecutive bytes,
    little endian.  [size_t] is a 64-bit unsigned integer: values are kept
    in [Z] and the places where C arithmetic wraps are written out. *)

From Stdlib Require Import ZArith List Lia Bool.
Import ListNotations.
Local Open Scope Z_scope.

(** ** Byte store *)

Definition mem := Z -> Z.

Definition upd (m : mem) (a v : Z) : mem :=
  fun x => if x =? a then v else m x.

Fixpoint load (n : nat) (m : mem) (p : Z) : Z :=
  match n with
  | O => 0
  | S k => m p mod 256 + 256 * load k m (p + 1)
  end.

Fixpoint store (n : nat) (m : mem) (p v : Z) : mem :=
  match n with
  | O => m
  | S k => store k (upd m p (v mod 256)) (p + 1) (v / 256)
  end.

(** ** Constants and macros of mm.c *)

Definition WSIZE : Z := 8.
Definition DWORD : Z := 16.
Definition CHUNKSIZE : Z := Z.shiftl 1 8.
Definition MAX_LISTS : Z := 16.
Definition NULL : Z := 0.
Definition SIZE_MOD : Z := 2 ^ 64.

(** size_t arithmetic wraps modulo 2^64. *)
Definition wrap (x : Z) : Z := x mod SIZE_MOD.

Definition MAX (x y : Z) : Z := if x >? y then x else y.

Definition PACK (size prev_alloc alloc : Z) : Z :=
  Z.lor (Z.lor size prev_alloc) alloc.

Definition GET (m : mem) (p : Z) : Z := load 8 m p.
Definition PUT (m : mem) (p val : Z) : mem := store 8 m p val.

Definition GET_SIZE (m : mem) (p : Z) : Z := Z.land (GET m p) (Z.lnot 7).
Definition GET_PREV_ALLOC (m : mem) (p : Z) : Z := Z.land (GET m p) 2.
Definition GET_ALLOC (m : mem) (p : Z) : Z := Z.land (GET m p) 1.

Definition NEXT_ADDRESS (ptr : Z) : Z := ptr.
Definition PREV_ADDRESS (ptr : Z) : Z := ptr + WSIZE.

Definition HDRP (ptr : Z) : Z := ptr - WSIZE.
Definition FTRP (m : mem) (ptr : Z) : Z := ptr + GET_SIZE m (HDRP ptr) - DWORD.

Definition NEXT_BLOCK (m : mem) (ptr : Z) : Z := ptr + GET_SIZE m (ptr - WSIZE).
Definition PREV_BLOCK (m : mem) (ptr : Z) : Z := ptr - GET_SIZE m (ptr - DWORD).

Definition NEXT_FLIST_ADDRESS (m : mem) (ptr : Z) : Z := GET m ptr.
Definition PREV_FLIST_ADDRESS (m : mem) (ptr : Z) : Z := GET m (PREV_ADDRESS ptr).

Definition GET_ROOT (m : mem) (heap list : Z) : Z := GET m (heap + list * WSIZE).
Definition SET_ROOT (m : mem) (heap list new_root : Z) : mem :=
  PUT m (heap + list * WSIZE) new_root.

(** ** The macros mm.c defines beside the ones its functions use *)

Definition ALIGNMENT : Z := 8.

(** [ALIGN(size)]: [((size) + (ALIGNMENT-1)) & ~0x7] on a [size_t]. *)
Definition ALIGN (size : Z) : Z :=
  Z.land (wrap (size + (ALIGNMENT - 1))) (Z.lnot 7).

Definition CHANGE_SIZE (m : mem) (p val : Z) : mem :=
  PUT m p (PACK val (GET_PREV_ALLOC m p) (GET_ALLOC m p)).

Definition CHANGE_ALLOC (m : mem) (p val : Z) : mem :=
  PUT m p (PACK (GET_SIZE m p) (GET_PREV_ALLOC m p) val).

Definition CHANGE_PREV (m : mem) (p val : Z) : mem :=
  PUT m p (PACK (GET_SIZE m p) val (GET_ALLOC m p)).

(** ** get_list: the size class of a block size

    The loop clears bit [list_check] of [size] and counts, until nothing is
    left or the last list is reached.  It runs at most [MAX_LISTS - 1]
    times, which is the fuel. *)

Fixpoint get_list_loop (fuel : nat) (size list_check : Z) : Z :=
  match fuel with
  | O => list_check
  | S f =>
      if (0 <? size) && (list_check <? MAX_LISTS - 1)
      then get_list_loop f (Z.land size (Z.lnot (Z.shiftl 1 list_check)))
                         (list_check + 1)
      else list_check
  end.

Definition get_list (size : Z) : Z := get_list_loop 15 size 0.

(** The closed form the specification gives for the size class. *)
Definition classify (size : Z) : Z := Z.min (Z.log2 size + 1) 15.

(** ** The allocator state

    The four static pointers of mm.c, the heap bytes, and the three
    variables of the backing memory system. *)

Record state := mkState {
  heap : mem;
  mem_start_brk : Z;
  mem_brk : Z;
  mem_max_addr : Z;
  heap_start : Z;
  free_start : Z;
  heap_prologue : Z;
  heap_epilogue : Z
}.

Definition with_heap (s : state) (m : mem) : state :=
  mkState m (mem_start_brk s) (mem_brk s) (mem_max_addr s)
          (heap_start s) (free_start s) (heap_prologue s) (heap_epilogue s).

Definition with_brk (s : state) (b : Z) : state :=
  mkState (heap s) (mem_start_brk s) b (mem_max_addr s)
          (heap_start s) (free_start s) (heap_prologue s) (heap_epilogue s).

Definition with_max_addr (s : state) (b : Z) : state :=
  mkState (heap s) (mem_start_brk s) (mem_brk s) b
          (heap_start s) (free_start s) (heap_prologue s) (heap_epilogue s).

Definition with_heap_start (s : state) (p : Z) : state :=
  mkState (heap s) (mem_start_brk s) (mem_brk s) (mem_max_addr s)
          p (free_start s) (heap_prologue s) (heap_epilogue s).

Definition with_free_start (s : state) (p : Z) : state :=
  mkState (heap s) (mem_start_brk s) (mem_brk s) (mem_max_addr s)
          (heap_start s) p (heap_prologue s) (heap_epilogue s).

Definition with_heap_prologue (s : state) (p : Z) : state :=
  mkState (heap s) (mem_start_brk s) (mem_brk s) (mem_max_addr s)
          (heap_start s) (free_start s) p (heap_epilogue s).

Definition with_heap_epilogue (s : state) (p : Z) : state :=
  mkState (heap s) (mem_start_brk s) (mem_brk s) (mem_max_addr s)
          (heap_start s) (free_start s) (heap_prologue s) p.

(** Modelled from the spec: the backing collaborator [grow(bytes)] (memlib's
    [mem_sbrk], which is not part of the sources).  It extends the managed
    region by [incr] bytes and returns the old end of the region, or refuses
    and returns [(void * )-1] when the region would pass [mem_max_addr]. *)
Definition mem_sbrk (s : state) (incr : Z) : state * Z :=
  if mem_brk s + incr <=? mem_max_addr s
  then (with_brk s (mem_brk s + incr), mem_brk s)
  else (s, -1).

(** Loops that walk a list in the heap take fuel; [None] stands for a walk
    that does not come to an end.  A list of distinct block addresses inside
    the managed region has at most as many nodes as the region has bytes. *)
Definition walk_fuel (s : state) : nat :=
  S (Z.to_nat (mem_brk s - mem_start_brk s)).

Definition bind {A B : Type} (x : option A) (f : A -> option B) : option B :=
  match x with
  | Some a => f a
  | None => None
  end.

Notation "x <- e ;; k" := (bind e (fun x => k))
  (at level 61, e at next level, right associativity).
Notation "' pat <- e ;; k" := (bind e (fun x => match x with pat => k end))
  (at level 61, pat pattern, e at next level, right associativity).

(** ** remove_block *)

Definition remove_block (s : state) (ptr : Z) : state :=
  let m := heap s in
  let list_num := get_list (GET_SIZE m (HDRP ptr)) in
  let prev_node := PREV_FLIST_ADDRESS m ptr in
  let next_node := NEXT_FLIST_ADDRESS m ptr in
  let m1 :=
    if (prev_node =? NULL) && (next_node =? NULL) then
      SET_ROOT m (free_start s) list_num NULL
    else if next_node =? NULL then
      PUT m (NEXT_ADDRESS prev_node) NULL
    else if prev_node =? NULL then
      PUT (SET_ROOT m (free_start s) list_num next_node)
          (PREV_ADDRESS next_node) NULL
    else
      PUT (PUT m (PREV_ADDRESS next_node) prev_node)
          (NEXT_ADDRESS prev_node) next_node in
  with_heap s (PUT (PUT m1 (PREV_ADDRESS ptr) NULL) (NEXT_ADDRESS ptr) NULL).

(** ** add_block *)

Fixpoint add_block_walk (fuel : nat) (m : mem) (new_ptr root_trace : Z)
  : option Z :=
  match fuel with
  | O => None
  | S f =>
      if (root_trace <? new_ptr)
         && negb (NEXT_FLIST_ADDRESS m root_trace =? NULL)
      then add_block_walk f m new_ptr (NEXT_FLIST_ADDRESS m root_trace)
      else Some root_trace
  end.

Definition add_block (s : state) (ptr : Z) : option state :=
  let list_num := get_list (GET_SIZE (heap s) (HDRP ptr)) in
  let new_ptr := ptr in
  let m := PUT (PUT (heap s) (NEXT_ADDRESS ptr) NULL) (PREV_ADDRESS ptr) NULL in
  let root_trace := GET_ROOT m (free_start s) list_num in
  if root_trace =? NULL then
    Some (with_heap s (SET_ROOT m (free_start s) list_num ptr))
  else if root_trace >? new_ptr then
    Some (with_heap s
            (PUT (PUT (SET_ROOT m (free_start s) list_num ptr)
                      (NEXT_ADDRESS ptr) root_trace)
                 (PREV_ADDRESS root_trace) ptr))
  else if NEXT_FLIST_ADDRESS m root_trace =? NULL then
    Some (with_heap s
            (PUT (PUT m (NEXT_ADDRESS root_trace) ptr)
                 (PREV_ADDRESS ptr) root_trace))
  else
    root_trace <- add_block_walk (walk_fuel s) m new_ptr root_trace ;;
    let next := NEXT_FLIST_ADDRESS m root_trace in
    let prev := PREV_FLIST_ADDRESS m root_trace in
    if next =? NULL then
      if new_ptr <=? root_trace then
        Some (with_heap s
                (PUT (PUT (PUT (PUT m (PREV_ADDRESS root_trace) new_ptr)
                               (NEXT_ADDRESS new_ptr) root_trace)
                          (PREV_ADDRESS new_ptr) prev)
                     (NEXT_ADDRESS prev) new_ptr))
      else
        Some (with_heap s
                (PUT (PUT m (NEXT_ADDRESS root_trace) new_ptr)
                     (PREV_ADDRESS new_ptr) root_trace))
    else
      Some (with_heap s
              (PUT (PUT (PUT (PUT m (NEXT_ADDRESS new_ptr) root_trace)
                             (PREV_ADDRESS new_ptr) prev)
                        (NEXT_ADDRESS prev) new_ptr)
                   (PREV_ADDRESS root_trace) new_ptr)).

(** ** coalesce *)

(** The three stores that end every merging path: header, footer (found
    through the header just written), at the surviving block. *)
Definition put_header_footer (s : state) (ptr val : Z) : state :=
  let m1 := PUT (heap s) (HDRP ptr) val in
  with_heap s (PUT m1 (FTRP m1 ptr) val).

Definition coalesce (s : state) (ptr : Z) : option (state * Z) :=
  let m := heap s in
  let prev_block_alloc := GET_PREV_ALLOC m (HDRP ptr) in
  let next_block := NEXT_BLOCK m ptr in
  let next_block_alloc := GET_ALLOC m (HDRP next_block) in
  let ptr_size := GET_SIZE m (HDRP ptr) in
  if negb (prev_block_alloc =? 0) && (next_block_alloc =? 0) then
    let ptr_size := wrap (ptr_size + GET_SIZE m (HDRP next_block)) in
    let s1 := remove_block s next_block in
    let s2 := put_header_footer s1 ptr (PACK ptr_size 2 0) in
    s3 <- add_block s2 ptr ;;
    Some (s3, ptr)
  else if (prev_block_alloc =? 0) && negb (next_block_alloc =? 0) then
    let prev_block := PREV_BLOCK m ptr in
    let other_block_size := GET_SIZE m (HDRP prev_block) in
    let ptr_size := wrap (ptr_size + other_block_size) in
    let list_num := get_list other_block_size in
    if Z.shiftl 1 list_num <=? ptr_size then
      let s1 := remove_block s prev_block in
      let ptr := prev_block in
      let s2 := put_header_footer s1 ptr (PACK ptr_size 2 0) in
      s3 <- add_block s2 ptr ;;
      Some (s3, ptr)
    else
      let ptr := prev_block in
      Some (put_header_footer s ptr (PACK ptr_size 2 0), ptr)
  else if negb (prev_block_alloc =? 0) && negb (next_block_alloc =? 0) then
    s1 <- add_block s ptr ;;
    Some (s1, ptr)
  else
    let prev_block := PREV_BLOCK m ptr in
    let s1 := remove_block s next_block in
    let m1 := heap s1 in
    let ptr_size :=
      wrap (ptr_size + wrap (GET_SIZE m1 (HDRP prev_block)
                             + GET_SIZE m1 (HDRP next_block))) in
    let list_num := get_list (GET_SIZE m1 (HDRP prev_block)) in
    if Z.shiftl 1 list_num >? ptr_size then
      let ptr := prev_block in
      Some (put_header_footer s1 ptr (PACK ptr_size 2 0), ptr)
    else
      let s2 := remove_block s1 prev_block in
      let ptr := prev_block in
      let s3 := put_header_footer s2 ptr (PACK ptr_size 2 0) in
      s4 <- add_block s3 ptr ;;
      Some (s4, ptr).

(** ** extend_heap *)

Definition extend_heap (s : state) (words : Z) : option (state * Z) :=
  let size :=
    if negb (words mod 2 =? 0) then wrap ((words + 1) * WSIZE)
    else wrap (words * WSIZE) in
  let end_alloc := GET_PREV_ALLOC (heap s) (heap_epilogue s) in
  let '(s1, ptr) := mem_sbrk s size in
  if ptr =? -1 then Some (s, NULL)
  else
    let m1 := PUT (heap s1) (HDRP ptr) (PACK size end_alloc 0) in
    let m2 := PUT m1 (FTRP m1 ptr) (PACK size end_alloc 0) in
    let m3 := PUT m2 (HDRP (NEXT_BLOCK m2 ptr)) (PACK 0 0 1) in
    let s2 := with_heap_epilogue (with_heap s1 m3) (HDRP (NEXT_BLOCK m3 ptr)) in
    if negb (end_alloc =? 0) then
      s3 <- add_block s2 ptr ;;
      Some (s3, ptr)
    else
      coalesce s2 ptr.

(** ** find_fit *)

Fixpoint find_fit_list (fuel : nat) (m : mem) (size ptr : Z) : option Z :=
  match fuel with
  | O => None
  | S f =>
      if ptr =? NULL then Some NULL
      else if size <=? GET_SIZE m (HDRP ptr) then Some ptr
      else find_fit_list f m size (NEXT_FLIST_ADDRESS m ptr)
  end.

(** The outer loop visits at most [MAX_LISTS] lists; [lists] counts them. *)
Fixpoint find_fit_lists (lists : nat) (s : state) (size list_num : Z)
  : option Z :=
  if list_num <? MAX_LISTS then
    match lists with
    | O => None
    | S n =>
        ptr <- find_fit_list (walk_fuel s) (heap s) size
                 (GET_ROOT (heap s) (free_start s) list_num) ;;
        if ptr =? NULL then find_fit_lists n s size (list_num + 1)
        else Some ptr
    end
  else Some NULL.

Definition find_fit (s : state) (size : Z) : option Z :=
  find_fit_lists 16 s size (get_list size).

(** ** place *)

Definition place (s : state) (ptr size : Z) : option (state * Z) :=
  let m := heap s in
  let next_block := NEXT_BLOCK m ptr in
  let next_block_size := GET_SIZE m (HDRP next_block) in
  let old_size := GET_SIZE m (HDRP ptr) in
  let frag_count := wrap (old_size - size) in
  let s1 := remove_block s ptr in
  if frag_count >? Z.shiftl 1 6 then
    let m1 := PUT (heap s1) (HDRP next_block) (PACK next_block_size 0 1) in
    let m2 := PUT m1 (HDRP ptr) (PACK size 2 1) in
    let split_block := NEXT_BLOCK m2 ptr in
    let m3 := PUT m2 (HDRP split_block) (PACK frag_count 2 0) in
    let m4 := PUT m3 (FTRP m3 split_block) (PACK frag_count 2 0) in
    s2 <- add_block (with_heap s1 m4) split_block ;;
    Some (s2, ptr)
  else
    let m1 := PUT (heap s1) (HDRP next_block) (PACK next_block_size 2 1) in
    let m2 := PUT m1 (HDRP ptr) (PACK old_size 2 1) in
    Some (with_heap s1 m2, ptr).

(** ** mm_init *)

Fixpoint init_roots (n : nat) (m : mem) (free_start i : Z) : mem :=
  match n with
  | O => m
  | S k => init_roots k (PUT m (free_start + i * WSIZE) NULL) free_start (i + 1)
  end.

Definition mm_init (s : state) : option (state * Z) :=
  let '(s1, p) := mem_sbrk s ((MAX_LISTS + 3) * WSIZE) in
  if p =? -1 then Some (with_heap_prologue s1 p, -1)
  else
    let s2 := with_free_start (with_heap_prologue s1 p) p in
    let s3 := with_heap_prologue s2 (heap_prologue s2 + (MAX_LISTS + 1) * WSIZE) in
    let m1 := init_roots 16 (heap s3) (free_start s3) 0 in
    let m2 := PUT m1 (HDRP (heap_prologue s3)) (PACK DWORD 2 1) in
    let m3 := PUT m2 (FTRP m2 (heap_prologue s3)) (PACK DWORD 2 1) in
    let s4 := with_heap_epilogue (with_heap s3 m3)
                (HDRP (NEXT_BLOCK m3 (heap_prologue s3))) in
    let s5 := with_heap s4 (PUT (heap s4) (heap_epilogue s4) (PACK 0 2 1)) in
    '(s6, r) <- extend_heap s5 (CHUNKSIZE / WSIZE) ;;
    let s7 := with_heap_start s6 r in
    if r =? NULL then Some (s7, -1) else Some (s7, 0).

(** ** mm_malloc *)

(** The rounding of a request to an internal block size, as mm_malloc and
    mm_realloc both write it. *)
Definition round_size (size : Z) : Z :=
  if size <=? 32 then 2 * 32
  else DWORD * (wrap (size + DWORD + (DWORD - 1)) / DWORD).

Definition mm_malloc (s : state) (size : Z) : option (state * Z) :=
  if size =? 0 then Some (s, NULL)
  else
    let size := round_size size in
    ptr <- find_fit s size ;;
    if negb (ptr =? NULL) then
      '(s1, _) <- place s ptr size ;;
      Some (s1, ptr)
    else
      let extend_size := MAX size CHUNKSIZE in
      '(s1, ptr) <- extend_heap s (extend_size / WSIZE) ;;
      if ptr =? NULL then Some (s1, NULL)
      else
        '(s2, _) <- place s1 ptr size ;;
        Some (s2, ptr).

(** ** mm_free *)

Definition mm_free (s : state) (ptr : Z) : option state :=
  let m := heap s in
  let ptr_size := GET_SIZE m (HDRP ptr) in
  let next_block := NEXT_BLOCK m ptr in
  let prev_block_alloc := GET_PREV_ALLOC m (HDRP ptr) in
  let next_block_size := GET_SIZE m (HDRP next_block) in
  let next_block_alloc := GET_ALLOC m (HDRP next_block) in
  let m1 := PUT m (HDRP ptr) (PACK ptr_size prev_block_alloc 0) in
  let m2 := PUT m1 (FTRP m1 ptr) (PACK ptr_size prev_block_alloc 0) in
  let m3 := PUT m2 (HDRP next_block) (PACK next_block_size 0 next_block_alloc) in
  let m4 :=
    if next_block_alloc =? 0
    then PUT m3 (FTRP m3 next_block) (PACK next_block_size 0 0)
    else m3 in
  '(s1, _) <- coalesce (with_heap s m4) ptr ;;
  Some s1.

(** ** mm_realloc *)

(** memcpy is the C library's and has no source in mm.c; it is modelled as
    the copy of [n] bytes one after the other from the lowest address.
    mm_realloc asks for [size] bytes, the rounded new size, which is more
    than the old block holds, so the two ranges can overlap when the new
    block lies less than [size] bytes above the old one. C leaves a copy
    between overlapping ranges undefined: the bytes of the target from
    offset [dst - src] on depend on the direction of the copy, and nothing
    below is stated about them; the bytes below the old block's size, and
    below [dst - src], are the same in every order of copying. *)
Fixpoint memcpy_loop (n : nat) (m : mem) (dst src : Z) : mem :=
  match n with
  | O => m
  | S k => memcpy_loop k (upd m dst (m src)) (dst + 1) (src + 1)
  end.

Definition memcpy (m : mem) (dst src n : Z) : mem :=
  memcpy_loop (Z.to_nat n) m dst src.

Definition mm_realloc (s : state) (ptr size : Z) : option (state * Z) :=
  if ptr =? NULL then mm_malloc s size
  else if size =? 0 then
    s1 <- mm_free s ptr ;;
    Some (s1, NULL)
  else
    let new_ptr := ptr in
    let m := heap s in
    let old_size := GET_SIZE m (HDRP ptr) in
    let old_prev_alloc := GET_PREV_ALLOC m (HDRP ptr) in
    let size := round_size size in
    let next_ptr := NEXT_BLOCK m ptr in
    let next_alloc := GET_ALLOC m (HDRP next_ptr) in
    let next_size := GET_SIZE m (HDRP next_ptr) in
    if size =? old_size then Some (s, ptr)
    else if size >? old_size then
      if (next_alloc =? 0) && (wrap (next_size + old_size) >? size) then
        let s1 := remove_block s next_ptr in
        let m1 := PUT (heap s1) (HDRP ptr)
                      (PACK (wrap (next_size + old_size)) old_prev_alloc 1) in
        let next_ptr := NEXT_BLOCK m1 ptr in
        let next_size := GET_SIZE m1 (HDRP next_ptr) in
        let m2 := PUT m1 (HDRP (NEXT_BLOCK m1 ptr)) (PACK next_size 2 1) in
        Some (with_heap s1 m2, new_ptr)
      else
        '(s1, new_ptr) <- mm_malloc s size ;;
        if new_ptr =? NULL then Some (s1, NULL)
        else
          let s2 := with_heap s1 (memcpy (heap s1) new_ptr ptr size) in
          s3 <- mm_free s2 ptr ;;
          Some (s3, new_ptr)
    else if false && (next_alloc =? 0) then
      if wrap (old_size - size) >? Z.shiftl 1 30 then
        let m1 := PUT m (HDRP ptr) (PACK size (GET_PREV_ALLOC m (HDRP ptr)) 1) in
        let split_ptr := NEXT_BLOCK m1 ptr in
        let m2 := PUT m1 (HDRP split_ptr) (PACK (wrap (old_size - size)) 2 1) in
        s1 <- mm_free (with_heap s m2) split_ptr ;;
        Some (s1, new_ptr)
      else Some (s, new_ptr)
    else Some (s, new_ptr).

(** ** Looking at the heap

    A heap checker walks the blocks from the first one to the epilogue, and
    the nodes of a free list from its root. *)

Definition block : Type := Z * Z * bool.

Fixpoint heap_blocks_from (fuel : nat) (m : mem) (ptr epilogue : Z)
  : option (list block) :=
  match fuel with
  | O => None
  | S f =>
      if HDRP ptr =? epilogue then Some []
      else
        rest <- heap_blocks_from f m (NEXT_BLOCK m ptr) epilogue ;;
        Some ((ptr, GET_SIZE m (HDRP ptr),
               negb (GET_ALLOC m (HDRP ptr) =? 0)) :: rest)
  end.

Definition heap_blocks (s : state) : option (list block) :=
  heap_blocks_from (walk_fuel s) (heap s) (heap_start s) (heap_epilogue s).

(** The linear scan for two neighbours that are both free: [Some true]
    when it meets such a pair, [Some false] when it reaches the epilogue
    without meeting one. *)
Fixpoint scan_adjacent_free (fuel : nat) (m : mem) (ptr epilogue : Z)
  : option bool :=
  match fuel with
  | O => None
  | S f =>
      if HDRP ptr =? epilogue then Some false
      else
        let next := NEXT_BLOCK m ptr in
        if (GET_ALLOC m (HDRP ptr) =? 0) && (GET_ALLOC m (HDRP next) =? 0)
        then Some true
        else scan_adjacent_free f m next epilogue
  end.

Definition adjacent_free (s : state) : option bool :=
  scan_adjacent_free (walk_fuel s) (heap s) (heap_start s) (heap_epilogue s).

Fixpoint list_from (fuel : nat) (m : mem) (ptr : Z) : option (list Z) :=
  match fuel with
  | O => None
  | S f =>
      if ptr =? NULL then Some []
      else
        rest <- list_from f m (NEXT_FLIST_ADDRESS m ptr) ;;
        Some (ptr :: rest)
  end.

Definition bucket_list (s : state) (k : Z) : option (list Z) :=
  list_from (walk_fuel s) (heap s) (GET_ROOT (heap s) (free_start s) k).

(** ** The client

    A client calls the four operations, writes into the blocks it holds
    and, through the backing memory system, decides how far the heap may
    grow.  [live] lists the addresses the client holds, each with the
    number of bytes it asked for. *)

Record config := mkConfig {
  st : state;
  live : list (Z * Z)
}.

Inductive event :=
| EvMalloc (n r : Z)
| EvFree (p : Z)
| EvRealloc (p n r : Z)
| EvWrite (p i v : Z)
| EvLimit (lim : Z).

(** Requests for which the rounding to a block size does not wrap
    around: [size + DWORD + (DWORD - 1)] stays below [2 ^ 64].  The client
    modelled here keeps to such requests, also for the rounded size that
    mm_realloc hands on to mm_malloc; a run of the code on a larger one is
    evaluated in the part on the scan for adjacent free blocks. *)
Definition request_ok (n : Z) : Prop := 0 <= n /\ n + 31 < SIZE_MOD.

Definition drop (p : Z) (l : list (Z * Z)) : list (Z * Z) :=
  filter (fun e => negb (fst e =? p)) l.

Definition hold (r n : Z) (l : list (Z * Z)) : list (Z * Z) :=
  if r =? NULL then l else (r, n) :: l.

Inductive step : config -> event -> config -> Prop :=
| step_malloc c n s' r :
    request_ok n ->
    mm_malloc (st c) n = Some (s', r) ->
    step c (EvMalloc n r) (mkConfig s' (hold r n (live c)))
| step_free c p n s' :
    In (p, n) (live c) ->
    mm_free (st c) p = Some s' ->
    step c (EvFree p) (mkConfig s' (drop p (live c)))
| step_realloc_null c n s' r :
    request_ok n ->
    mm_realloc (st c) NULL n = Some (s', r) ->
    step c (EvRealloc NULL n r) (mkConfig s' (hold r n (live c)))
| step_realloc c p n0 n s' r :
    In (p, n0) (live c) ->
    request_ok n -> request_ok (round_size n) ->
    mm_realloc (st c) p n = Some (s', r) ->
    step c (EvRealloc p n r)
         (mkConfig s' (if n =? 0 then drop p (live c)
                       else if r =? NULL then live c
                       else (r, n) :: drop p (live c)))
| step_write c p n i v :
    In (p, n) (live c) -> 0 <= i < n ->
    step c (EvWrite p i v)
         (mkConfig (with_heap (st c) (upd (heap (st c)) (p + i) v)) (live c))
| step_limit c lim :
    lim < SIZE_MOD ->
    step c (EvLimit lim) (mkConfig (with_max_addr (st c) lim) (live c)).

(** The state before mm_init: an empty managed region at [base]. *)
Definition boot (m0 : mem) (base lim : Z) : state :=
  mkState m0 base base lim 0 0 0 0.

Inductive reachable (base : Z) : config -> Prop :=
| reach_init m0 lim s :
    0 < base -> lim < SIZE_MOD ->
    mm_init (boot m0 base lim) = Some (s, 0) ->
    reachable base (mkConfig s [])
| reach_step c e c' :
    reachable base c -> step c e c' -> reachable base c'.


(** * Specification

    The predicates the verification is stated with: header words, the
    abstract heap, the free lists and their registry, the invariant, and
    what the operations promise. *)

(** ** Header words

    A header holds a size that is a multiple of eight, the
    previous-block-allocated flag in bit 1 and the allocated flag in
    bit 0. *)

Definition flag (b : bool) (v : Z) : Z := if b then v else 0.

Definition hv (sz : Z) (pa al : bool) : Z := sz + flag pa 2 + flag al 1.

(** ** The abstract heap: a list of blocks

    A block is given by its payload address, its size and its allocated
    flag.  [seg m a pa l] says that the store [m] holds the blocks [l] one
    after the other from payload address [a], where [pa] is the allocated
    flag of the block before [a]: every header is as the block says, and a
    free block has a footer that repeats its header. *)

Fixpoint end_of (a : Z) (l : list block) : Z :=
  match l with
  | [] => a
  | (_, sz, _) :: r => end_of (a + sz) r
  end.

Fixpoint last_al (pa : bool) (l : list block) : bool :=
  match l with
  | [] => pa
  | (_, _, al) :: r => last_al al r
  end.

Fixpoint seg (m : mem) (a : Z) (pa : bool) (l : list block) : Prop :=
  match l with
  | [] => True
  | (b, sz, al) :: r =>
      b = a /\ 64 <= sz /\ sz mod 16 = 0 /\
      GET m (b - 8) = hv sz pa al /\
      (al = false -> GET m (b + sz - 16) = hv sz pa false) /\
      seg m (a + sz) al r
  end.

(** The blocks up to the epilogue header, which has size 0 and is
    allocated. *)
Definition chain (m : mem) (a : Z) (pa : bool) (l : list block) : Prop :=
  seg m a pa l /\ GET m (end_of a l - 8) = hv 0 (last_al pa l) true.

(** No two neighbours are both free. *)
Fixpoint noadj (pa : bool) (l : list block) : Prop :=
  match l with
  | [] => True
  | (_, _, al) :: r => (pa = true \/ al = true) /\ noadj al r
  end.

(** ** The free lists

    A free list is a doubly linked list threaded through the payloads of
    its blocks: the word at [x] is the next node, the word at [x + 8] the
    previous one.  [dlseg m prev l nxt] says that the nodes [l] are linked
    in this order, the first one pointing back to [prev] and the last one
    forward to [nxt]. *)

Fixpoint asc (lo : Z) (l : list Z) : Prop :=
  match l with
  | [] => True
  | x :: r => lo < x /\ asc x r
  end.

Definition hd0 (l : list Z) (d : Z) : Z :=
  match l with
  | [] => d
  | x :: _ => x
  end.

(** The last node of [l], or [d] for the empty list. *)
Fixpoint lastd (d : Z) (l : list Z) : Z :=
  match l with
  | [] => d
  | x :: r => lastd x r
  end.

Fixpoint dlseg (m : mem) (prev : Z) (l : list Z) (nxt : Z) : Prop :=
  match l with
  | [] => True
  | x :: r => GET m (x + 8) = prev /\ GET m x = hd0 r nxt /\ dlseg m x r nxt
  end.

(** ** The registry of free lists *)

Definition bucket (m : mem) (fs : Z) (F : Z -> Z -> Prop) (k : Z) (l : list Z)
  : Prop :=
  asc 0 l /\ GET m (fs + k * 8) = hd0 l 0 /\ dlseg m 0 l 0 /\
  forall b, In b l <-> F b k.

Record reg (m : mem) (fs : Z) (F : Z -> Z -> Prop) : Prop := mkReg {
  reg_buckets : forall k, 0 <= k < 16 -> exists l, bucket m fs F k l;
  reg_class : forall b k, F b k -> 0 <= k < 16;
  reg_uniq : forall b k k', F b k -> F b k' -> k = k';
  reg_sep : forall b k b' k',
      F b k -> F b' k' -> b = b' \/ b + 16 <= b' \/ b' + 16 <= b;
  reg_above : forall b k, F b k -> fs + 128 <= b /\ b < SIZE_MOD;
  reg_fs : 0 <= fs
}.

(** The bytes the registry lives in: the roots and the link words of the
    listed blocks. *)
Definition lnk (F : Z -> Z -> Prop) (fs : Z) (x : Z) : Prop :=
  fs <= x < fs + 128 \/ exists b k, F b k /\ b <= x < b + 16.

(** ** Which blocks the registry lists

    [Fr abl b k]: the block at [b] is a free block of [abl] whose size is
    of class [k]. *)

Definition Fr (abl : list block) (b k : Z) : Prop :=
  exists sz, In (b, sz, false) abl /\ get_list sz = k.

(** ** States in the middle of an operation

    While an operation runs, the chain of blocks is intact but the registry
    may list only some of the free blocks.  [mst m a0 fs L F]: the store
    holds the blocks [L] from [a0] up to the epilogue and the lists hold
    the blocks [F], all of them free blocks of [L] in the list of their
    size class. *)

Record mst (m : mem) (a0 fs : Z) (L : list block) (F : Z -> Z -> Prop)
  : Prop := mkMst {
  mst_chain : chain m a0 true L;
  mst_reg : reg m fs F;
  mst_sub : forall b k, F b k -> Fr L b k;
  mst_fs : fs + 128 <= a0 - 8;
  mst_end : end_of a0 L < SIZE_MOD
}.

(** The payloads of the allocated blocks of [L] are the same in [m] and
    [m']. *)
Definition pres (L : list block) (m m' : mem) : Prop :=
  forall b z x, In (b, z, true) L -> b <= x < b + z - 8 -> m' x = m x.

(** ** coalesce *)

(** The two ends of a merge: the merged block is written and, unless it
    stays where it is listed, put into the list of its class. *)
Definition merge_post (s : state) (a0 : Z) (l1 mid l2 : list block)
           (r total : Z) (res : option (state * Z)) : Prop :=
  exists s',
    res = Some (s', r) /\ s' = with_heap s (heap s') /\
    mst (heap s') a0 (free_start s) (l1 ++ (r, total, false) :: l2)
        (Fr (l1 ++ (r, total, false) :: l2)) /\
    pres (l1 ++ mid ++ l2) (heap s) (heap s').

(** What coalesce promises: the blocks around [ptr] are merged into one
    listed free block, no two neighbours are free, and the allocated
    blocks and their payloads are as before. *)
Definition coalesce_post (s : state) (a0 : Z) (l1 : list block) (ptr sz : Z)
           (l2 : list block) (res : option (state * Z)) : Prop :=
  exists s' r L',
    res = Some (s', r) /\ s' = with_heap s (heap s') /\
    mst (heap s') a0 (free_start s) L' (Fr L') /\ noadj true L' /\
    end_of a0 L' = end_of a0 (l1 ++ (ptr, sz, false) :: l2) /\
    last_al true L' = last_al true (l1 ++ (ptr, sz, false) :: l2) /\
    pres (l1 ++ l2) (heap s) (heap s') /\
    (forall b z, In (b, z, true) L' <-> In (b, z, true) (l1 ++ l2)) /\
    exists rsz, In (r, rsz, false) L' /\ r <= ptr /\ ptr + sz <= r + rsz.

(** ** The invariant of the allocator

    [inv s L]: in state [s] the heap holds exactly the blocks [L] between
    the prologue and the epilogue, every free block of [L] is in the list
    of its size class, and no two neighbours are free. *)

Definition first_block (s : state) : Z := mem_start_brk s + 152.

Record inv (s : state) (L : list block) : Prop := mkInv {
  inv_base : 0 < mem_start_brk s;
  inv_free_start : free_start s = mem_start_brk s;
  inv_prologue : heap_prologue s = mem_start_brk s + 136;
  inv_mst : mst (heap s) (first_block s) (free_start s) L (Fr L);
  inv_epilogue : heap_epilogue s = end_of (first_block s) L - 8;
  inv_brk : mem_brk s = end_of (first_block s) L;
  inv_max : mem_max_addr s < SIZE_MOD;
  inv_noadj : noadj true L
}.

(** Two states that differ in the heap bytes only. *)
Definition same_frame (s s' : state) : Prop :=
  s' = with_heap s (heap s').

(** ** mm_malloc *)

Definition malloc_post (s : state) (L : list block) (size : Z)
           (res : option (state * Z)) : Prop :=
  exists s' r,
    res = Some (s', r) /\
    ((r = 0 /\ s' = s /\ find_fit s size = Some 0 /\
      mem_max_addr s < mem_brk s + MAX size CHUNKSIZE) \/
     (r <> 0 /\
      (find_fit s size = Some 0 -> mem_brk s + MAX size CHUNKSIZE <= mem_max_addr s) /\
      exists L' z,
        inv s' L' /\ In (r, z, true) L' /\ size <= z /\
        (forall z0, ~ In (r, z0, true) L) /\
        (forall b z0, In (b, z0, true) L' <->
                      (In (b, z0, true) L \/ (b = r /\ z0 = z))) /\
        pres L (heap s) (heap s') /\
        mem_start_brk s' = mem_start_brk s /\
        mem_max_addr s' = mem_max_addr s /\
        heap_start s' = heap_start s)).

(** ** mm_realloc *)

(** What a resize that keeps the address promises. *)
Definition realloc_same (s : state) (L : list block) (p z n : Z)
           (s' : state) : Prop :=
  exists L' z',
    inv s' L' /\ In (p, z', true) L' /\ n + 16 <= z' /\ z <= z' /\
    (forall b z0, In (b, z0, true) L' <->
                  ((In (b, z0, true) L /\ b <> p) \/ (b = p /\ z0 = z'))) /\
    pres L (heap s) (heap s') /\ same_frame s s'.

(** What a resize that moves the block promises. *)
Definition realloc_moved (s : state) (L : list block) (p z n : Z)
           (s' : state) (r : Z) : Prop :=
  r <> 0 /\ r <> p /\
  exists L' z',
    inv s' L' /\ In (r, z', true) L' /\ n + 16 <= z' /\
    (forall b z0, In (b, z0, true) L' <->
                  ((In (b, z0, true) L /\ b <> p) \/ (b = r /\ z0 = z'))) /\
    (forall b z0 x, In (b, z0, true) L -> b <> p -> b <= x < b + z0 - 8 ->
                    heap s' x = heap s x) /\
    (forall i, 0 <= i < z - 8 -> heap s' (r + i) = heap s (p + i)) /\
    mem_start_brk s' = mem_start_brk s /\ mem_max_addr s' = mem_max_addr s /\
    heap_start s' = heap_start s.

(** ** The invariant of the client's view

    In every configuration the client can reach, the allocator's invariant
    holds for some list of blocks, and the addresses the client holds are
    the allocated blocks, each with room for the bytes asked for. *)

Record cinv (base : Z) (c : config) (L : list block) : Prop := mkCinv {
  cinv_inv : inv (st c) L;
  cinv_base : mem_start_brk (st c) = base;
  cinv_start : heap_start (st c) = base + 152;
  cinv_live : forall p,
      (exists n, In (p, n) (live c)) <-> (exists z, In (p, z, true) L);
  cinv_room : forall p n z,
      In (p, n) (live c) -> In (p, z, true) L -> 0 <= n /\ n + 16 <= z
}.

(** ** The free lists as the checker reads them *)

(** [listed s F]: each of the 16 lists of [s] can be walked from its root
    to its end, is strictly ascending and doubly linked, and holds the
    blocks that [F] puts in its class. *)
Definition listed (s : state) (F : Z -> Z -> Prop) : Prop :=
  forall k, 0 <= k < 16 ->
    exists l, bucket_list s k = Some l /\ asc 0 l /\
              dlseg (heap s) 0 l 0 /\ forall b, In b l <-> F b k.

(** [sorted_lists s]: every list of [s] can be walked to its end, is
    strictly ascending in address and doubly linked. *)
Definition sorted_lists (s : state) : Prop :=
  forall k, 0 <= k < 16 ->
    exists l, bucket_list s k = Some l /\ asc 0 l /\ dlseg (heap s) 0 l 0.




(** ** A concrete run

    A region at address 4096 that may grow to 20 MB, as memlib sets it up,
    with all bytes 0; then [a = malloc(1)], [b = malloc(100)], [free(a)]. *)

Definition mem0 : mem := fun _ => 0.

Definition arena : state := boot mem0 4096 (4096 + 20 * 1048576).

Definition started (o : option (state * Z)) (d : state) : state :=
  match o with Some (s, _) => s | None => d end.

Definition freed (o : option state) (d : state) : state :=
  match o with Some s => s | None => d end.

Definition heap0 : state := started (mm_init arena) arena.

Definition heap1 : state := started (mm_malloc heap0 1) heap0.

Definition heap2 : state := started (mm_malloc heap1 100) heap1.


Definition c0 : config := mkConfig heap0 [].

Definition c1 : config := mkConfig heap1 [(4248, 1)].



(** ** The scan for adjacent free blocks *)

(** A request of [2 ^ 64 - 1] bytes: [size + DWORD + (DWORD - 1)] wraps
    around to 30 and the block size becomes 16. *)
Definition over1 : state := started (mm_malloc heap0 (2 ^ 64 - 1)) heap0.

Definition over2 : state := started (mm_malloc over1 200) over1.

Definition over3 : state := freed (mm_free over2 4248) over2.

(** A request of [2 ^ 64 - 31] bytes: the sum wraps around to 0 and the
    block size becomes 0. *)
Definition zero1 : state := started (mm_malloc heap0 (2 ^ 64 - 31)) heap0.

Definition zero2 : state := started (mm_malloc zero1 1) zero1.

(** ** Alignment of the addresses handed out *)

(** The address an event hands to the client. *)
Definition returned (e : event) : option Z :=
  match e with
  | EvMalloc _ r => Some r
  | EvRealloc _ _ r => Some r
  | _ => None
  end.

(** ** mm_realloc, seen from the headers *)

Definition block_size (s : state) (p : Z) : Z := GET_SIZE (heap s) (HDRP p).

Definition next_size (s : state) (p : Z) : Z :=
  GET_SIZE (heap s) (HDRP (NEXT_BLOCK (heap s) p)).

Definition next_alloc (s : state) (p : Z) : Z :=
  GET_ALLOC (heap s) (HDRP (NEXT_BLOCK (heap s) p)).

(** ** Running out of memory *)

(** The heap of [c1] when the memory system lets it grow no further. *)
Definition c1_full : config := mkConfig (with_max_addr heap1 4504) [(4248, 1)].

(** ** What the further properties are stated with *)

(** [grows s s']: the base of the heap, its limit, the roots, the prologue
    and the first block are where they were, and the end of the heap has
    not moved down. *)
Definition grows (s s' : state) : Prop :=
  mem_start_brk s' = mem_start_brk s /\ mem_max_addr s' = mem_max_addr s /\
  free_start s' = free_start s /\ heap_prologue s' = heap_prologue s /\
  heap_start s' = heap_start s /\ mem_brk s <= mem_brk s'.

(** The number of bytes extend_heap asks mem_sbrk for. *)
Definition extend_bytes (words : Z) : Z :=
  if negb (words mod 2 =? 0) then wrap ((words + 1) * WSIZE)
  else wrap (words * WSIZE).







(** * Verification *)

(** ** Facts on the bit operations *)

Lemma clear_bit_pow2 (k q : Z) :
  0 <= k -> 0 <= q ->
  Z.land (2 ^ k * q) (Z.lnot (Z.shiftl 1 k)) = 2 ^ (k + 1) * (q / 2).
Proof.
  intros Hk Hq. rewrite Z.shiftl_1_l.
  apply Z.bits_inj'. intros n Hn.
  rewrite Z.land_spec, Z.lnot_spec, Z.pow2_bits_eqb by lia.
  rewrite (Z.mul_comm (2 ^ k)), (Z.mul_comm (2 ^ (k + 1))).
  destruct (Z.ltb_spec n k) as [Hlt | Hge].
  - rewrite Z.mul_pow2_bits_low by lia.
    rewrite Z.mul_pow2_bits_low by lia. reflexivity.
  - rewrite Z.mul_pow2_bits by lia.
    destruct (Z.eqb_spec k n) as [-> | Hne].
    + rewrite Z.mul_pow2_bits_low by lia.
      rewrite andb_false_r. reflexivity.
    + rewrite Z.mul_pow2_bits by lia.
      rewrite andb_true_r.
      rewrite <- Z.shiftr_div_pow2 with (n := 1) by lia.
      rewrite Z.shiftr_spec by lia.
      f_equal. lia.
Qed.

Lemma get_list_loop_spec (fuel : nat) :
  forall k x,
    0 <= k -> k + Z.of_nat fuel = 15 -> 0 <= x -> x mod 2 ^ k = 0 ->
    get_list_loop fuel x k =
      if x =? 0 then k else Z.min (Z.log2 x + 1) 15.
Proof.
  induction fuel as [| f IH]; intros k x Hk Hf Hx Hmod; cbn [get_list_loop].
  - assert (k = 15) by lia. subst k.
    destruct (Z.eqb_spec x 0) as [| Hne]; [reflexivity |].
    assert (2 ^ 15 <= x).
    { apply Z.mod_divide in Hmod; [| lia].
      destruct Hmod as [c Hc]. subst x. nia. }
    assert (15 <= Z.log2 x) by (apply Z.log2_le_pow2; lia). lia.
  - unfold MAX_LISTS.
    destruct (Z.ltb_spec 0 x) as [Hpos | Hz]; cbn [andb].
    2:{ assert (x = 0) by lia. subst x. reflexivity. }
    destruct (Z.ltb_spec k (16 - 1)) as [Hlt | Hge]; [| lia].
    destruct (Z.eqb_spec x 0) as [| _]; [lia |].
    apply Z.mod_divide in Hmod; [| lia].
    destruct Hmod as [q Hq].
    assert (Hq' : x = 2 ^ k * q) by lia. clear Hq.
    assert (Hqpos : 0 < q) by nia.
    subst x. rewrite clear_bit_pow2 by lia.
    rewrite IH; try lia.
    2:{ apply Z.mul_nonneg_nonneg; [lia | apply Z.div_pos; lia]. }
    2:{ rewrite Z.mul_comm. apply Z.mod_mul. lia. }
    rewrite (Z.mul_comm (2 ^ k) q), Z.log2_mul_pow2 by lia.
    destruct (Z.eqb_spec (2 ^ (k + 1) * (q / 2)) 0) as [Hzero | Hnz].
    + assert (q / 2 = 0) by nia.
      assert (q = 1) by (assert (q < 2) by (apply Z.div_small_iff in H; lia); lia).
      subst q. change (Z.log2 1) with 0. lia.
    + assert (Hq2 : 0 < q / 2).
      { assert (0 <= q / 2) by (apply Z.div_pos; lia).
        assert (q / 2 <> 0) by (intro E; rewrite E in Hnz; lia). lia. }
      rewrite (Z.mul_comm (2 ^ (k + 1))).
      rewrite Z.log2_mul_pow2 by lia.
      rewrite <- Z.shiftr_div_pow2 with (n := 1) by lia.
      rewrite Z.log2_shiftr by lia.
      assert (1 <= Z.log2 q).
      { apply Z.log2_le_pow2; [lia |].
        assert (q / 2 < q) by (apply Z.div_lt; lia).
        simpl. lia. }
      rewrite Z.max_r by lia. f_equal. lia.
Qed.

(** The loop of [get_list] and the closed form agree from size 1 on. *)
Lemma get_list_classify (size : Z) :
  1 <= size -> get_list size = classify size.
Proof.
  intros Hs. unfold get_list, classify.
  rewrite get_list_loop_spec; try lia.
  - destruct (Z.eqb_spec size 0); [lia | reflexivity].
  - simpl. apply Z.mod_1_r.
Qed.

(** C3. For every size >= 1 the bit-clearing loop of [get_list] returns
    min(floor(log2 size) + 1, 15), the closed form [classify]. *)
Theorem get_list_closed_form (size : Z) :
  1 <= size -> get_list size = classify size.
Proof.
  intros Hs. unfold get_list, classify.
  rewrite get_list_loop_spec; try lia.
  - destruct (Z.eqb_spec size 0); [lia | reflexivity].
  - simpl. apply Z.mod_1_r.
Qed.

Lemma get_list_closed_form_witness :
  1 <= 240 /\ get_list 240 = classify 240.
Proof. split; [lia | apply (get_list_closed_form 240); lia]. Defined.

(** ** The byte store: reading back what was written *)

Lemma store_outside (n : nat) :
  forall m p v x, x < p \/ p + Z.of_nat n <= x -> store n m p v x = m x.
Proof.
  induction n as [| k IH]; intros m p v x Hx; cbn [store]; [reflexivity |].
  rewrite IH by lia. unfold upd.
  destruct (Z.eqb_spec x p); [lia | reflexivity].
Qed.

Lemma load_ext (n : nat) :
  forall m m' p,
    (forall x, p <= x < p + Z.of_nat n -> m' x = m x) ->
    load n m' p = load n m p.
Proof.
  induction n as [| k IH]; intros m m' p H; cbn [load]; [reflexivity |].
  rewrite (H p) by lia. rewrite (IH m m' (p + 1)); [reflexivity |].
  intros x Hx. apply H. lia.
Qed.

Lemma load_range (n : nat) :
  forall m p, 0 <= load n m p < 256 ^ Z.of_nat n.
Proof.
  induction n as [| k IH]; intros m p; cbn [load].
  - simpl. lia.
  - specialize (IH m (p + 1)).
    assert (0 <= m p mod 256 < 256) by (apply Z.mod_pos_bound; lia).
    rewrite Nat2Z.inj_succ, Z.pow_succ_r by lia. lia.
Qed.

Lemma load_store (n : nat) :
  forall m p v, load n (store n m p v) p = v mod 256 ^ Z.of_nat n.
Proof.
  induction n as [| k IH]; intros m p v; cbn [load store].
  - simpl. symmetry. apply Z.mod_1_r.
  - rewrite IH. rewrite store_outside by lia.
    unfold upd. rewrite Z.eqb_refl.
    rewrite Z.mod_mod by lia.
    rewrite Nat2Z.inj_succ, Z.pow_succ_r by lia.
    rewrite Z.rem_mul_r; lia.
Qed.

Lemma GET_range (m : mem) (p : Z) : 0 <= GET m p < SIZE_MOD.
Proof. apply (load_range 8). Qed.

Lemma GET_PUT_same (m : mem) (p v : Z) :
  0 <= v < SIZE_MOD -> GET (PUT m p v) p = v.
Proof.
  intros Hv. unfold GET, PUT. rewrite load_store.
  apply Z.mod_small. exact Hv.
Qed.

Lemma PUT_outside (m : mem) (p v x : Z) :
  x < p \/ p + 8 <= x -> PUT m p v x = m x.
Proof. intros H. unfold PUT. apply store_outside. simpl. lia. Qed.

Lemma GET_ext (m m' : mem) (p : Z) :
  (forall x, p <= x < p + 8 -> m' x = m x) -> GET m' p = GET m p.
Proof. intros H. unfold GET. apply load_ext. simpl. exact H. Qed.

Lemma GET_PUT_other (m : mem) (p v q : Z) :
  q + 8 <= p \/ p + 8 <= q -> GET (PUT m p v) q = GET m q.
Proof.
  intros H. apply GET_ext. intros x Hx. apply PUT_outside. lia.
Qed.

(** ** Header words *)

Lemma land_low3 (x c : Z) :
  0 <= c < 8 -> Z.land x c = Z.land (x mod 8) c.
Proof.
  intros Hc.
  assert (Hc7 : Z.land 7 c = c).
  { assert (c = 0 \/ c = 1 \/ c = 2 \/ c = 3 \/ c = 4 \/ c = 5 \/ c = 6 \/ c = 7)
      as Hcases by lia.
    repeat (destruct Hcases as [-> | Hcases]; [reflexivity |]).
    subst c. reflexivity. }
  rewrite <- Hc7 at 1. rewrite Z.land_assoc.
  change 7 with (Z.ones 3). rewrite Z.land_ones by lia. reflexivity.
Qed.

Lemma land_lnot7 (x : Z) : Z.land x (Z.lnot 7) = 8 * (x / 8).
Proof.
  rewrite <- Z.ldiff_land. change 7 with (Z.ones 3).
  rewrite Z.ldiff_ones_r by lia.
  rewrite Z.shiftl_mul_pow2, Z.shiftr_div_pow2 by lia.
  change (2 ^ 3) with 8. lia.
Qed.

Lemma lor_low3 (x f : Z) :
  0 <= f < 8 -> Z.land (x mod 8) f = 0 -> Z.lor x f = x + f.
Proof.
  intros Hf H0.
  assert (Hland : Z.land x f = 0) by (rewrite land_low3 by lia; exact H0).
  rewrite <- Z.lxor_lor by exact Hland.
  symmetry. apply Z.add_nocarry_lxor. exact Hland.
Qed.

Lemma hv_mod8 (sz : Z) (pa al : bool) :
  sz mod 8 = 0 -> hv sz pa al mod 8 = flag pa 2 + flag al 1.
Proof.
  intros Hmod. unfold hv.
  rewrite <- Z.add_assoc, Z.add_mod, Hmod by lia.
  destruct pa, al; reflexivity.
Qed.

Lemma PACK_hv (sz : Z) (pa al : bool) :
  sz mod 8 = 0 -> PACK sz (flag pa 2) (flag al 1) = hv sz pa al.
Proof.
  intros Hmod. unfold PACK, hv.
  rewrite (lor_low3 sz).
  - rewrite lor_low3; [reflexivity | destruct al; simpl; lia |].
    rewrite Z.add_mod, Hmod by lia. destruct pa, al; reflexivity.
  - destruct pa; simpl; lia.
  - rewrite Hmod. apply Z.land_0_l.
Qed.

Lemma hv_size (sz : Z) (pa al : bool) :
  sz mod 8 = 0 -> Z.land (hv sz pa al) (Z.lnot 7) = sz.
Proof.
  intros Hmod. rewrite land_lnot7.
  assert (H := Z.div_mod (hv sz pa al) 8).
  rewrite hv_mod8 in H by exact Hmod.
  unfold hv in *. lia.
Qed.

Lemma hv_alloc (sz : Z) (pa al : bool) :
  sz mod 8 = 0 -> Z.land (hv sz pa al) 1 = flag al 1.
Proof.
  intros Hmod. rewrite land_low3, hv_mod8 by (exact Hmod || lia).
  destruct pa, al; reflexivity.
Qed.

Lemma hv_prev_alloc (sz : Z) (pa al : bool) :
  sz mod 8 = 0 -> Z.land (hv sz pa al) 2 = flag pa 2.
Proof.
  intros Hmod. rewrite land_low3, hv_mod8 by (exact Hmod || lia).
  destruct pa, al; reflexivity.
Qed.

(** ** The size classes *)

Lemma get_list_range (size : Z) : 0 <= size -> 0 <= get_list size <= 15.
Proof.
  intros Hs. destruct (Z.eq_dec size 0) as [-> | Hne].
  { change (get_list 0) with 0. lia. }
  rewrite get_list_classify by lia. unfold classify.
  assert (0 <= Z.log2 size) by apply Z.log2_nonneg. lia.
Qed.

(** A size that grows but stays below 2^k, k its class, keeps its class. *)
Lemma get_list_stable (a b : Z) :
  1 <= a <= b -> b < Z.shiftl 1 (get_list a) -> get_list b = get_list a.
Proof.
  intros Hab Hlt. rewrite Z.shiftl_1_l in Hlt.
  rewrite !get_list_classify in * by lia. unfold classify in *.
  assert (Hmono : Z.log2 a <= Z.log2 b) by (apply Z.log2_le_mono; lia).
  destruct (Z.le_gt_cases (Z.log2 a + 1) 15) as [Hle | Hgt].
  - rewrite Z.min_l in Hlt by lia.
    assert (Z.log2 b < Z.log2 a + 1) by (apply Z.log2_lt_pow2; lia).
    lia.
  - lia.
Qed.

(** ** The abstract heap: a list of blocks *)

Lemma end_of_app (l1 l2 : list block) :
  forall a, end_of a (l1 ++ l2) = end_of (end_of a l1) l2.
Proof.
  induction l1 as [| [[b sz] al] r IH]; intros a; simpl; [reflexivity | apply IH].
Qed.

Lemma last_al_app (l1 l2 : list block) :
  forall pa, last_al pa (l1 ++ l2) = last_al (last_al pa l1) l2.
Proof.
  induction l1 as [| [[b sz] al] r IH]; intros pa; simpl; [reflexivity | apply IH].
Qed.

Lemma seg_app (m : mem) (l1 l2 : list block) :
  forall a pa,
    seg m a pa (l1 ++ l2) <->
    seg m a pa l1 /\ seg m (end_of a l1) (last_al pa l1) l2.
Proof.
  induction l1 as [| [[b sz] al] r IH]; intros a pa; simpl.
  - tauto.
  - rewrite IH. tauto.
Qed.

Lemma noadj_app (l1 l2 : list block) :
  forall pa,
    noadj pa (l1 ++ l2) <-> noadj pa l1 /\ noadj (last_al pa l1) l2.
Proof.
  induction l1 as [| [[b sz] al] r IH]; intros pa; simpl.
  - tauto.
  - rewrite IH. tauto.
Qed.

Lemma seg_end_le (m : mem) (l : list block) :
  forall a pa, seg m a pa l -> a <= end_of a l.
Proof.
  induction l as [| [[b sz] al] r IH]; intros a pa H; simpl in *; [lia |].
  destruct H as (_ & Hsz & _ & _ & _ & Hr). apply IH in Hr. lia.
Qed.

(** Where a block of a segment lies. *)
Lemma seg_In (m : mem) (l : list block) :
  forall a pa b sz al,
    seg m a pa l -> In (b, sz, al) l ->
    a <= b /\ b + sz <= end_of a l /\ 64 <= sz /\ sz mod 16 = 0 /\
    (b - a) mod 16 = 0.
Proof.
  induction l as [| [[b0 sz0] al0] r IH]; intros a pa b sz al H Hin;
    simpl in *; [contradiction |].
  destruct H as (-> & Hsz & Hmod & _ & _ & Hr).
  destruct Hin as [Heq | Hin].
  - inversion Heq; subst. apply seg_end_le in Hr.
    rewrite Z.sub_diag. repeat split; solve [lia | reflexivity].
  - destruct (IH _ _ _ _ _ Hr Hin) as (H1 & H2 & H3 & H4 & H5).
    repeat split; try lia.
    replace (b - a) with ((b - (a + sz0)) + sz0) by lia.
    rewrite Z.add_mod, H5, Hmod by lia. reflexivity.
Qed.

(** Two blocks of a segment are the same block or do not overlap. *)
Lemma seg_disjoint (m : mem) (l : list block) :
  forall a pa b1 sz1 al1 b2 sz2 al2,
    seg m a pa l -> In (b1, sz1, al1) l -> In (b2, sz2, al2) l ->
    (b1, sz1, al1) = (b2, sz2, al2) \/ b1 + sz1 <= b2 \/ b2 + sz2 <= b1.
Proof.
  induction l as [| [[b0 sz0] al0] r IH];
    intros a pa b1 sz1 al1 b2 sz2 al2 H H1 H2; simpl in *; [contradiction |].
  destruct H as (-> & Hsz & Hmod & _ & _ & Hr).
  destruct H1 as [E1 | H1], H2 as [E2 | H2].
  - left. congruence.
  - inversion E1; subst. apply (seg_In _ _ _ _ _ _ _ Hr) in H2. lia.
  - inversion E2; subst. apply (seg_In _ _ _ _ _ _ _ Hr) in H1. lia.
  - eapply IH; eauto.
Qed.

(** An address is the address of at most one block. *)
Lemma seg_functional (m : mem) (l : list block) a pa b sz1 al1 sz2 al2 :
  seg m a pa l -> In (b, sz1, al1) l -> In (b, sz2, al2) l ->
  sz1 = sz2 /\ al1 = al2.
Proof.
  intros H H1 H2.
  destruct (seg_disjoint _ _ _ _ _ _ _ _ _ _ H H1 H2) as [E | Hd].
  - inversion E. auto.
  - apply (seg_In _ _ _ _ _ _ _ H) in H1.
    apply (seg_In _ _ _ _ _ _ _ H) in H2. lia.
Qed.

(** The frame rule of segments: a store that reads the same at every
    header, and at the footer of every free block, holds the same blocks. *)
Lemma seg_agree (m m' : mem) (l : list block) :
  forall a pa,
    seg m a pa l ->
    (forall b sz al, In (b, sz, al) l ->
       GET m' (b - 8) = GET m (b - 8) /\
       (al = false -> GET m' (b + sz - 16) = GET m (b + sz - 16))) ->
    seg m' a pa l.
Proof.
  induction l as [| [[b0 sz0] al0] r IH]; intros a pa H Hag; simpl in *;
    [exact I |].
  destruct H as (-> & Hsz & Hmod & Hh & Hf & Hr).
  destruct (Hag a sz0 al0 (or_introl eq_refl)) as [E1 E2].
  repeat split; try assumption.
  - rewrite E1. exact Hh.
  - intros Hal. rewrite E2 by exact Hal. apply Hf. exact Hal.
  - apply IH; [exact Hr |]. intros b sz al Hin. apply Hag. right. exact Hin.
Qed.

(** A segment whose last block is free while the block before the segment
    is allocated ends with a free block. *)
Lemma last_al_false_inv (l : list block) :
  forall pa, last_al pa l = false ->
    (l = [] /\ pa = false) \/
    exists l' b sz, l = l' ++ [(b, sz, false)].
Proof.
  induction l as [| [[b sz] al] r IH]; intros pa H; simpl in *.
  - left. auto.
  - right. destruct (IH al H) as [[-> ->] | (l' & b' & sz' & ->)].
    + exists [], b, sz. reflexivity.
    + exists ((b, sz, al) :: l'), b', sz'. reflexivity.
Qed.

Lemma last_al_snoc (l : list block) b sz al pa :
  last_al pa (l ++ [(b, sz, al)]) = al.
Proof. rewrite last_al_app. reflexivity. Qed.

Lemma end_of_snoc (l : list block) a b sz al :
  end_of a (l ++ [(b, sz, al)]) = end_of a l + sz.
Proof. rewrite end_of_app. reflexivity. Qed.

(** ** The free lists *)

Lemma lastd_app (l1 l2 : list Z) :
  forall d, lastd d (l1 ++ l2) = lastd (lastd d l1) l2.
Proof. induction l1 as [| x r IH]; intros d; simpl; [reflexivity | apply IH]. Qed.

Lemma hd0_app (l1 l2 : list Z) (d : Z) :
  hd0 (l1 ++ l2) d = hd0 l1 (hd0 l2 d).
Proof. destruct l1; reflexivity. Qed.

Lemma asc_app (l1 l2 : list Z) :
  forall lo, asc lo (l1 ++ l2) <-> asc lo l1 /\ asc (lastd lo l1) l2.
Proof.
  induction l1 as [| x r IH]; intros lo; simpl.
  - tauto.
  - rewrite IH. tauto.
Qed.

Lemma asc_In (l : list Z) : forall lo x, asc lo l -> In x l -> lo < x.
Proof.
  induction l as [| y r IH]; intros lo x H Hin; simpl in *; [contradiction |].
  destruct H as [Hlo Hr]. destruct Hin as [-> | Hin]; [exact Hlo |].
  specialize (IH _ _ Hr Hin). lia.
Qed.

Lemma asc_lastd (l : list Z) :
  forall lo, asc lo l ->
    lo <= lastd lo l /\ (forall x, In x l -> x <= lastd lo l) /\
    (l <> [] -> In (lastd lo l) l).
Proof.
  induction l as [| y r IH]; intros lo H; simpl in *.
  - repeat split; [lia | contradiction | congruence].
  - destruct H as [Hlo Hr]. destruct (IH _ Hr) as (H1 & H2 & H3).
    repeat split.
    + lia.
    + intros x [-> | Hin]; [exact H1 | apply H2; exact Hin].
    + intros _. destruct r as [| z r']; [left; reflexivity |].
      right. apply H3. discriminate.
Qed.

(** In an ascending list, what is left of a node is smaller and what is
    right of it is larger. *)
Lemma asc_split (l1 l2 : list Z) (x lo : Z) :
  asc lo (l1 ++ x :: l2) ->
  (forall y, In y l1 -> lo < y < x) /\ (forall y, In y l2 -> x < y) /\ lo < x.
Proof.
  intros H. apply asc_app in H. destruct H as [H1 H2].
  simpl in H2. destruct H2 as [Hx H2].
  destruct (asc_lastd _ _ H1) as (Ha & Hb & _).
  split; [| split].
  - intros y Hy. split; [eapply asc_In; eauto |].
    specialize (Hb y Hy). lia.
  - intros y Hy. eapply asc_In; eauto.
  - lia.
Qed.

Lemma asc_length (l : list Z) :
  forall lo hi, asc lo l -> (forall x, In x l -> x <= hi) ->
    Z.of_nat (length l) <= Z.max 0 (hi - lo).
Proof.
  induction l as [| x r IH]; intros lo hi H Hhi.
  - simpl. lia.
  - destruct H as [Hlo Hr].
    assert (x <= hi) by (apply Hhi; left; reflexivity).
    assert (Z.of_nat (length r) <= Z.max 0 (hi - x)).
    { apply IH; [exact Hr |]. intros y Hy. apply Hhi. right. exact Hy. }
    cbn [length]. lia.
Qed.

Lemma dlseg_app (m : mem) (l1 l2 : list Z) (nxt : Z) :
  forall prev,
    dlseg m prev (l1 ++ l2) nxt <->
    dlseg m prev l1 (hd0 l2 nxt) /\ dlseg m (lastd prev l1) l2 nxt.
Proof.
  induction l1 as [| x r IH]; intros prev.
  - simpl. tauto.
  - change ((x :: r) ++ l2) with (x :: (r ++ l2)).
    cbn [dlseg lastd]. rewrite IH, hd0_app. tauto.
Qed.

(** The frame rule of list segments. *)
Lemma dlseg_agree (m m' : mem) (l : list Z) (nxt : Z) :
  forall prev,
    dlseg m prev l nxt ->
    (forall x, In x l -> GET m' x = GET m x /\ GET m' (x + 8) = GET m (x + 8)) ->
    dlseg m' prev l nxt.
Proof.
  induction l as [| x r IH]; intros prev H Hag; [exact I |].
  destruct H as (H1 & H2 & H3).
  destruct (Hag x (or_introl eq_refl)) as [E1 E2].
  cbn [dlseg]. rewrite E1, E2. repeat split; try assumption.
  apply IH; [exact H3 |]. intros z Hz. apply Hag. right. exact Hz.
Qed.

(** Changing where the last node points to. *)
Lemma dlseg_set_nxt (m m' : mem) (l : list Z) (nxt nxt' : Z) :
  forall prev lo,
    asc lo l ->
    dlseg m prev l nxt ->
    (forall x, In x l -> GET m' (x + 8) = GET m (x + 8)) ->
    (forall x, In x l -> x < lastd lo l -> GET m' x = GET m x) ->
    (l <> [] -> GET m' (lastd lo l) = nxt') ->
    dlseg m' prev l nxt'.
Proof.
  induction l as [| x r IH]; intros prev lo Hasc H Hp Hn Hl; [exact I |].
  destruct H as (H1 & H2 & H3). destruct Hasc as [Hlo Hasc].
  cbn [dlseg lastd] in *.
  rewrite Hp by (left; reflexivity).
  split; [exact H1 |]. split.
  - destruct r as [| y r'].
    + simpl in *. apply Hl. discriminate.
    + destruct (asc_lastd _ _ Hasc) as (_ & Hb & _).
      assert (y <= lastd x (y :: r')) by (apply Hb; left; reflexivity).
      destruct Hasc as [Hxy _].
      rewrite Hn; [exact H2 | left; reflexivity | lia].
  - destruct r as [| y r']; [exact I |].
    apply (IH x x); auto.
    + intros z Hz. apply Hp. right. exact Hz.
    + intros z Hz. apply Hn. right. exact Hz.
    + intros _. apply Hl. discriminate.
Qed.

(** Changing where the first node points back to. *)
Lemma dlseg_set_prev (m m' : mem) (l : list Z) (nxt prev prev' lo : Z) :
  asc lo l ->
  dlseg m prev l nxt ->
  (forall x, In x l -> GET m' x = GET m x) ->
  (forall x, In x l -> hd0 l 0 < x -> GET m' (x + 8) = GET m (x + 8)) ->
  (l <> [] -> GET m' (hd0 l 0 + 8) = prev') ->
  dlseg m' prev' l nxt.
Proof.
  destruct l as [| x r]; intros Hasc H Hn Hp Hh; [exact I |].
  destruct H as (H1 & H2 & H3). destruct Hasc as [Hlo Hasc].
  cbn [dlseg hd0] in *.
  rewrite (Hn x) by (left; reflexivity).
  split; [apply Hh; discriminate |]. split; [exact H2 |].
  apply dlseg_agree with (m := m); [exact H3 |].
  intros z Hz. split.
  - apply Hn. right. exact Hz.
  - apply Hp; [right; exact Hz |]. eapply asc_In; eauto.
Qed.

(** ** The registry of free lists *)

Lemma reg_agree (m m' : mem) (fs : Z) (F : Z -> Z -> Prop) :
  reg m fs F -> (forall x, lnk F fs x -> m' x = m x) -> reg m' fs F.
Proof.
  intros [Hb Hc Hu Hs Ha Hf] Hag.
  split; try assumption.
  intros k Hk. destruct (Hb k Hk) as (l & H1 & H2 & H3 & H4).
  exists l. split; [exact H1 |]. split; [| split; [| exact H4]].
  - rewrite <- H2. apply GET_ext. intros x Hx. apply Hag. left. lia.
  - apply dlseg_agree with (m := m); [exact H3 |].
    intros x Hx. apply H4 in Hx.
    split; apply GET_ext; intros y Hy; apply Hag; right; exists x, k;
      (split; [exact Hx | lia]).
Qed.

(** Taking a node out of a list. *)
Lemma splice_out (m m' : mem) (la lb : list Z) (ptr : Z) :
  asc 0 (la ++ ptr :: lb) ->
  dlseg m 0 (la ++ ptr :: lb) 0 ->
  (forall x, In x la -> GET m' (x + 8) = GET m (x + 8)) ->
  (forall x, In x la -> x < lastd 0 la -> GET m' x = GET m x) ->
  (la <> [] -> GET m' (lastd 0 la) = hd0 lb 0) ->
  (forall x, In x lb -> GET m' x = GET m x) ->
  (forall x, In x lb -> hd0 lb 0 < x -> GET m' (x + 8) = GET m (x + 8)) ->
  (lb <> [] -> GET m' (hd0 lb 0 + 8) = lastd 0 la) ->
  asc 0 (la ++ lb) /\ dlseg m' 0 (la ++ lb) 0.
Proof.
  intros Hasc Hdl Ha1 Ha2 Ha3 Hb1 Hb2 Hb3.
  apply asc_app in Hasc. destruct Hasc as [Hasc1 [Hlt Hasc2]].
  apply dlseg_app in Hdl. destruct Hdl as [Hd1 (Hp & Hn & Hd2)].
  split.
  - apply asc_app. split; [exact Hasc1 |].
    destruct lb as [| y r]; [exact I |]. simpl in *. split; [lia | tauto].
  - apply dlseg_app. split.
    + eapply dlseg_set_nxt; eauto.
    + eapply dlseg_set_prev with (lo := ptr); eauto.
Qed.

(** Putting a node into a list. *)
Lemma splice_in (m m' : mem) (la lb : list Z) (ptr : Z) :
  asc 0 (la ++ lb) ->
  dlseg m 0 (la ++ lb) 0 ->
  lastd 0 la < ptr -> (lb <> [] -> ptr < hd0 lb 0) ->
  GET m' ptr = hd0 lb 0 ->
  GET m' (ptr + 8) = lastd 0 la ->
  (forall x, In x la -> GET m' (x + 8) = GET m (x + 8)) ->
  (forall x, In x la -> x < lastd 0 la -> GET m' x = GET m x) ->
  (la <> [] -> GET m' (lastd 0 la) = ptr) ->
  (forall x, In x lb -> GET m' x = GET m x) ->
  (forall x, In x lb -> hd0 lb 0 < x -> GET m' (x + 8) = GET m (x + 8)) ->
  (lb <> [] -> GET m' (hd0 lb 0 + 8) = ptr) ->
  asc 0 (la ++ ptr :: lb) /\ dlseg m' 0 (la ++ ptr :: lb) 0.
Proof.
  intros Hasc Hdl Hlt Hgt Hn Hp Ha1 Ha2 Ha3 Hb1 Hb2 Hb3.
  apply asc_app in Hasc. destruct Hasc as [Hasc1 Hasc2].
  apply dlseg_app in Hdl. destruct Hdl as [Hd1 Hd2].
  split.
  - apply asc_app. split; [exact Hasc1 |]. simpl. split; [exact Hlt |].
    destruct lb as [| y r]; [exact I |]. simpl in *.
    split; [apply Hgt; discriminate | tauto].
  - apply dlseg_app. split; [| cbn [dlseg]; repeat split].
    + eapply dlseg_set_nxt; eauto.
    + exact Hp.
    + exact Hn.
    + eapply dlseg_set_prev with (lo := lastd 0 la); eauto.
Qed.

Ltac gp :=
  repeat first
    [ rewrite GET_PUT_same by (unfold SIZE_MOD in *; lia)
    | rewrite GET_PUT_other by lia
    | rewrite PUT_outside by lia ].

Lemma lastd_pos (l : list Z) : asc 0 l -> l <> [] -> 0 < lastd 0 l /\ In (lastd 0 l) l.
Proof.
  intros H Hne. destruct (asc_lastd _ _ H) as (_ & _ & Hin).
  specialize (Hin Hne). split; [eapply asc_In; eauto | exact Hin].
Qed.

Lemma hd0_In (l : list Z) (d : Z) : l <> [] -> In (hd0 l d) l.
Proof. destruct l; [congruence | left; reflexivity]. Qed.

Lemma remove_block_spec (s : state) (ptr k : Z) (F : Z -> Z -> Prop) :
  reg (heap s) (free_start s) F ->
  F ptr k ->
  get_list (GET_SIZE (heap s) (HDRP ptr)) = k ->
  remove_block s ptr = with_heap s (heap (remove_block s ptr)) /\
  reg (heap (remove_block s ptr)) (free_start s)
      (fun b k' => F b k' /\ b <> ptr) /\
  (forall x, ~ lnk F (free_start s) x -> heap (remove_block s ptr) x = heap s x).
Proof.
  intros Hreg HF Hk.
  split; [reflexivity |].
  pose proof Hreg as [Hb Hc Hu Hs Ha Hfs].
  pose proof (Hc _ _ HF) as Hkr.
  destruct (Hb k Hkr) as (l & Hasc & Hroot & Hdl & Hmem).
  assert (Hin : In ptr l) by (apply Hmem; exact HF).
  destruct (in_split _ _ Hin) as (la & lb & ->).
  destruct (asc_split _ _ _ _ Hasc) as (Hla & Hlb & Hptr).
  pose proof Hdl as Hdl0.
  apply dlseg_app in Hdl0. destruct Hdl0 as [Hd1 (Hp & Hn & Hd2)].
  set (m := heap s) in *. set (fs := free_start s) in *.
  set (p := lastd 0 la) in *. set (n := hd0 lb 0) in *.
  assert (Hpa : la <> [] -> F p k /\ 0 < p < ptr).
  { intros Hne. apply asc_app in Hasc. destruct Hasc as [Hasc1 _].
    destruct (lastd_pos la Hasc1 Hne) as [Hpos Hin'].
    split; [apply Hmem; apply in_or_app; left; exact Hin' |].
    specialize (Hla _ Hin'). lia. }
  assert (Hnb : lb <> [] -> F n k /\ ptr < n).
  { intros Hne. pose proof (hd0_In lb 0 Hne) as Hin'.
    split; [apply Hmem; apply in_or_app; right; right; exact Hin' |].
    apply Hlb. exact Hin'. }
  assert (Hp0 : la = [] -> p = 0) by (intros ->; reflexivity).
  assert (Hn0 : lb = [] -> n = 0) by (intros ->; reflexivity).
  set (m' := heap (remove_block s ptr)).
  assert (Hm' :
    m' = PUT (PUT
          (if (p =? 0) && (n =? 0) then PUT m (fs + k * 8) 0
           else if n =? 0 then PUT m p 0
           else if p =? 0 then PUT (PUT m (fs + k * 8) n) (n + 8) 0
           else PUT (PUT m (n + 8) p) p n) (ptr + 8) 0) ptr 0).
  { unfold m', remove_block. cbn [heap with_heap].
    unfold PREV_FLIST_ADDRESS, NEXT_FLIST_ADDRESS, PREV_ADDRESS, NEXT_ADDRESS,
      SET_ROOT, NULL, WSIZE.
    fold m fs. rewrite Hk, Hp, Hn. reflexivity. }
  clearbody m'.
  pose proof (Ha _ _ HF) as Haptr.
  assert (Hsep_p : la <> [] -> p + 16 <= ptr).
  { intros Hne. destruct (Hpa Hne) as [HFp Hlt].
    destruct (Hs _ _ _ _ HFp HF) as [E | [E | E]]; lia. }
  assert (Hsep_n : lb <> [] -> ptr + 16 <= n).
  { intros Hne. destruct (Hnb Hne) as [HFn Hlt].
    destruct (Hs _ _ _ _ HF HFn) as [E | [E | E]]; lia. }
  assert (Hbytes : forall x,
    (x < ptr \/ ptr + 16 <= x) ->
    (la = [] -> x < fs + k * 8 \/ fs + k * 8 + 8 <= x) ->
    (la <> [] -> x < p \/ p + 8 <= x) ->
    (lb <> [] -> x < n + 8 \/ n + 16 <= x) ->
    m' x = m x).
  { intros x Hx1 Hx2 Hx3 Hx4. subst m'.
    destruct la as [| a0 la'], lb as [| b0 lb'].
    - rewrite Hp0, Hn0 by reflexivity. simpl.
      specialize (Hx2 eq_refl). gp. reflexivity.
    - rewrite Hp0 by reflexivity.
      assert (ptr < n) by (apply Hnb; discriminate).
      destruct (Z.eqb_spec n 0); [lia |]. simpl.
      specialize (Hx2 eq_refl). specialize (Hx4 ltac:(discriminate)).
      gp. reflexivity.
    - rewrite Hn0 by reflexivity.
      assert (0 < p < ptr) by (apply Hpa; discriminate).
      destruct (Z.eqb_spec p 0); [lia |]. simpl.
      specialize (Hx3 ltac:(discriminate)). gp. reflexivity.
    - assert (0 < p < ptr) by (apply Hpa; discriminate).
      assert (ptr < n) by (apply Hnb; discriminate).
      destruct (Z.eqb_spec p 0); [lia |].
      destruct (Z.eqb_spec n 0); [lia |]. simpl.
      specialize (Hx3 ltac:(discriminate)). specialize (Hx4 ltac:(discriminate)).
      gp. reflexivity. }
  assert (Hfar : forall c,
    (c + 8 <= ptr \/ ptr + 16 <= c) ->
    (la = [] -> c + 8 <= fs + k * 8 \/ fs + k * 8 + 8 <= c) ->
    (la <> [] -> c + 8 <= p \/ p + 8 <= c) ->
    (lb <> [] -> c + 8 <= n + 8 \/ n + 16 <= c) ->
    GET m' c = GET m c).
  { intros c H1 H2 H3 H4. apply GET_ext. intros x Hx.
    apply Hbytes; intros; try specialize (H2 ltac:(assumption));
      try specialize (H3 ltac:(assumption));
      try specialize (H4 ltac:(assumption)); lia. }
  assert (HB : la <> [] -> GET m' p = n).
  { intros Hne. pose proof (Hpa Hne) as [HFp Hpr].
    pose proof (Hsep_p Hne). pose proof (Ha _ _ HFp).
    subst m'. destruct (Z.eqb_spec p 0); [lia |]. simpl.
    destruct (list_eq_dec Z.eq_dec lb []) as [E | NE].
    - rewrite (Hn0 E). simpl. gp. reflexivity.
    - pose proof (Hnb NE) as [HFn Hnr]. pose proof (Hsep_n NE).
      pose proof (Ha _ _ HFn).
      destruct (Z.eqb_spec n 0); [lia |]. gp. reflexivity. }
  assert (HC : la = [] -> GET m' (fs + k * 8) = n).
  { intros E. subst m'. rewrite (Hp0 E). simpl.
    destruct (list_eq_dec Z.eq_dec lb []) as [E' | NE].
    - rewrite (Hn0 E'). simpl. gp. reflexivity.
    - pose proof (Hnb NE) as [HFn Hnr]. pose proof (Hsep_n NE).
      pose proof (Ha _ _ HFn).
      destruct (Z.eqb_spec n 0); [lia |]. gp. reflexivity. }
  assert (HD : lb <> [] -> GET m' (n + 8) = p).
  { intros NE. pose proof (Hnb NE) as [HFn Hnr]. pose proof (Hsep_n NE).
    pose proof (Ha _ _ HFn). subst m'.
    destruct (Z.eqb_spec n 0); [lia |]. rewrite andb_false_r.
    destruct (list_eq_dec Z.eq_dec la []) as [E | NE'].
    - rewrite (Hp0 E). simpl. gp. reflexivity.
    - pose proof (Hpa NE') as [HFp Hpr]. pose proof (Hsep_p NE').
      pose proof (Ha _ _ HFp).
      destruct (Z.eqb_spec p 0); [lia |]. gp. reflexivity. }
  clear Hm'.
  assert (Hcell : forall x k', F x k' -> x <> ptr ->
            fs + 128 <= x /\ (x + 16 <= ptr \/ ptr + 16 <= x) /\
            (la <> [] -> x = p \/ x + 16 <= p \/ p + 16 <= x) /\
            (lb <> [] -> x = n \/ x + 16 <= n \/ n + 16 <= x)).
  { intros x k' HFx Hne. pose proof (Ha _ _ HFx).
    split; [lia |]. split; [| split].
    - destruct (Hs _ _ _ _ HFx HF) as [E | E]; [congruence | exact E].
    - intros NE. destruct (Hpa NE) as [HFp _]. eapply Hs; eauto.
    - intros NE. destruct (Hnb NE) as [HFn _]. eapply Hs; eauto. }
  assert (Hroots : forall k', 0 <= k' < 16 -> (la = [] -> k' <> k) ->
            GET m' (fs + k' * 8) = GET m (fs + k' * 8)).
  { intros k' Hk' Hne. apply Hfar; intros; try lia.
    - specialize (Hne H). lia.
    - destruct (Hpa H) as [HFp _]. pose proof (Ha _ _ HFp). lia.
    - destruct (Hnb H) as [HFn _]. pose proof (Ha _ _ HFn). lia. }
  assert (HgetN : forall x k', F x k' -> x <> ptr -> (la <> [] -> x <> p) ->
            GET m' x = GET m x).
  { intros x k' HFx Hne Hnp.
    destruct (Hcell _ _ HFx Hne) as (C1 & C2 & C3 & C4).
    apply Hfar; intros; try lia.
    - specialize (C3 H). specialize (Hnp H). lia.
    - specialize (C4 H). lia. }
  assert (HgetP : forall x k', F x k' -> x <> ptr -> (lb <> [] -> x <> n) ->
            GET m' (x + 8) = GET m (x + 8)).
  { intros x k' HFx Hne Hnn.
    destruct (Hcell _ _ HFx Hne) as (C1 & C2 & C3 & C4).
    apply Hfar; intros; try lia.
    - specialize (C3 H). lia.
    - specialize (C4 H). specialize (Hnn H). lia. }
  assert (Hmema : forall x, In x la -> F x k /\ x < ptr).
  { intros x Hx. split; [apply Hmem; apply in_or_app; left; exact Hx |].
    apply Hla in Hx. lia. }
  assert (Hmemb : forall x, In x lb -> F x k /\ ptr < x).
  { intros x Hx. split; [apply Hmem; apply in_or_app; right; right; exact Hx |].
    apply Hlb in Hx. lia. }
  split.
  - (* the registry without ptr *)
    split.
    + intros k' Hk'. destruct (Z.eq_dec k' k) as [-> | Hne].
      * exists (la ++ lb).
        destruct (splice_out m m' la lb ptr Hasc Hdl) as [R1 R2].
        -- intros x Hx. destruct (Hmema x Hx) as [HFx Hlt].
           apply (HgetP x k HFx); [lia |].
           intros NE. destruct (Hnb NE). lia.
        -- intros x Hx Hlt'. destruct (Hmema x Hx) as [HFx Hlt].
           apply (HgetN x k HFx); [lia |]. intros _. fold p in Hlt'. lia.
        -- exact HB.
        -- intros x Hx. destruct (Hmemb x Hx) as [HFx Hlt].
           apply (HgetN x k HFx); [lia |].
           intros NE. destruct (Hpa NE). lia.
        -- intros x Hx Hlt'. destruct (Hmemb x Hx) as [HFx Hlt].
           apply (HgetP x k HFx); [lia |]. intros _. fold n in Hlt'. lia.
        -- exact HD.
        -- split; [exact R1 |]. split; [| split; [exact R2 |]].
           ++ rewrite hd0_app. fold n.
              destruct (list_eq_dec Z.eq_dec la []) as [E | NE].
              ** rewrite E. simpl. apply HC. exact E.
              ** assert (E : hd0 la n = hd0 (la ++ ptr :: lb) 0).
                 { destruct la; [congruence | reflexivity]. }
                 rewrite E, <- Hroot. apply Hroots; [lia | congruence].
           ++ intros b. rewrite in_app_iff. split.
              ** intros [Hb' | Hb'].
                 --- destruct (Hmema b Hb'). split; [assumption | lia].
                 --- destruct (Hmemb b Hb'). split; [assumption | lia].
              ** intros [HFb Hne]. apply Hmem in HFb.
                 apply in_app_or in HFb. simpl in HFb.
                 destruct HFb as [? | [? | ?]];
                   [left; assumption | congruence | right; assumption].
      * destruct (Hb k' Hk') as (l' & Hasc' & Hroot' & Hdl' & Hmem').
        exists l'.
        assert (Hdiff : forall x, In x l' ->
                  F x k' /\ x <> ptr /\ (la <> [] -> x <> p) /\ (lb <> [] -> x <> n)).
        { intros x Hx. apply Hmem' in Hx. split; [exact Hx |].
          split; [| split].
          - intros ->. apply Hne. eapply Hu; eauto.
          - intros NE ->. destruct (Hpa NE) as [HFp _]. apply Hne. eapply Hu; eauto.
          - intros NE ->. destruct (Hnb NE) as [HFn _]. apply Hne. eapply Hu; eauto. }
        split; [exact Hasc' |]. split; [| split].
        -- rewrite <- Hroot'. apply Hroots; [exact Hk' | intros _; exact Hne].
        -- eapply dlseg_agree; eauto.
           intros x Hx. destruct (Hdiff x Hx) as (D1 & D2 & D3 & D4).
           split; [eapply HgetN | eapply HgetP]; eauto.
        -- intros b. rewrite Hmem'. split; [| intros [HFb _]; exact HFb].
           intros HFb. split; [exact HFb |]. intros ->. apply Hne.
           eapply Hu; eauto.
    + intros b k' [HFb _]. eauto.
    + intros b k1 k2 [H1 _] [H2 _]. eauto.
    + intros b k1 b' k2 [H1 _] [H2 _]. eauto.
    + intros b k' [HFb _]. eauto.
    + exact Hfs.
  - (* nothing else was written *)
    intros x Hx. apply Hbytes.
    + destruct (Z.lt_ge_cases x ptr); [left; assumption |].
      destruct (Z.lt_ge_cases x (ptr + 16)); [| right; assumption].
      exfalso. apply Hx. right. exists ptr, k. split; [exact HF | lia].
    + intros _.
      destruct (Z.lt_ge_cases x (fs + k * 8)); [left; assumption |].
      destruct (Z.lt_ge_cases x (fs + k * 8 + 8)); [| right; assumption].
      exfalso. apply Hx. left. lia.
    + intros NE. pose proof (Hpa NE) as [HFp _].
      destruct (Z.lt_ge_cases x p); [left; assumption |].
      destruct (Z.lt_ge_cases x (p + 8)); [| right; assumption].
      exfalso. apply Hx. right. exists p, k. split; [exact HFp | lia].
    + intros NE. pose proof (Hnb NE) as [HFn _].
      destruct (Z.lt_ge_cases x (n + 8)); [left; assumption |].
      destruct (Z.lt_ge_cases x (n + 16)); [| right; assumption].
      exfalso. apply Hx. right. exists n, k. split; [exact HFn | lia].
Qed.

(** What every path of add_block comes to: [ptr] is linked between the
    nodes [la] below it and the nodes [lb] above it. *)
Lemma add_finish (m m' : mem) (fs ptr k : Z) (F : Z -> Z -> Prop)
      (la lb : list Z) :
  reg m fs F ->
  bucket m fs F k (la ++ lb) ->
  0 <= k < 16 ->
  (forall x, In x la -> x < ptr) ->
  (forall x, In x lb -> ptr < x) ->
  (forall k', ~ F ptr k') ->
  (forall b k', F b k' -> b + 16 <= ptr \/ ptr + 16 <= b) ->
  fs + 128 <= ptr < SIZE_MOD ->
  (forall x,
     (x < ptr \/ ptr + 16 <= x) ->
     (la = [] -> x < fs + k * 8 \/ fs + k * 8 + 8 <= x) ->
     (la <> [] -> x < lastd 0 la \/ lastd 0 la + 8 <= x) ->
     (lb <> [] -> x < hd0 lb 0 + 8 \/ hd0 lb 0 + 16 <= x) ->
     m' x = m x) ->
  GET m' ptr = hd0 lb 0 ->
  GET m' (ptr + 8) = lastd 0 la ->
  (la <> [] -> GET m' (lastd 0 la) = ptr) ->
  (la = [] -> GET m' (fs + k * 8) = ptr) ->
  (lb <> [] -> GET m' (hd0 lb 0 + 8) = ptr) ->
  reg m' fs (fun b k' => F b k' \/ (b = ptr /\ k' = k)) /\
  (forall x, ~ lnk (fun b k' => F b k' \/ (b = ptr /\ k' = k)) fs x ->
             m' x = m x).
Proof.
  intros Hreg Hbk Hkr Hla Hlb HnF Hsepp Hptr Hbytes HN HP HB HC HD.
  pose proof Hreg as [Hb Hc Hu Hs Ha Hfs].
  destruct Hbk as (Hasc & Hroot & Hdl & Hmem).
  set (p := lastd 0 la) in *. set (n := hd0 lb 0) in *.
  assert (Hasc1 : asc 0 la) by (apply asc_app in Hasc; tauto).
  assert (Hpa : la <> [] -> F p k /\ 0 < p < ptr /\ In p la).
  { intros Hne. destruct (lastd_pos la Hasc1 Hne) as [Hpos Hin'].
    split; [apply Hmem; apply in_or_app; left; exact Hin' |].
    specialize (Hla _ Hin'). split; [lia | exact Hin']. }
  assert (Hnb : lb <> [] -> F n k /\ ptr < n /\ In n lb).
  { intros Hne. pose proof (hd0_In lb 0 Hne) as Hin'.
    split; [apply Hmem; apply in_or_app; right; exact Hin' |].
    split; [apply Hlb; exact Hin' | exact Hin']. }
  assert (Hfar : forall c,
    (c + 8 <= ptr \/ ptr + 16 <= c) ->
    (la = [] -> c + 8 <= fs + k * 8 \/ fs + k * 8 + 8 <= c) ->
    (la <> [] -> c + 8 <= p \/ p + 8 <= c) ->
    (lb <> [] -> c + 8 <= n + 8 \/ n + 16 <= c) ->
    GET m' c = GET m c).
  { intros c H1 H2 H3 H4. apply GET_ext. intros x Hx.
    apply Hbytes; intros; try specialize (H2 ltac:(assumption));
      try specialize (H3 ltac:(assumption));
      try specialize (H4 ltac:(assumption)); lia. }
  assert (Hcell : forall x k', F x k' ->
            fs + 128 <= x /\ (x + 16 <= ptr \/ ptr + 16 <= x) /\
            (la <> [] -> x = p \/ x + 16 <= p \/ p + 16 <= x) /\
            (lb <> [] -> x = n \/ x + 16 <= n \/ n + 16 <= x)).
  { intros x k' HFx. pose proof (Ha _ _ HFx).
    split; [lia |]. split; [eauto | split].
    - intros NE. destruct (Hpa NE) as [HFp _]. eapply Hs; eauto.
    - intros NE. destruct (Hnb NE) as [HFn _]. eapply Hs; eauto. }
  assert (Hroots : forall k', 0 <= k' < 16 -> (la = [] -> k' <> k) ->
            GET m' (fs + k' * 8) = GET m (fs + k' * 8)).
  { intros k' Hk' Hne. apply Hfar; intros; try lia.
    - specialize (Hne H). lia.
    - destruct (Hpa H) as [HFp _]. pose proof (Ha _ _ HFp). lia.
    - destruct (Hnb H) as [HFn _]. pose proof (Ha _ _ HFn). lia. }
  assert (HgetN : forall x k', F x k' -> (la <> [] -> x <> p) ->
            GET m' x = GET m x).
  { intros x k' HFx Hnp.
    destruct (Hcell _ _ HFx) as (C1 & C2 & C3 & C4).
    apply Hfar; intros; try lia.
    - specialize (C3 H). specialize (Hnp H). lia.
    - specialize (C4 H). lia. }
  assert (HgetP : forall x k', F x k' -> (lb <> [] -> x <> n) ->
            GET m' (x + 8) = GET m (x + 8)).
  { intros x k' HFx Hnn.
    destruct (Hcell _ _ HFx) as (C1 & C2 & C3 & C4).
    apply Hfar; intros; try lia.
    - specialize (C3 H). lia.
    - specialize (C4 H). specialize (Hnn H). lia. }
  assert (Hmema : forall x, In x la -> F x k /\ x < ptr).
  { intros x Hx. split; [apply Hmem; apply in_or_app; left; exact Hx |].
    apply Hla in Hx. lia. }
  assert (Hmemb : forall x, In x lb -> F x k /\ ptr < x).
  { intros x Hx. split; [apply Hmem; apply in_or_app; right; exact Hx |].
    apply Hlb in Hx. lia. }
  split.
  - split.
    + intros k' Hk'. destruct (Z.eq_dec k' k) as [-> | Hne].
      * exists (la ++ ptr :: lb).
        destruct (splice_in m m' la lb ptr Hasc Hdl) as [R1 R2].
        -- fold p. destruct (list_eq_dec Z.eq_dec la []) as [E | NE].
           ++ unfold p. rewrite E. simpl. lia.
           ++ destruct (Hpa NE). lia.
        -- intros NE. destruct (Hnb NE). fold n. lia.
        -- exact HN.
        -- exact HP.
        -- intros x Hx. destruct (Hmema x Hx) as [HFx Hlt].
           apply (HgetP x k HFx).
           intros NE. destruct (Hnb NE). lia.
        -- intros x Hx Hlt'. destruct (Hmema x Hx) as [HFx Hlt].
           apply (HgetN x k HFx). intros _. fold p in Hlt'. lia.
        -- exact HB.
        -- intros x Hx. destruct (Hmemb x Hx) as [HFx Hlt].
           apply (HgetN x k HFx).
           intros NE. destruct (Hpa NE). lia.
        -- intros x Hx Hlt'. destruct (Hmemb x Hx) as [HFx Hlt].
           apply (HgetP x k HFx). intros _. fold n in Hlt'. lia.
        -- exact HD.
        -- split; [exact R1 |]. split; [| split; [exact R2 |]].
           ++ rewrite hd0_app. cbn [hd0].
              destruct (list_eq_dec Z.eq_dec la []) as [E | NE].
              ** rewrite E. simpl. apply HC. exact E.
              ** assert (E : hd0 la ptr = hd0 (la ++ lb) 0).
                 { destruct la; [congruence | reflexivity]. }
                 rewrite E, <- Hroot. apply Hroots; [lia | congruence].
           ++ intros b. rewrite in_app_iff. cbn [In]. split.
              ** intros [Hb' | [Hb' | Hb']].
                 --- left. apply Hmema. exact Hb'.
                 --- right. auto.
                 --- left. apply Hmemb. exact Hb'.
              ** intros [HFb | [-> _]]; [| right; left; reflexivity].
                 apply Hmem in HFb. apply in_app_or in HFb.
                 destruct HFb; [left | right; right]; assumption.
      * destruct (Hb k' Hk') as (l' & Hasc' & Hroot' & Hdl' & Hmem').
        exists l'.
        assert (Hdiff : forall x, In x l' ->
                  F x k' /\ (la <> [] -> x <> p) /\ (lb <> [] -> x <> n)).
        { intros x Hx. apply Hmem' in Hx. split; [exact Hx |]. split.
          - intros NE ->. destruct (Hpa NE) as [HFp _]. apply Hne. eapply Hu; eauto.
          - intros NE ->. destruct (Hnb NE) as [HFn _]. apply Hne. eapply Hu; eauto. }
        split; [exact Hasc' |]. split; [| split].
        -- rewrite <- Hroot'. apply Hroots; [exact Hk' | intros _; exact Hne].
        -- eapply dlseg_agree; eauto.
           intros x Hx. destruct (Hdiff x Hx) as (D1 & D3 & D4).
           split; [eapply HgetN | eapply HgetP]; eauto.
        -- intros b. rewrite Hmem'. split; [intros HFb; left; exact HFb |].
           intros [HFb | [_ E]]; [exact HFb | congruence].
    + intros b k' [HFb | [_ ->]]; eauto.
    + intros b k1 k2 [H1 | [E1 E1']] [H2 | [E2 E2']].
      * eauto.
      * subst. exfalso. eapply HnF; eauto.
      * subst. exfalso. eapply HnF; eauto.
      * congruence.
    + intros b k1 b' k2 [H1 | [E1 E1']] [H2 | [E2 E2']].
      * eauto.
      * subst. destruct (Hsepp _ _ H1); lia.
      * subst. destruct (Hsepp _ _ H2); lia.
      * left. congruence.
    + intros b k' [HFb | [-> _]]; eauto.
    + exact Hfs.
  - intros x Hx. apply Hbytes.
    + destruct (Z.lt_ge_cases x ptr); [left; assumption |].
      destruct (Z.lt_ge_cases x (ptr + 16)); [| right; assumption].
      exfalso. apply Hx. right. exists ptr, k. split; [right; auto | lia].
    + intros _.
      destruct (Z.lt_ge_cases x (fs + k * 8)); [left; assumption |].
      destruct (Z.lt_ge_cases x (fs + k * 8 + 8)); [| right; assumption].
      exfalso. apply Hx. left. lia.
    + intros NE. pose proof (Hpa NE) as [HFp _].
      destruct (Z.lt_ge_cases x p); [left; assumption |].
      destruct (Z.lt_ge_cases x (p + 8)); [| right; assumption].
      exfalso. apply Hx. right. exists p, k. split; [left; exact HFp | lia].
    + intros NE. pose proof (Hnb NE) as [HFn _].
      destruct (Z.lt_ge_cases x (n + 8)); [left; assumption |].
      destruct (Z.lt_ge_cases x (n + 16)); [| right; assumption].
      exfalso. apply Hx. right. exists n, k. split; [left; exact HFn | lia].
Qed.

Lemma add_block_walk_spec (m : mem) (ptr : Z) (r : list Z) :
  forall x prev lo (fuel : nat),
    0 <= lo -> asc lo (x :: r) ->
    dlseg m prev (x :: r) 0 ->
    ~ In ptr (x :: r) ->
    (length r < fuel)%nat ->
    exists l1 y l2,
      add_block_walk fuel m ptr x = Some y /\ x :: r = l1 ++ y :: l2 /\
      (forall z, In z l1 -> z < ptr) /\ (l2 <> [] -> ptr < y).
Proof.
  induction r as [| x' r' IH]; intros x prev lo fuel Hlo Hasc Hdl Hnin Hfuel.
  - destruct fuel as [| f]; [simpl in Hfuel; lia |].
    destruct Hdl as (_ & Hn & _). cbn [add_block_walk].
    unfold NEXT_FLIST_ADDRESS, NULL. rewrite Hn. simpl.
    rewrite andb_false_r.
    exists [], x, []. split; [reflexivity |]. split; [reflexivity |].
    split; [intros z [] | congruence].
  - destruct fuel as [| f]; [simpl in Hfuel; lia |].
    destruct Hdl as (Hp & Hn & Hdl). destruct Hasc as [Hx Hasc].
    cbn [add_block_walk]. unfold NEXT_FLIST_ADDRESS, NULL. rewrite Hn.
    cbn [hd0]. pose proof Hasc as [Hx' _].
    destruct (Z.eqb_spec x' 0) as [E | _]; [lia |].
    destruct (Z.ltb_spec x ptr) as [Hlt | Hge]; cbn [andb negb].
    + destruct (IH x' x x f) as (l1 & y & l2 & Hw & Hl & H1 & H2); auto; try lia.
      * intros Hin. apply Hnin. right. exact Hin.
      * simpl in Hfuel. lia.
      * exists (x :: l1), y, l2. rewrite Hw. split; [reflexivity |].
        split; [simpl; rewrite Hl; reflexivity |].
        split; [| exact H2].
        intros z [-> | Hz]; [exact Hlt | apply H1; exact Hz].
    + exists [], x, (x' :: r'). split; [reflexivity |]. split; [reflexivity |].
      split; [intros z [] |]. intros _.
      assert (x <> ptr) by (intros ->; apply Hnin; left; reflexivity). lia.
Qed.

Lemma asc_from (l : list Z) (lo lo' : Z) :
  asc lo l -> (forall x, In x l -> lo' < x) -> asc lo' l.
Proof.
  destruct l as [| x r]; [intros; exact I |].
  intros [_ H] Hlo. split; [apply Hlo; left; reflexivity | exact H].
Qed.

Lemma add_block_spec (s : state) (ptr k : Z) (F : Z -> Z -> Prop) :
  reg (heap s) (free_start s) F ->
  (forall k', ~ F ptr k') ->
  get_list (GET_SIZE (heap s) (HDRP ptr)) = k ->
  0 <= k < 16 ->
  (forall b k', F b k' -> b + 16 <= ptr \/ ptr + 16 <= b) ->
  free_start s + 128 <= ptr < SIZE_MOD ->
  (forall b k', F b k' -> mem_start_brk s <= b <= mem_brk s) ->
  exists s',
    add_block s ptr = Some s' /\ s' = with_heap s (heap s') /\
    reg (heap s') (free_start s) (fun b k' => F b k' \/ (b = ptr /\ k' = k)) /\
    (forall x,
       ~ lnk (fun b k' => F b k' \/ (b = ptr /\ k' = k)) (free_start s) x ->
       heap s' x = heap s x).
Proof.
  intros Hreg HnF Hk Hkr Hsepp Hptr Hrange.
  pose proof Hreg as [Hb Hc Hu Hs Ha Hfs].
  set (m := heap s) in *. set (fs := free_start s) in *.
  set (m0 := PUT (PUT m ptr 0) (ptr + 8) 0).
  assert (Hm0 : forall c, c + 8 <= ptr \/ ptr + 16 <= c -> GET m0 c = GET m c).
  { intros c Hc'. unfold m0. gp. reflexivity. }
  pose proof (Hb k Hkr) as (l & Hbk).
  pose proof Hbk as (Hasc & Hroot & Hdl & Hmem).
  assert (Hcells : forall x, In x l ->
            fs + 128 <= x < SIZE_MOD /\ 0 < x /\ (x + 16 <= ptr \/ ptr + 16 <= x)).
  { intros x Hx. pose proof (asc_In _ _ _ Hasc Hx). apply Hmem in Hx.
    pose proof (Ha _ _ Hx). pose proof (Hsepp _ _ Hx). lia. }
  assert (Hnin : ~ In ptr l) by (intros Hin; apply Hmem in Hin; eapply HnF; eauto).
  assert (Hdl0 : dlseg m0 0 l 0).
  { eapply dlseg_agree; eauto. intros x Hx. destruct (Hcells x Hx).
    split; apply Hm0; lia. }
  assert (Hroot0 : GET m0 (fs + k * 8) = hd0 l 0).
  { rewrite Hm0 by lia. exact Hroot. }
  unfold add_block. cbn zeta.
  unfold NEXT_ADDRESS, PREV_ADDRESS, GET_ROOT, SET_ROOT, NULL, WSIZE,
    NEXT_FLIST_ADDRESS, PREV_FLIST_ADDRESS.
  fold m fs. rewrite Hk. fold m0. rewrite Hroot0.
  destruct l as [| r0 l'].
  - (* the list is empty *)
    cbn [hd0]. rewrite Z.eqb_refl.
    eexists. split; [reflexivity |]. split; [reflexivity |].
    cbn [heap with_heap].
    apply add_finish with (la := []) (lb := []); auto.
    + intros x [].
    + intros x [].
    + intros x Hx1 Hx2 _ _. specialize (Hx2 eq_refl). unfold m0. gp. reflexivity.
    + unfold m0. gp. reflexivity.
    + unfold m0. gp. reflexivity.
    + intros; congruence.
    + intros _. gp. reflexivity.
    + intros; congruence.
  - cbn [hd0]. destruct (Hcells r0 (or_introl eq_refl)) as (Hr0 & Hr0pos & Hr0sep).
    destruct (Z.eqb_spec r0 0) as [E | _]; [lia |].
    assert (Hr0ne : r0 <> ptr) by (intros ->; apply Hnin; left; reflexivity).
    destruct (Z.gtb_spec r0 ptr) as [Hgt | Hle].
    + (* the block comes before the first node *)
      eexists. split; [reflexivity |]. split; [reflexivity |].
      cbn [heap with_heap].
      apply add_finish with (la := []) (lb := r0 :: l'); auto.
      * intros x [].
      * intros x Hx. destruct Hx as [<- | Hx]; [lia |].
        destruct Hasc as [_ Hasc]. pose proof (asc_In _ _ _ Hasc Hx). lia.
      * intros x Hx1 Hx2 _ Hx4. specialize (Hx2 eq_refl).
        specialize (Hx4 ltac:(discriminate)). cbn [hd0] in Hx4.
        unfold m0. gp. reflexivity.
      * cbn [hd0]. gp. reflexivity.
      * cbn [lastd]. gp. unfold m0. gp. reflexivity.
      * intros; congruence.
      * intros _. gp. reflexivity.
      * intros _. cbn [hd0]. gp. reflexivity.
    + destruct Hdl0 as (Hp0 & Hn0 & Hdl0'). rewrite Hn0.
      destruct l' as [| r1 l''].
      * (* one node, below the block *)
        cbn [hd0]. rewrite Z.eqb_refl.
        eexists. split; [reflexivity |]. split; [reflexivity |].
        cbn [heap with_heap].
        apply add_finish with (la := [r0]) (lb := []); auto.
        -- intros x [<- | []]. lia.
        -- intros x [].
        -- intros x Hx1 _ Hx3 _. specialize (Hx3 ltac:(discriminate)).
           cbn [lastd] in Hx3. unfold m0. gp. reflexivity.
        -- cbn [hd0]. gp. unfold m0. gp. reflexivity.
        -- cbn [lastd]. gp. reflexivity.
        -- intros _. cbn [lastd]. gp. reflexivity.
        -- intros; congruence.
        -- intros; congruence.
      * (* walk along the list *)
        cbn [hd0].
        destruct (Hcells r1 (or_intror (or_introl eq_refl))) as (Hr1 & Hr1pos & _).
        destruct (Z.eqb_spec r1 0) as [E | _]; [lia |].
        destruct (add_block_walk_spec m0 ptr (r1 :: l'') r0 0 0 (walk_fuel s))
          as (l1 & y & l2 & Hw & Hl & Hl1 & Hl2); auto; try lia.
        { cbn [dlseg]. auto. }
        { assert (Hlen : Z.of_nat (length (r0 :: r1 :: l''))
                         <= Z.max 0 (mem_brk s - (mem_start_brk s - 1))).
          { apply asc_length.
            - eapply asc_from; eauto. intros x Hx. apply Hmem in Hx.
              specialize (Hrange _ _ Hx). lia.
            - intros x Hx. apply Hmem in Hx. specialize (Hrange _ _ Hx). lia. }
          unfold walk_fuel. cbn [length] in *. lia. }
        rewrite Hw. cbn [bind]. unfold PREV_ADDRESS, WSIZE.
        assert (Hl1ne : l1 <> []).
        { intros ->. simpl in Hl. inversion Hl; subst.
          assert (ptr < y) by (apply Hl2; discriminate). lia. }
        rewrite Hl in *.
        assert (Hy : In y (l1 ++ y :: l2)) by (apply in_or_app; right; left; reflexivity).
        destruct (Hcells y Hy) as (Hyr & Hypos & Hysep).
        assert (Hdl00 : dlseg m0 0 (l1 ++ y :: l2) 0).
        { rewrite <- Hl. cbn [dlseg]. auto. }
        apply dlseg_app in Hdl00. destruct Hdl00 as [_ (Hyp & Hyn & _)].
        rewrite Hyp, Hyn.
        destruct (asc_split _ _ _ _ Hasc) as (Hal1 & Hal2 & _).
        assert (Hasc1 : asc 0 l1) by (apply asc_app in Hasc; tauto).
        destruct (lastd_pos l1 Hasc1 Hl1ne) as [Hppos Hpin].
        set (p := lastd 0 l1) in *.
        assert (Hpl : In p (l1 ++ y :: l2)) by (apply in_or_app; left; exact Hpin).
        destruct (Hcells p Hpl) as (Hpr & _ & Hpsep).
        assert (Hpy : p + 16 <= y).
        { pose proof (Hal1 p Hpin).
          destruct (Hs p k y k) as [E | [E | E]]; try lia; apply Hmem; assumption. }
        assert (Hyne : y <> ptr) by (intros ->; apply Hnin; exact Hy).
        destruct l2 as [| y' l2'].
        -- cbn [hd0]. rewrite Z.eqb_refl.
           destruct (Z.leb_spec ptr y) as [Hle' | Hgt'].
           ++ eexists. split; [reflexivity |]. split; [reflexivity |].
              cbn [heap with_heap].
              apply add_finish with (la := l1) (lb := [y]); auto.
              ** intros x Hx. destruct Hx as [<- | []]. lia.
              ** fold p. intros x Hx1 _ Hx3 Hx4. specialize (Hx3 Hl1ne).
                 specialize (Hx4 ltac:(discriminate)). cbn [hd0] in Hx4.
                 unfold m0. gp. reflexivity.
              ** cbn [hd0]. gp. reflexivity.
              ** fold p. gp. reflexivity.
              ** fold p. intros _. gp. reflexivity.
              ** intros; congruence.
              ** intros _. cbn [hd0]. gp. reflexivity.
           ++ eexists. split; [reflexivity |]. split; [reflexivity |].
              cbn [heap with_heap].
              apply add_finish with (la := l1 ++ [y]) (lb := []); auto.
              ** rewrite <- app_assoc. simpl. exact Hbk.
              ** intros x Hx. apply in_app_or in Hx.
                 destruct Hx as [Hx | [<- | []]]; [apply Hl1; exact Hx | lia].
              ** intros x [].
              ** rewrite lastd_app. cbn [lastd].
                 intros x Hx1 _ Hx3 _.
                 specialize (Hx3 ltac:(intros E; apply app_eq_nil in E; destruct E; discriminate)).
                 unfold m0. gp. reflexivity.
              ** cbn [hd0]. gp. unfold m0. gp. reflexivity.
              ** rewrite lastd_app. cbn [lastd]. gp. reflexivity.
              ** rewrite lastd_app. cbn [lastd]. intros _. gp. reflexivity.
              ** intros E. apply app_eq_nil in E. destruct E; discriminate.
              ** intros; congruence.
        -- cbn [hd0].
           assert (Hy' : In y' (l1 ++ y :: y' :: l2')).
           { apply in_or_app; right; right; left; reflexivity. }
           destruct (Hcells y' Hy') as (_ & Hy'pos & _).
           destruct (Z.eqb_spec y' 0) as [E | _]; [lia |].
           assert (ptr < y) by (apply Hl2; discriminate).
           eexists. split; [reflexivity |]. split; [reflexivity |].
           cbn [heap with_heap].
           apply add_finish with (la := l1) (lb := y :: y' :: l2'); auto.
           ++ intros x Hx. destruct Hx as [<- | Hx]; [lia |].
              specialize (Hal2 x Hx). lia.
           ++ fold p. intros x Hx1 _ Hx3 Hx4. specialize (Hx3 Hl1ne).
              specialize (Hx4 ltac:(discriminate)). cbn [hd0] in Hx4.
              unfold m0. gp. reflexivity.
           ++ cbn [hd0]. gp. reflexivity.
           ++ fold p. gp. reflexivity.
           ++ fold p. intros _. gp. reflexivity.
           ++ intros; congruence.
           ++ intros _. cbn [hd0]. gp. reflexivity.
Qed.

(** ** Which blocks the registry lists *)

Lemma Fr_nil b k : ~ Fr [] b k.
Proof. intros (sz & [] & _). Qed.

Lemma Fr_app l1 l2 b k : Fr (l1 ++ l2) b k <-> Fr l1 b k \/ Fr l2 b k.
Proof.
  unfold Fr. split.
  - intros (sz & Hin & Hk). apply in_app_or in Hin.
    destruct Hin; [left | right]; exists sz; auto.
  - intros [(sz & Hin & Hk) | (sz & Hin & Hk)]; exists sz;
      (split; [apply in_or_app; auto | exact Hk]).
Qed.

Lemma Fr_cons b0 sz0 al0 l b k :
  Fr ((b0, sz0, al0) :: l) b k <->
  (al0 = false /\ b = b0 /\ k = get_list sz0) \/ Fr l b k.
Proof.
  unfold Fr. split.
  - intros (sz & [E | Hin] & Hk).
    + inversion E; subst. left. auto.
    + right. exists sz. auto.
  - intros [(-> & -> & ->) | (sz & Hin & Hk)].
    + exists sz0. split; [left; reflexivity | reflexivity].
    + exists sz. split; [right; exact Hin | exact Hk].
Qed.

Lemma Fr_block abl b k : Fr abl b k -> exists sz al, In (b, sz, al) abl.
Proof. intros (sz & Hin & _). eauto. Qed.

Lemma Fr_range m a pa l b k :
  seg m a pa l -> Fr l b k -> a <= b /\ b + 64 <= end_of a l /\ 0 <= k < 16.
Proof.
  intros Hseg (sz & Hin & Hk).
  destruct (seg_In _ _ _ _ _ _ _ Hseg Hin) as (H1 & H2 & H3 & _).
  pose proof (get_list_range sz). lia.
Qed.

(** ** Reading a header *)

Lemma read_size m p sz pa al :
  GET m p = hv sz pa al -> sz mod 16 = 0 -> GET_SIZE m p = sz.
Proof.
  intros H Hm. unfold GET_SIZE. rewrite H. apply hv_size.
  apply Z.mod_divide in Hm; [| lia]. destruct Hm as [c ->].
  replace (c * 16) with (c * 2 * 8) by lia. apply Z.mod_mul. lia.
Qed.

Lemma mod16_mod8 sz : sz mod 16 = 0 -> sz mod 8 = 0.
Proof.
  intros Hm. apply Z.mod_divide in Hm; [| lia]. destruct Hm as [c ->].
  replace (c * 16) with (c * 2 * 8) by lia. apply Z.mod_mul. lia.
Qed.

Lemma read_alloc m p sz pa al :
  GET m p = hv sz pa al -> sz mod 16 = 0 -> GET_ALLOC m p = flag al 1.
Proof.
  intros H Hm. unfold GET_ALLOC. rewrite H. apply hv_alloc, mod16_mod8, Hm.
Qed.

Lemma read_prev_alloc m p sz pa al :
  GET m p = hv sz pa al -> sz mod 16 = 0 -> GET_PREV_ALLOC m p = flag pa 2.
Proof.
  intros H Hm. unfold GET_PREV_ALLOC. rewrite H.
  apply hv_prev_alloc, mod16_mod8, Hm.
Qed.

Lemma hv_range sz pa al : 0 <= sz -> sz + 3 < SIZE_MOD -> 0 <= hv sz pa al < SIZE_MOD.
Proof. intros. unfold hv. destruct pa, al; simpl; lia. Qed.

(** ** Frame rules of the block chain *)

Lemma chain_app m a pa l1 l2 :
  chain m a pa (l1 ++ l2) <->
  seg m a pa l1 /\ chain m (end_of a l1) (last_al pa l1) l2.
Proof.
  unfold chain. rewrite seg_app, end_of_app, last_al_app. tauto.
Qed.

(** The header of what follows a segment: a block, or the epilogue. *)
Lemma chain_head m a pa l :
  chain m a pa l ->
  exists sz al,
    GET m (a - 8) = hv sz pa al /\ sz mod 16 = 0 /\ 0 <= sz /\
    ((l = [] /\ sz = 0 /\ al = true) \/ exists r, l = (a, sz, al) :: r).
Proof.
  intros [Hseg Hepi]. destruct l as [| [[b sz] al] r].
  - simpl in *. exists 0, true. repeat split; auto; try lia.
  - simpl in Hseg. destruct Hseg as (-> & Hsz & Hmod & Hh & _).
    exists sz, al. repeat split; auto; try lia. right. eauto.
Qed.

Lemma chain_frame m m' a pa l :
  chain m a pa l ->
  (forall b sz al, In (b, sz, al) l ->
     forall x, b - 8 <= x < b \/ (al = false /\ b + sz - 16 <= x < b + sz - 8) ->
               m' x = m x) ->
  (forall x, end_of a l - 8 <= x < end_of a l -> m' x = m x) ->
  chain m' a pa l.
Proof.
  intros [Hseg Hepi] Hbl Hend. split.
  - eapply seg_agree; eauto. intros b sz al Hin. split.
    + apply GET_ext. intros x Hx. eapply Hbl; eauto. left. lia.
    + intros ->. apply GET_ext. intros x Hx. eapply Hbl; eauto. right. split; [reflexivity | lia].
  - rewrite <- Hepi. apply GET_ext. intros x Hx. apply Hend. lia.
Qed.

Lemma seg_frame m m' a pa l :
  seg m a pa l ->
  (forall x, a - 8 <= x < end_of a l - 8 -> m' x = m x) ->
  seg m' a pa l.
Proof.
  intros Hseg Hag. eapply seg_agree; eauto.
  intros b sz al Hin.
  destruct (seg_In _ _ _ _ _ _ _ Hseg Hin) as (H1 & H2 & H3 & _).
  split; [| intros _]; apply GET_ext; intros x Hx; apply Hag; lia.
Qed.

Lemma chain_frame_range m m' a pa l :
  chain m a pa l ->
  (forall x, a - 8 <= x < end_of a l -> m' x = m x) ->
  chain m' a pa l.
Proof.
  intros [Hseg Hepi] Hag. pose proof (seg_end_le _ _ _ _ Hseg). split.
  - eapply seg_frame; eauto. intros x Hx. apply Hag. lia.
  - rewrite <- Hepi. apply GET_ext. intros x Hx. apply Hag. lia.
Qed.

(** Headers and footers are no link words. *)
Lemma lnk_not_hf m a pa l fs F b sz al x :
  seg m a pa l ->
  (forall b k, F b k -> exists sz al, In (b, sz, al) l) ->
  fs + 128 <= a - 8 ->
  In (b, sz, al) l ->
  b - 8 <= x < b \/ b + sz - 16 <= x < b + sz - 8 ->
  ~ lnk F fs x.
Proof.
  intros Hseg HF Hfs Hin Hx [Hroot | (b' & k & HFb & Hb')].
  - destruct (seg_In _ _ _ _ _ _ _ Hseg Hin) as (H1 & H2 & H3 & _). lia.
  - destruct (HF _ _ HFb) as (sz' & al' & Hin').
    destruct (seg_In _ _ _ _ _ _ _ Hseg Hin) as (H1 & H2 & H3 & _).
    destruct (seg_In _ _ _ _ _ _ _ Hseg Hin') as (H1' & H2' & H3' & _).
    destruct (seg_disjoint _ _ _ _ _ _ _ _ _ _ Hseg Hin Hin') as [E | Hd].
    + inversion E; subst. lia.
    + lia.
Qed.

Lemma lnk_not_epilogue m a pa l fs F x :
  seg m a pa l ->
  (forall b k, F b k -> exists sz al, In (b, sz, al) l) ->
  fs + 128 <= a - 8 ->
  end_of a l - 8 <= x ->
  ~ lnk F fs x.
Proof.
  intros Hseg HF Hfs Hx [Hroot | (b' & k & HFb & Hb')].
  - pose proof (seg_end_le _ _ _ _ Hseg). lia.
  - destruct (HF _ _ HFb) as (sz' & al' & Hin').
    destruct (seg_In _ _ _ _ _ _ _ Hseg Hin') as (H1' & H2' & H3' & _). lia.
Qed.

(** Writing link words and roots leaves the chain as it is. *)
Lemma chain_lnk_frame m m' a pa l fs F :
  chain m a pa l ->
  (forall b k, F b k -> exists sz al, In (b, sz, al) l) ->
  fs + 128 <= a - 8 ->
  (forall x, ~ lnk F fs x -> m' x = m x) ->
  chain m' a pa l.
Proof.
  intros Hch HF Hfs Hag. pose proof Hch as [Hseg _].
  eapply chain_frame; eauto.
  - intros b sz al Hin x Hx. apply Hag.
    eapply lnk_not_hf; eauto. destruct Hx as [Hx | [_ Hx]]; auto.
  - intros x Hx. apply Hag. eapply lnk_not_epilogue; eauto. lia.
Qed.

(** The payload of an allocated block holds no link word. *)
Lemma lnk_not_payload m a pa l fs F b sz x :
  seg m a pa l ->
  (forall b k, F b k -> exists sz, In (b, sz, false) l) ->
  fs + 128 <= a - 8 ->
  In (b, sz, true) l ->
  b <= x < b + sz - 8 ->
  ~ lnk F fs x.
Proof.
  intros Hseg HF Hfs Hin Hx [Hroot | (b' & k & HFb & Hb')].
  - destruct (seg_In _ _ _ _ _ _ _ Hseg Hin) as (H1 & H2 & H3 & _). lia.
  - destruct (HF _ _ HFb) as (sz' & Hin').
    destruct (seg_In _ _ _ _ _ _ _ Hseg Hin) as (H1 & H2 & H3 & _).
    destruct (seg_In _ _ _ _ _ _ _ Hseg Hin') as (H1' & H2' & H3' & _).
    destruct (seg_disjoint _ _ _ _ _ _ _ _ _ _ Hseg Hin Hin') as [E | Hd].
    + inversion E.
    + lia.
Qed.

Lemma reg_equiv m fs F1 F2 :
  (forall b k, F1 b k <-> F2 b k) -> reg m fs F1 -> reg m fs F2.
Proof.
  intros He [Hb Hc Hu Hs Ha Hf]. split.
  - intros k Hk. destruct (Hb k Hk) as (l & H1 & H2 & H3 & H4).
    exists l. repeat split; auto.
    + intros Hin. apply He, H4, Hin.
    + intros HF. apply H4, He, HF.
  - intros b k HF. apply He in HF. eauto.
  - intros b k k' H1 H2. apply He in H1, H2. eauto.
  - intros b k b' k' H1 H2. apply He in H1, H2. eauto.
  - intros b k HF. apply He in HF. eauto.
  - exact Hf.
Qed.

(** A store to a word that is no link word leaves the registry as it is. *)
Lemma reg_put m fs F c v :
  reg m fs F ->
  (c + 8 <= fs \/ fs + 128 <= c) ->
  (forall b k, F b k -> c + 8 <= b \/ b + 16 <= c) ->
  reg (PUT m c v) fs F.
Proof.
  intros Hreg Hroot Hmem. eapply reg_agree; eauto.
  intros x [Hx | (b & k & HF & Hx)]; apply PUT_outside.
  - lia.
  - specialize (Hmem _ _ HF). lia.
Qed.

(** ** States in the middle of an operation *)

Lemma pres_refl L m : pres L m m.
Proof. intros b z x _ _. reflexivity. Qed.

Lemma pres_trans L m1 m2 m3 : pres L m1 m2 -> pres L m2 m3 -> pres L m1 m3.
Proof.
  intros H12 H23 b z x Hin Hx. rewrite (H23 b z x Hin Hx). eauto.
Qed.

Lemma pres_sub L L' m m' :
  (forall b z, In (b, z, true) L' -> In (b, z, true) L) ->
  pres L m m' -> pres L' m m'.
Proof. intros Hsub H b z x Hin Hx. eapply H; eauto. Qed.

Lemma seg_In_hdr m l :
  forall a pa b sz al,
    seg m a pa l -> In (b, sz, al) l ->
    exists pa', GET m (b - 8) = hv sz pa' al /\
                (al = false -> GET m (b + sz - 16) = hv sz pa' false).
Proof.
  induction l as [| [[b0 sz0] al0] r IH]; intros a pa b sz al H Hin;
    simpl in *; [contradiction |].
  destruct H as (-> & Hsz & Hmod & Hh & Hf & Hr).
  destruct Hin as [E | Hin].
  - inversion E; subst. exists pa. auto.
  - eapply IH; eauto.
Qed.

Lemma Fr_size m a pa L b k :
  seg m a pa L -> Fr L b k ->
  get_list (GET_SIZE m (HDRP b)) = k /\ 0 <= k < 16.
Proof.
  intros Hseg (sz & Hin & Hk).
  destruct (seg_In_hdr _ _ _ _ _ _ _ Hseg Hin) as (pa' & Hh & _).
  destruct (seg_In _ _ _ _ _ _ _ Hseg Hin) as (_ & _ & H64 & Hmod & _).
  unfold HDRP, WSIZE. rewrite (read_size _ _ _ _ _ Hh Hmod).
  split; [exact Hk |]. pose proof (get_list_range sz). lia.
Qed.

Lemma step_remove (s : state) (a0 : Z) (L : list block) F b k :
  mst (heap s) a0 (free_start s) L F -> F b k ->
  mst (heap (remove_block s b)) a0 (free_start s) L
      (fun b' k' => F b' k' /\ b' <> b) /\
  pres L (heap s) (heap (remove_block s b)).
Proof.
  intros [Hch Hreg Hsub Hfs Hend] HF.
  pose proof Hch as [Hseg _].
  destruct (Fr_size _ _ _ _ _ _ Hseg (Hsub _ _ HF)) as [Hk _].
  destruct (remove_block_spec s b k F Hreg HF Hk) as (_ & Hreg' & Hfr).
  split.
  - split; auto.
    + eapply chain_lnk_frame; eauto. intros b' k' HF'.
      apply Fr_block with (k := k'). auto.
    + intros b' k' [HF' _]. auto.
  - intros b' z x Hin Hx. apply Hfr.
    eapply lnk_not_payload with (l := L); eauto.
    intros b0 k0 HF0. destruct (Hsub _ _ HF0) as (sz0 & Hin0 & _). eauto.
Qed.

Lemma step_add (s : state) (a0 : Z) (L : list block) F b k :
  mst (heap s) a0 (free_start s) L F -> Fr L b k ->
  (forall k', ~ F b k') ->
  mem_start_brk s <= a0 -> end_of a0 L <= mem_brk s ->
  exists s',
    add_block s b = Some s' /\ s' = with_heap s (heap s') /\
    mst (heap s') a0 (free_start s) L (fun b' k' => F b' k' \/ (b' = b /\ k' = k)) /\
    pres L (heap s) (heap s').
Proof.
  intros [Hch Hreg Hsub Hfs Hend] HFr HnF Hstart Hbrk.
  pose proof Hch as [Hseg _].
  destruct (Fr_size _ _ _ _ _ _ Hseg HFr) as [Hk Hkr].
  destruct (Fr_range _ _ _ _ _ _ Hseg HFr) as (Hb1 & Hb2 & _).
  destruct (add_block_spec s b k F Hreg HnF Hk Hkr) as (s' & Hs' & Es & Hreg' & Hfr).
  - intros b' k' HF'. pose proof (Hsub _ _ HF') as HFr'.
    destruct HFr as (sz & Hin & _). destruct HFr' as (sz' & Hin' & _).
    destruct (seg_In _ _ _ _ _ _ _ Hseg Hin) as (_ & _ & H64 & _).
    destruct (seg_In _ _ _ _ _ _ _ Hseg Hin') as (_ & _ & H64' & _).
    destruct (seg_disjoint _ _ _ _ _ _ _ _ _ _ Hseg Hin Hin') as [E | Hd].
    + inversion E; subst. exfalso. eapply HnF; eauto.
    + lia.
  - lia.
  - intros b' k' HF'.
    destruct (Fr_range _ _ _ _ _ _ Hseg (Hsub _ _ HF')) as (H1 & H2 & _). lia.
  - exists s'. split; [exact Hs' |]. split; [exact Es |].
    assert (Hsub' : forall b' k', F b' k' \/ b' = b /\ k' = k -> Fr L b' k').
    { intros b' k' [HF' | [-> ->]]; auto. }
    split.
    + split; auto.
      eapply chain_lnk_frame; eauto. intros b' k' HF'.
      apply Fr_block with (k := k'). auto.
    + intros b' z x Hin Hx. apply Hfr.
      eapply lnk_not_payload with (l := L); eauto.
      intros b0 k0 HF0. destruct (Hsub' _ _ HF0) as (sz0 & Hin0 & _). eauto.
Qed.

(** Sizes of a segment add up to a multiple of 16. *)
Lemma seg_total m l :
  forall a pa, seg m a pa l ->
    (end_of a l - a) mod 16 = 0 /\ (l <> [] -> a + 64 <= end_of a l).
Proof.
  induction l as [| [[b sz] al] r IH]; intros a pa H; simpl in *.
  - rewrite Z.sub_diag. split; [reflexivity | congruence].
  - destruct H as (-> & Hsz & Hmod & _ & _ & Hr).
    destruct (IH _ _ Hr) as [H1 _]. pose proof (seg_end_le _ _ _ _ Hr).
    split; [| intros _; lia].
    replace (end_of (a + sz) r - a) with ((end_of (a + sz) r - (a + sz)) + sz) by lia.
    rewrite Z.add_mod, H1, Hmod by lia. reflexivity.
Qed.

Lemma PACK_free total : total mod 16 = 0 -> PACK total 2 0 = hv total true false.
Proof. intros H. apply (PACK_hv total true false). apply mod16_mod8, H. Qed.

(** Writing the header and the footer of a merged block. *)
Lemma step_merge (s : state) (a0 : Z) (l1 mid l2 : list block) F r total :
  mst (heap s) a0 (free_start s) (l1 ++ mid ++ l2) F ->
  mid <> [] -> r = end_of a0 l1 -> total = end_of r mid - r ->
  last_al true l1 = true -> last_al true mid = false ->
  (forall b z al, In (b, z, al) mid -> al = false) ->
  (forall b k, F b k -> Fr l1 b k \/ Fr l2 b k \/ (b = r /\ k = get_list total)) ->
  let s' := put_header_footer s r (PACK total 2 0) in
  s' = with_heap s (heap s') /\
  mst (heap s') a0 (free_start s) (l1 ++ (r, total, false) :: l2) F /\
  pres (l1 ++ mid ++ l2) (heap s) (heap s') /\
  (forall b z, In (b, z, true) (l1 ++ mid ++ l2) <->
               In (b, z, true) (l1 ++ (r, total, false) :: l2)).
Proof.
  intros [Hch Hreg Hsub Hfs Hend] Hne Hr Htot Hpa Hlast Hfree HF s'.
  split; [reflexivity |].
  apply chain_app in Hch. destruct Hch as [Hseg1 Hch].
  apply chain_app in Hch. destruct Hch as [Hsegm Hch2].
  rewrite <- Hr in *. rewrite Hpa in *.
  destruct (seg_total _ _ _ _ Hsegm) as [Hmod16 H64].
  specialize (H64 Hne). rewrite <- Htot in Hmod16.
  assert (Hend_mid : end_of r mid = r + total) by lia.
  rewrite Hend_mid in *.
  assert (Hlast' : last_al true mid = last_al true (mid)) by reflexivity.
  pose proof Hch2 as [Hseg2 _].
  pose proof (seg_end_le _ _ _ _ Hseg2) as Hle2.
  pose proof (seg_end_le _ _ _ _ Hseg1) as Hle1.
  rewrite !end_of_app in Hend. rewrite <- Hr, Hend_mid in Hend.
  set (m := heap s) in *. set (fs := free_start s) in *.
  pose proof (reg_fs _ _ _ Hreg) as Hfs0.
  assert (Hm' : heap s' = PUT (PUT m (r - 8) (hv total true false))
                              (r + total - 16) (hv total true false)).
  { unfold s', put_header_footer. cbn [heap with_heap]. fold m.
    rewrite PACK_free by exact Hmod16.
    unfold FTRP, HDRP, WSIZE, DWORD.
    rewrite (read_size _ _ total true false); auto.
    rewrite GET_PUT_same; [reflexivity |]. apply hv_range; lia. }
  rewrite Hm'. clear Hm' s'.
  assert (Hrange : 0 <= hv total true false < SIZE_MOD) by (apply hv_range; lia).
  split; [| split].
  - split.
    + apply chain_app. split.
      * eapply seg_frame; eauto. intros x Hx. rewrite <- Hr in Hx.
        rewrite !PUT_outside by lia. reflexivity.
      * rewrite <- Hr, Hpa. apply chain_app with (l1 := [(r, total, false)]).
        cbn [seg end_of last_al]. split.
        -- repeat split; try lia.
           ++ rewrite GET_PUT_other by lia. apply GET_PUT_same. exact Hrange.
           ++ intros _. apply GET_PUT_same. exact Hrange.
        -- rewrite Hlast in Hch2.
           eapply chain_frame_range; eauto. intros x Hx.
           rewrite !PUT_outside by lia. reflexivity.
    + apply reg_put; [apply reg_put; [exact Hreg | lia |] | lia |].
      * intros b k HFb. destruct (HF _ _ HFb) as [H1 | [H2 | [-> _]]].
        -- destruct (Fr_range _ _ _ _ _ _ Hseg1 H1). lia.
        -- destruct (Fr_range _ _ _ _ _ _ Hseg2 H2). lia.
        -- lia.
      * intros b k HFb. destruct (HF _ _ HFb) as [H1 | [H2 | [-> _]]].
        -- destruct (Fr_range _ _ _ _ _ _ Hseg1 H1). lia.
        -- destruct (Fr_range _ _ _ _ _ _ Hseg2 H2). lia.
        -- lia.
    + intros b k HFb. apply Fr_app. destruct (HF _ _ HFb) as [H1 | [H2 | [-> ->]]].
      * left. exact H1.
      * right. apply Fr_cons. right. exact H2.
      * right. apply Fr_cons. left. auto.
    + exact Hfs.
    + rewrite end_of_app. cbn [end_of]. rewrite <- Hr. exact Hend.
  - intros b z x Hin Hx.
    apply in_app_or in Hin. destruct Hin as [Hin | Hin].
    + destruct (seg_In _ _ _ _ _ _ _ Hseg1 Hin) as (H1 & H2 & _).
      rewrite !PUT_outside by lia. reflexivity.
    + apply in_app_or in Hin. destruct Hin as [Hin | Hin].
      * specialize (Hfree _ _ _ Hin). discriminate.
      * destruct (seg_In _ _ _ _ _ _ _ Hseg2 Hin) as (H1 & H2 & _).
        rewrite !PUT_outside by lia. reflexivity.
  - intros b z. rewrite !in_app_iff. cbn [In]. split.
    + intros [H | [H | H]]; auto. specialize (Hfree _ _ _ H). discriminate.
    + intros [H | [H | H]]; auto. inversion H.
Qed.

(** ** coalesce *)

Lemma wrap_small x : 0 <= x < SIZE_MOD -> wrap x = x.
Proof. intros H. unfold wrap. apply Z.mod_small. exact H. Qed.

Lemma Fr_alloc l1 b0 z0 l2 b k :
  Fr (l1 ++ (b0, z0, true) :: l2) b k <-> Fr l1 b k \/ Fr l2 b k.
Proof.
  rewrite Fr_app, Fr_cons. split.
  - intros [H | [(E & _) | H]]; auto. discriminate.
  - intros [H | H]; auto.
Qed.

Lemma Fr_free l1 b0 z0 l2 b k :
  Fr (l1 ++ (b0, z0, false) :: l2) b k <->
  Fr l1 b k \/ Fr l2 b k \/ (b = b0 /\ k = get_list z0).
Proof.
  rewrite Fr_app, Fr_cons. split.
  - intros [H | [(_ & E1 & E2) | H]]; auto.
  - intros [H | [H | [E1 E2]]]; auto.
Qed.

Lemma Fr_without l1 b0 z0 al0 l2 b k :
  (forall b k, Fr l1 b k -> b < b0) ->
  (forall b k, Fr l2 b k -> b0 < b) ->
  (Fr (l1 ++ (b0, z0, al0) :: l2) b k /\ b <> b0) <-> (Fr l1 b k \/ Fr l2 b k).
Proof.
  intros H1 H2. rewrite Fr_app, Fr_cons. split.
  - intros [[H | [(_ & E & _) | H]] Hne]; auto. congruence.
  - intros [H | H].
    + split; [left; exact H |]. specialize (H1 _ _ H). lia.
    + split; [right; right; exact H |]. specialize (H2 _ _ H). lia.
Qed.

Lemma noadj_weaken l : noadj false l -> noadj true l.
Proof. destruct l as [| [[b z] al] r]; simpl; [auto |]. intros [_ H]. auto. Qed.

Lemma merge_relink (s : state) a0 l1 mid l2 F r total :
  mst (heap s) a0 (free_start s) (l1 ++ mid ++ l2) F ->
  (forall b k, F b k <-> Fr l1 b k \/ Fr l2 b k) ->
  mid <> [] -> r = end_of a0 l1 -> total = end_of r mid - r ->
  last_al true l1 = true -> last_al true mid = false ->
  (forall b z al, In (b, z, al) mid -> al = false) ->
  mem_start_brk s <= a0 ->
  end_of a0 (l1 ++ mid ++ l2) <= mem_brk s ->
  merge_post s a0 l1 mid l2 r total
    (let s2 := put_header_footer s r (PACK total 2 0) in
     s3 <- add_block s2 r ;; Some (s3, r)).
Proof.
  intros Hm HF Hne Hr Htot Hpa Hlast Hfree Hstart Hbrk.
  destruct (step_merge s a0 l1 mid l2 F r total Hm Hne Hr Htot Hpa Hlast Hfree)
    as (Es2 & Hm2 & Hpres2 & Hal).
  { intros b k HFb. apply HF in HFb. destruct HFb; auto. }
  cbn zeta. set (s2 := put_header_footer s r (PACK total 2 0)) in *.
  pose proof (mst_chain _ _ _ _ _ Hm) as Hch.
  apply chain_app in Hch. destruct Hch as [Hseg1 Hch].
  apply chain_app in Hch. destruct Hch as [Hsegm [Hseg2 _]].
  rewrite <- Hr in *.
  destruct (seg_total _ _ _ _ Hsegm) as [_ H64]. specialize (H64 Hne).
  assert (Eend : end_of a0 (l1 ++ (r, total, false) :: l2)
                 = end_of a0 (l1 ++ mid ++ l2)).
  { rewrite !end_of_app. cbn [end_of]. rewrite <- Hr. f_equal. lia. }
  assert (Hfs2 : free_start s2 = free_start s) by reflexivity.
  assert (Hbrk2 : mem_brk s2 = mem_brk s) by reflexivity.
  assert (Hst2 : mem_start_brk s2 = mem_start_brk s) by reflexivity.
  rewrite <- Hfs2 in Hm2.
  destruct (step_add s2 a0 (l1 ++ (r, total, false) :: l2) F r (get_list total) Hm2)
    as (s3 & Hs3 & Es3 & Hm3 & Hpres3).
  - apply Fr_free. right. right. auto.
  - intros k' HFr. apply HF in HFr. destruct HFr as [H | H].
    + destruct (Fr_range _ _ _ _ _ _ Hseg1 H). lia.
    + destruct (Fr_range _ _ _ _ _ _ Hseg2 H). lia.
  - rewrite Hst2. exact Hstart.
  - rewrite Hbrk2, Eend. exact Hbrk.
  - rewrite Hs3. cbn [bind]. exists s3.
    split; [reflexivity |]. split.
    { rewrite Es3. unfold s2, put_header_footer, with_heap. reflexivity. }
    rewrite Hfs2 in Hm3. split.
    + destruct Hm3 as [C1 C2 C3 C4 C5]. split; auto.
      eapply reg_equiv; [| exact C2].
      intros b k. rewrite Fr_free, HF. split.
      * intros [[H | H] | H]; auto.
      * intros [H | [H | H]]; auto.
    + eapply pres_trans; [exact Hpres2 |].
      eapply pres_sub; [| exact Hpres3]. intros b z Hin. apply Hal. exact Hin.
Qed.

Lemma merge_fast (s : state) a0 l1 mid l2 F r total :
  mst (heap s) a0 (free_start s) (l1 ++ mid ++ l2) F ->
  (forall b k, F b k <-> Fr l1 b k \/ Fr l2 b k \/ (b = r /\ k = get_list total)) ->
  mid <> [] -> r = end_of a0 l1 -> total = end_of r mid - r ->
  last_al true l1 = true -> last_al true mid = false ->
  (forall b z al, In (b, z, al) mid -> al = false) ->
  merge_post s a0 l1 mid l2 r total
    (Some (put_header_footer s r (PACK total 2 0), r)).
Proof.
  intros Hm HF Hne Hr Htot Hpa Hlast Hfree.
  destruct (step_merge s a0 l1 mid l2 F r total Hm Hne Hr Htot Hpa Hlast Hfree)
    as (Es2 & Hm2 & Hpres2 & Hal).
  { intros b k HFb. apply HF in HFb. exact HFb. }
  eexists. split; [reflexivity |]. split; [exact Es2 |]. split; [| exact Hpres2].
  destruct Hm2 as [C1 C2 C3 C4 C5]. split; auto.
  eapply reg_equiv; [| exact C2].
  intros b k. rewrite Fr_free, HF. reflexivity.
Qed.

Lemma merge_to_coalesce s a0 l1' mp ptr sz mn l2' r total res :
  merge_post s a0 l1' (mp ++ (ptr, sz, false) :: mn) l2' r total res ->
  (forall b z al, In (b, z, al) (mp ++ mn) -> al = false) ->
  noadj true l1' -> last_al true l1' = true -> noadj false l2' ->
  r <= ptr -> ptr + sz <= r + total ->
  end_of a0 (l1' ++ (r, total, false) :: l2')
  = end_of a0 ((l1' ++ mp) ++ (ptr, sz, false) :: mn ++ l2') ->
  last_al false (mn ++ l2') = last_al false l2' ->
  coalesce_post s a0 (l1' ++ mp) ptr sz (mn ++ l2') res.
Proof.
  intros (s' & Hres & Es & Hm & Hpres) Hfree N1 Hpa N2 Hr1 Hr2 Eend Elast.
  exists s', r, (l1' ++ (r, total, false) :: l2').
  split; [exact Hres |]. split; [exact Es |]. split; [exact Hm |].
  assert (Hal : forall b z, In (b, z, true) ((l1' ++ mp) ++ mn ++ l2') <->
                            In (b, z, true) l1' \/ In (b, z, true) l2').
  { intros b z. rewrite !in_app_iff. split.
    - intros [[H | H] | [H | H]]; auto.
      + assert (true = false) by (eapply Hfree; apply in_or_app; left; exact H).
        discriminate.
      + assert (true = false) by (eapply Hfree; apply in_or_app; right; exact H).
        discriminate.
    - intros [H | H]; auto. }
  split; [| split; [| split; [| split; [| split]]]].
  - apply noadj_app. split; [exact N1 |]. rewrite Hpa. cbn [noadj]. auto.
  - exact Eend.
  - rewrite !last_al_app. cbn [last_al]. exact (eq_sym Elast).
  - eapply pres_sub; [| exact Hpres]. intros b z Hin.
    apply Hal in Hin. rewrite !in_app_iff. destruct Hin; auto.
  - intros b z. rewrite Hal, in_app_iff. cbn [In]. split.
    + intros [H | [H | H]]; auto. inversion H.
    + intros [H | H]; auto.
  - exists total. split; [apply in_or_app; right; left; reflexivity | lia].
Qed.

Lemma coalesce_add_only (s : state) a0 l1 ptr sz l2 :
  mst (heap s) a0 (free_start s) (l1 ++ (ptr, sz, false) :: l2)
      (Fr (l1 ++ (ptr, sz, true) :: l2)) ->
  noadj true l1 -> last_al true l1 = true -> noadj false l2 ->
  mem_start_brk s <= a0 ->
  end_of a0 (l1 ++ (ptr, sz, false) :: l2) <= mem_brk s ->
  coalesce_post s a0 l1 ptr sz l2
    (s1 <- add_block s ptr ;; Some (s1, ptr)).
Proof.
  intros Hm N1 Hpa N2 Hstart Hbrk.
  pose proof (mst_chain _ _ _ _ _ Hm) as Hch.
  apply chain_app in Hch. destruct Hch as [Hseg1 Hch].
  pose proof Hch as [Hsegp _]. cbn [seg] in Hsegp.
  destruct Hsegp as (Eptr & H64 & Hmod & Hh & Hf & Hseg2).
  destruct (step_add s a0 (l1 ++ (ptr, sz, false) :: l2)
              (Fr (l1 ++ (ptr, sz, true) :: l2)) ptr (get_list sz) Hm)
    as (s' & Hs' & Es & Hm' & Hpres); auto.
  - apply Fr_free. right. right. auto.
  - intros k' HF. apply Fr_alloc in HF. destruct HF as [HF | HF].
    + destruct (Fr_range _ _ _ _ _ _ Hseg1 HF). lia.
    + destruct (Fr_range _ _ _ _ _ _ Hseg2 HF). lia.
  - rewrite Hs'. cbn [bind].
    exists s', ptr, (l1 ++ (ptr, sz, false) :: l2).
    split; [reflexivity |]. split; [exact Es |].
    split; [| split; [| split; [| split; [| split; [| split]]]]].
    + destruct Hm' as [C1 C2 C3 C4 C5]. split; auto.
      eapply reg_equiv; [| exact C2].
      intros b k. rewrite Fr_free, Fr_alloc. split.
      * intros [[H | H] | H]; auto.
      * intros [H | [H | H]]; auto.
    + apply noadj_app. split; [exact N1 |]. rewrite Hpa. cbn [noadj]. auto.
    + reflexivity.
    + reflexivity.
    + eapply pres_sub; [| exact Hpres]. intros b z Hin.
      apply in_app_or in Hin. apply in_or_app.
      destruct Hin; [left | right; right]; assumption.
    + intros b z. rewrite !in_app_iff. cbn [In]. split.
      * intros [H | [H | H]]; auto. inversion H.
      * intros [H | H]; auto.
    + exists sz. split; [apply in_or_app; right; left; reflexivity | lia].
Qed.

Lemma merge_post_after_remove s b a0 l1 mid l2 r total res :
  merge_post (remove_block s b) a0 l1 mid l2 r total res ->
  pres (l1 ++ mid ++ l2) (heap s) (heap (remove_block s b)) ->
  merge_post s a0 l1 mid l2 r total res.
Proof.
  intros (s' & Hres & Es & Hm & Hpres) Hp.
  exists s'. split; [exact Hres |]. split.
  - rewrite Es. reflexivity.
  - split; [exact Hm |]. eapply pres_trans; eauto.
Qed.

Lemma mst_hdr_size m a0 fs L F b z al :
  mst m a0 fs L F -> In (b, z, al) L -> GET_SIZE m (HDRP b) = z.
Proof.
  intros Hm Hin. destruct (mst_chain _ _ _ _ _ Hm) as [Hseg _].
  destruct (seg_In_hdr _ _ _ _ _ _ _ Hseg Hin) as (pa' & Hh & _).
  destruct (seg_In _ _ _ _ _ _ _ Hseg Hin) as (_ & _ & _ & Hmod & _).
  unfold HDRP, WSIZE. eapply read_size; eauto.
Qed.

Lemma coalesce_spec (s : state) a0 l1 ptr sz l2 :
  mst (heap s) a0 (free_start s) (l1 ++ (ptr, sz, false) :: l2)
      (Fr (l1 ++ (ptr, sz, true) :: l2)) ->
  noadj true (l1 ++ (ptr, sz, true) :: l2) ->
  mem_start_brk s <= a0 ->
  end_of a0 (l1 ++ (ptr, sz, false) :: l2) <= mem_brk s ->
  coalesce_post s a0 l1 ptr sz l2 (coalesce s ptr).
Proof.
  intros Hm Hna Hstart Hbrk.
  pose proof (mst_chain _ _ _ _ _ Hm) as Hch.
  pose proof (mst_end _ _ _ _ _ Hm) as Hend.
  pose proof (mst_fs _ _ _ _ _ Hm) as Hfs.
  pose proof (reg_fs _ _ _ (mst_reg _ _ _ _ _ Hm)) as Hfs0.
  apply chain_app in Hch. destruct Hch as [Hseg1 Hch].
  apply (chain_app _ _ _ [(ptr, sz, false)]) in Hch.
  destruct Hch as [Hsegp Hch2]. cbn [seg end_of last_al] in Hsegp, Hch2.
  destruct Hsegp as (Eptr & H64 & Hmod & Hh & Hf & _).
  specialize (Hf eq_refl).
  rewrite <- Eptr in Hch2.
  destruct (chain_head _ _ _ _ Hch2) as (nsz & nal & Hnh & Hnmod & Hnsz & Hshape).
  pose proof Hch2 as [Hseg2 _].
  apply noadj_app in Hna. destruct Hna as [N1 [_ N2]].
  set (pa := last_al true l1) in *.
  rewrite end_of_app in Hend, Hbrk. cbn [end_of] in Hend, Hbrk.
  rewrite <- Eptr in Hend, Hbrk.
  pose proof (seg_end_le _ _ _ _ Hseg1) as Hle1.
  pose proof (seg_end_le _ _ _ _ Hseg2) as Hle2.
  assert (R1 : GET_PREV_ALLOC (heap s) (HDRP ptr) = flag pa 2).
  { unfold HDRP, WSIZE. eapply read_prev_alloc; eauto. }
  assert (R2 : GET_SIZE (heap s) (HDRP ptr) = sz).
  { unfold HDRP, WSIZE. eapply read_size; eauto. }
  assert (R3 : NEXT_BLOCK (heap s) ptr = ptr + sz).
  { unfold NEXT_BLOCK. fold (HDRP ptr). rewrite R2. reflexivity. }
  assert (R4 : GET_ALLOC (heap s) (HDRP (ptr + sz)) = flag nal 1).
  { unfold HDRP, WSIZE. eapply read_alloc; eauto. }
  assert (R5 : GET_SIZE (heap s) (HDRP (ptr + sz)) = nsz).
  { unfold HDRP, WSIZE. eapply read_size; eauto. }
  unfold coalesce. cbn zeta. rewrite R3, R1, R2, R4, R5.
  destruct pa eqn:Epa, nal eqn:Enal; cbn [flag];
    change (2 =? 0) with false; change (1 =? 0) with false;
    change (0 =? 0) with true; cbn [negb andb].
  - (* both neighbours allocated *)
    apply coalesce_add_only; auto.
    + destruct Hshape as [(-> & _) | (r & ->)]; [exact I |].
      cbn [noadj] in *. destruct N2 as [_ N2]. auto.
    + rewrite end_of_app. cbn [end_of]. rewrite <- Eptr. exact Hbrk.
  - (* the next block is free *)
    destruct Hshape as [(_ & _ & E) | (l2' & ->)]; [discriminate |].
    cbn [seg end_of] in Hseg2, Hend, Hbrk, Hle2.
    destruct Hseg2 as (_ & Hn64 & _ & _ & _ & Hseg2').
    pose proof (seg_end_le _ _ _ _ Hseg2') as Hle2'.
    rewrite wrap_small by lia.
    destruct (step_remove s a0 _ _ (ptr + sz) (get_list nsz) Hm) as [Hm1 Hp1].
    { apply Fr_alloc. right. apply Fr_cons. left. auto. }
    assert (Hsize : sz + nsz = end_of ptr [(ptr, sz, false); (ptr + sz, nsz, false)] - ptr)
      by (cbn [end_of]; lia).
    assert (Hpost : merge_post s a0 l1 ([] ++ (ptr, sz, false) :: [(ptr + sz, nsz, false)])
                      l2' ptr (sz + nsz)
                      (let s2 := put_header_footer (remove_block s (ptr + sz)) ptr
                                   (PACK (sz + nsz) 2 0) in
                       s3 <- add_block s2 ptr ;; Some (s3, ptr))).
    { apply (merge_post_after_remove s (ptr + sz)); [| exact Hp1].
      eapply merge_relink; eauto; try discriminate.
      - intros b k. cbn beta.
        rewrite Fr_alloc, Fr_cons. split.
        + intros [[H | [H | H]] Hne]; auto. destruct H as (_ & E & _). congruence.
        + intros [H | H].
          * split; [left; exact H |].
            destruct (Fr_range _ _ _ _ _ _ Hseg1 H). lia.
          * split; [right; right; exact H |].
            destruct (Fr_range _ _ _ _ _ _ Hseg2' H). lia.
      - intros b z al [E | [E | []]]; inversion E; reflexivity.
      - rewrite !end_of_app. cbn [end_of app]. rewrite <- Eptr. exact Hbrk. }
    pose proof (merge_to_coalesce _ _ _ _ _ _ _ _ _ _ _ Hpost) as Hfin.
    rewrite app_nil_r in Hfin. apply Hfin; auto; try lia.
    + intros b z al [E | []]. inversion E. reflexivity.
    + cbn [noadj] in N2. destruct N2 as [_ N2]. exact N2.
    + rewrite !end_of_app. cbn [end_of app]. rewrite <- Eptr. f_equal. lia.
  - (* the previous block is free *)
    destruct (last_al_false_inv _ _ Epa) as [[_ E] | (l1' & pb & psz & ->)];
      [discriminate |].
    apply seg_app in Hseg1. destruct Hseg1 as [Hseg1' Hsegb].
    cbn [seg] in Hsegb. destruct Hsegb as (Epb & Hp64 & Hpmod & Hph & Hpf & _).
    specialize (Hpf eq_refl).
    rewrite end_of_snoc in Eptr. rewrite <- Epb in Eptr.
    apply noadj_app in N1. destruct N1 as [N1' [Hpa' _]].
    assert (Hpa1 : last_al true l1' = true) by (destruct Hpa'; [assumption | discriminate]).
    rewrite Hpa1 in *.
    pose proof (seg_end_le _ _ _ _ Hseg1') as Hle1'.
    assert (R6 : PREV_BLOCK (heap s) ptr = pb).
    { unfold PREV_BLOCK, DWORD.
      rewrite (read_size _ _ psz true false); auto; [lia |].
      replace (ptr - 16) with (pb + psz - 16) by lia. exact Hpf. }
    assert (R7 : GET_SIZE (heap s) (HDRP pb) = psz).
    { unfold HDRP, WSIZE. eapply read_size; eauto. }
    rewrite R6, R7. rewrite wrap_small by lia.
    assert (N2' : noadj false l2).
    { destruct Hshape as [(-> & _) | (r & ->)]; [exact I |].
      cbn [noadj] in *. destruct N2 as [_ N2]. auto. }
    assert (Hsize : sz + psz = end_of pb [(pb, psz, false); (ptr, sz, false)] - pb)
      by (cbn [end_of]; lia).
    rewrite <- !app_assoc in Hm. cbn [app] in Hm.
    assert (HFr0 : forall b k,
              Fr (l1' ++ (pb, psz, false) :: (ptr, sz, true) :: l2) b k <->
              Fr l1' b k \/ Fr l2 b k \/ (b = pb /\ k = get_list psz)).
    { intros b k. rewrite Fr_free.
      change ((ptr, sz, true) :: l2) with ([] ++ (ptr, sz, true) :: l2).
      rewrite Fr_alloc. split.
      - intros [H | [[H | H] | H]]; auto. destruct (Fr_nil _ _ H).
      - intros [H | [H | H]]; auto. }
    assert (Hposts : forall res,
              merge_post s a0 l1' ([(pb, psz, false)] ++ (ptr, sz, false) :: [])
                         l2 pb (sz + psz) res ->
              coalesce_post s a0 (l1' ++ [(pb, psz, false)]) ptr sz l2 res).
    { intros res Hpost.
      apply (merge_to_coalesce s a0 l1' [(pb, psz, false)] ptr sz [] l2 pb (sz + psz));
        auto; try lia.
      - intros b z al [E | []]. inversion E. reflexivity.
      - rewrite !end_of_app. cbn [end_of app]. rewrite <- Epb. f_equal. lia. }
    destruct (Z.leb_spec (Z.shiftl 1 (get_list psz)) (sz + psz)) as [Hbig | Hsmall].
    + apply Hposts.
      destruct (step_remove s a0 _ _ pb (get_list psz) Hm) as [Hm1 Hp1].
      { apply HFr0. right. right. auto. }
      apply (merge_post_after_remove s pb); [| exact Hp1].
      eapply merge_relink; eauto; try discriminate.
      * intros b k. cbn beta. rewrite HFr0. split.
        -- intros [[H | [H | [H _]]] Hne]; auto. congruence.
        -- intros [H | H].
           ++ split; [left; exact H |].
              destruct (Fr_range _ _ _ _ _ _ Hseg1' H). lia.
           ++ split; [right; left; exact H |].
              destruct (Fr_range _ _ _ _ _ _ Hseg2 H). lia.
      * intros b z al [E | [E | []]]; inversion E; reflexivity.
      * rewrite !end_of_app. cbn [end_of app]. rewrite <- Epb.
        replace (pb + psz + sz) with (ptr + sz) by lia. exact Hbrk.
    + apply Hposts.
      eapply merge_fast; eauto; try discriminate.
      * intros b k. rewrite HFr0.
        rewrite (get_list_stable psz (sz + psz)) by lia. reflexivity.
      * intros b z al [E | [E | []]]; inversion E; reflexivity.
  - (* both neighbours are free *)
    destruct (last_al_false_inv _ _ Epa) as [[_ E] | (l1' & pb & psz & ->)];
      [discriminate |].
    destruct Hshape as [(_ & _ & E) | (l2' & ->)]; [discriminate |].
    cbn [seg end_of] in Hseg2, Hend, Hbrk, Hle2.
    destruct Hseg2 as (_ & Hn64 & _ & _ & _ & Hseg2').
    pose proof (seg_end_le _ _ _ _ Hseg2') as Hle2'.
    apply seg_app in Hseg1. destruct Hseg1 as [Hseg1' Hsegb].
    cbn [seg] in Hsegb. destruct Hsegb as (Epb & Hp64 & Hpmod & Hph & Hpf & _).
    specialize (Hpf eq_refl).
    rewrite end_of_snoc in Eptr. rewrite <- Epb in Eptr.
    apply noadj_app in N1. destruct N1 as [N1' [Hpa' _]].
    assert (Hpa1 : last_al true l1' = true) by (destruct Hpa'; [assumption | discriminate]).
    rewrite Hpa1 in *.
    pose proof (seg_end_le _ _ _ _ Hseg1') as Hle1'.
    assert (R6 : PREV_BLOCK (heap s) ptr = pb).
    { unfold PREV_BLOCK, DWORD.
      rewrite (read_size _ _ psz true false); auto; [lia |].
      replace (ptr - 16) with (pb + psz - 16) by lia. exact Hpf. }
    rewrite R6.
    rewrite <- !app_assoc in Hm. cbn [app] in Hm.
    assert (HFr0 : forall b k,
              Fr (l1' ++ (pb, psz, false) :: (ptr, sz, true)
                      :: (ptr + sz, nsz, false) :: l2') b k <->
              Fr l1' b k \/ Fr l2' b k \/ (b = pb /\ k = get_list psz)
              \/ (b = ptr + sz /\ k = get_list nsz)).
    { intros b k. rewrite Fr_free.
      change ((ptr, sz, true) :: (ptr + sz, nsz, false) :: l2')
        with ([] ++ (ptr, sz, true) :: (ptr + sz, nsz, false) :: l2').
      rewrite Fr_alloc, Fr_cons. split.
      - intros [H | [[H | [H | H]] | H]]; auto.
        + destruct (Fr_nil _ _ H).
        + destruct H as (_ & H). auto.
      - intros [H | [H | [H | [H1 H2]]]]; auto.
        right. left. right. left. auto. }
    destruct (step_remove s a0 _ _ (ptr + sz) (get_list nsz) Hm) as [Hm1 Hp1].
    { apply HFr0. right. right. right. auto. }
    set (s1 := remove_block s (ptr + sz)) in *.
    assert (R7 : GET_SIZE (heap s1) (HDRP pb) = psz).
    { eapply mst_hdr_size; [exact Hm1 |]. apply in_or_app. right. left. reflexivity. }
    assert (R8 : GET_SIZE (heap s1) (HDRP (ptr + sz)) = nsz).
    { eapply mst_hdr_size; [exact Hm1 |]. apply in_or_app.
      right. right. right. left. reflexivity. }
    rewrite R7, R8. rewrite (wrap_small (psz + nsz)) by lia.
    rewrite wrap_small by lia.
    assert (Hsize : sz + (psz + nsz)
                    = end_of pb [(pb, psz, false); (ptr, sz, false);
                                 (ptr + sz, nsz, false)] - pb)
      by (cbn [end_of]; lia).
    assert (Hposts : forall res,
              merge_post s a0 l1'
                ([(pb, psz, false)] ++ (ptr, sz, false) :: [(ptr + sz, nsz, false)])
                l2' pb (sz + (psz + nsz)) res ->
              coalesce_post s a0 (l1' ++ [(pb, psz, false)]) ptr sz
                            ((ptr + sz, nsz, false) :: l2') res).
    { intros res Hpost.
      apply (merge_to_coalesce s a0 l1' [(pb, psz, false)] ptr sz
               [(ptr + sz, nsz, false)] l2' pb (sz + (psz + nsz)));
        auto; try lia.
      - intros b z al [E | [E | []]]; inversion E; reflexivity.
      - cbn [noadj] in N2. destruct N2 as [_ N2]. exact N2.
      - rewrite !end_of_app. cbn [end_of app]. rewrite <- Epb. f_equal. lia. }
    assert (Hfree3 : forall b z al,
              In (b, z, al) [(pb, psz, false); (ptr, sz, false); (ptr + sz, nsz, false)] ->
              al = false).
    { intros b z al [E | [E | [E | []]]]; inversion E; reflexivity. }
    destruct (Z.gtb_spec (Z.shiftl 1 (get_list psz)) (sz + (psz + nsz))) as [Hsmall | Hbig].
    + apply Hposts.
      apply (merge_post_after_remove s (ptr + sz)); [| exact Hp1].
      eapply merge_fast; eauto; try discriminate.
      intros b k. cbn beta. rewrite HFr0.
      rewrite (get_list_stable psz (sz + (psz + nsz))) by lia. split.
      * intros [[H | [H | [H | [H _]]]] Hne]; auto. congruence.
      * intros [H | [H | H]].
        -- split; [left; exact H |].
           destruct (Fr_range _ _ _ _ _ _ Hseg1' H). lia.
        -- split; [right; left; exact H |].
           destruct (Fr_range _ _ _ _ _ _ Hseg2' H). lia.
        -- split; [right; right; left; exact H |]. destruct H. lia.
    + apply Hposts.
      apply (merge_post_after_remove s (ptr + sz)); [| exact Hp1].
      destruct (step_remove s1 a0 _ _ pb (get_list psz) Hm1) as [Hm2 Hp2].
      { split; [apply HFr0; right; right; left; auto | lia]. }
      apply (merge_post_after_remove s1 pb); [| exact Hp2].
      eapply merge_relink; eauto; try discriminate.
      * intros b k. cbn beta. rewrite HFr0. split.
        -- intros [[[H | [H | [[H _] | [H _]]]] Hne] Hne']; auto; congruence.
        -- intros [H | H].
           ++ destruct (Fr_range _ _ _ _ _ _ Hseg1' H).
              split; [split; [left; exact H |] |]; lia.
           ++ destruct (Fr_range _ _ _ _ _ _ Hseg2' H).
              split; [split; [right; left; exact H |] |]; lia.
      * rewrite !end_of_app. cbn [end_of app]. rewrite <- Epb.
        replace (pb + psz + sz + nsz) with (ptr + sz + nsz) by lia. exact Hbrk.
Qed.

(** ** The invariant of the allocator *)

Lemma same_frame_fields s s' :
  same_frame s s' ->
  mem_start_brk s' = mem_start_brk s /\ mem_brk s' = mem_brk s /\
  mem_max_addr s' = mem_max_addr s /\ heap_start s' = heap_start s /\
  free_start s' = free_start s /\ heap_prologue s' = heap_prologue s /\
  heap_epilogue s' = heap_epilogue s.
Proof. intros ->. repeat split. Qed.

(** Changing the previous-allocated flag in the header that follows a
    block: the header of the next block, or of the epilogue. *)
Lemma chain_set_pa m m' a pa pa' l sz al :
  chain m a pa l ->
  GET m (a - 8) = hv sz pa al -> sz mod 16 = 0 ->
  GET m' (a - 8) = hv sz pa' al ->
  (al = false -> GET m' (a + sz - 16) = hv sz pa' false) ->
  (forall x, a <= x -> (al = false -> x < a + sz - 16 \/ a + sz - 8 <= x) ->
             m' x = m x) ->
  chain m' a pa' l.
Proof.
  intros [Hseg Hepi] Hh Hmod Hh' Hf' Hag.
  assert (Hinj : forall z1 p1 a1 z2 p2 a2,
            z1 mod 16 = 0 -> z2 mod 16 = 0 ->
            hv z1 p1 a1 = hv z2 p2 a2 -> z1 = z2 /\ a1 = a2).
  { intros z1 p1 a1 z2 p2 a2 M1 M2 E.
    assert (E1 : Z.land (hv z1 p1 a1) (Z.lnot 7) = Z.land (hv z2 p2 a2) (Z.lnot 7))
      by (rewrite E; reflexivity).
    rewrite !hv_size in E1 by (apply mod16_mod8; assumption).
    assert (E2 : Z.land (hv z1 p1 a1) 1 = Z.land (hv z2 p2 a2) 1)
      by (rewrite E; reflexivity).
    rewrite !hv_alloc in E2 by (apply mod16_mod8; assumption).
    split; [exact E1 |]. destruct a1, a2; simpl in E2; congruence. }
  destruct l as [| [[b z] al0] r].
  - simpl in *. split; [exact I |].
    rewrite Hh in Hepi. apply Hinj in Hepi; auto. destruct Hepi as [-> ->].
    exact Hh'.
  - cbn [seg] in Hseg. destruct Hseg as (-> & H64 & Hzmod & Hzh & Hzf & Hr).
    rewrite Hh in Hzh. apply Hinj in Hzh; auto. destruct Hzh as [-> ->].
    pose proof (seg_end_le _ _ _ _ Hr) as Hle.
    split.
    + cbn [seg]. repeat split; auto.
      eapply seg_frame; eauto. intros x Hx. apply Hag; lia.
    + cbn [end_of last_al] in *. rewrite <- Hepi.
      apply GET_ext. intros x Hx. apply Hag; lia.
Qed.

Lemma chain_cons_intro m a pa b sz al r :
  b = a -> 64 <= sz -> sz mod 16 = 0 ->
  GET m (b - 8) = hv sz pa al ->
  (al = false -> GET m (b + sz - 16) = hv sz pa false) ->
  chain m (a + sz) al r ->
  chain m a pa ((b, sz, al) :: r).
Proof.
  intros -> H64 Hmod Hh Hf [Hseg Hepi]. split.
  - cbn [seg]. repeat split; assumption.
  - exact Hepi.
Qed.

Lemma PACK_flags sz (pa al : bool) :
  sz mod 16 = 0 -> PACK sz (flag pa 2) (flag al 1) = hv sz pa al.
Proof. intros H. apply PACK_hv, mod16_mod8, H. Qed.

Lemma noadj_head_alloc m a pa l sz al :
  chain m a pa l -> GET m (a - 8) = hv sz pa al -> sz mod 16 = 0 ->
  noadj true l -> al = true -> noadj false l.
Proof.
  intros Hch Hh Hmod N Hal.
  destruct (chain_head _ _ _ _ Hch) as (z & al' & Hh' & Hm' & _ & Hshape).
  destruct Hshape as [(-> & _) | (r & ->)]; [exact I |].
  rewrite Hh in Hh'.
  assert (E2 : Z.land (hv sz pa al) 1 = Z.land (hv z pa al') 1)
    by (rewrite Hh'; reflexivity).
  rewrite !hv_alloc in E2 by (apply mod16_mod8; assumption).
  subst al. cbn [noadj] in *. destruct N as [_ N]. split; [| exact N].
  right. destruct al'; [reflexivity | discriminate].
Qed.

Lemma inv_same_frame s s' L L' :
  inv s L -> same_frame s s' ->
  mst (heap s') (first_block s) (free_start s) L' (Fr L') ->
  noadj true L' ->
  end_of (first_block s) L' = end_of (first_block s) L ->
  inv s' L'.
Proof.
  intros [Hbase Hfs Hpro Hm Hepi Hbrk Hmax Hna] Es Hm' Hna' Eend.
  destruct (same_frame_fields s s' Es) as (S1 & S2 & S3 & S4 & S5 & S6 & S7).
  assert (Ef : first_block s' = first_block s)
    by (unfold first_block; rewrite S1; reflexivity).
  constructor.
  - rewrite S1. exact Hbase.
  - rewrite S5, S1. exact Hfs.
  - rewrite S6, S1. exact Hpro.
  - rewrite Ef, S5. exact Hm'.
  - rewrite Ef, S7, Eend. exact Hepi.
  - rewrite Ef, S2, Eend. exact Hbrk.
  - rewrite S3. exact Hmax.
  - exact Hna'.
Qed.

(** ** mm_free *)

Lemma mm_free_spec (s : state) (L : list block) (ptr sz : Z) :
  inv s L -> In (ptr, sz, true) L ->
  exists s' L',
    mm_free s ptr = Some s' /\ same_frame s s' /\ inv s' L' /\
    (forall b z, In (b, z, true) L' <-> (In (b, z, true) L /\ b <> ptr)) /\
    (forall b z x, In (b, z, true) L -> b <> ptr -> b <= x < b + z - 8 ->
                   heap s' x = heap s x).
Proof.
  intros Hinv Hin.
  pose proof Hinv as [Hbase Hfs Hpro Hm Hepi Hbrk Hmax Hna].
  destruct (in_split _ _ Hin) as (l1 & l2 & ->).
  pose proof (mst_chain _ _ _ _ _ Hm) as Hch.
  pose proof (mst_end _ _ _ _ _ Hm) as Hend.
  pose proof (mst_fs _ _ _ _ _ Hm) as Hfs1.
  pose proof (reg_fs _ _ _ (mst_reg _ _ _ _ _ Hm)) as Hfs0.
  set (a0 := first_block s) in *. set (m := heap s) in *.
  set (fs := free_start s) in *.
  apply chain_app in Hch. destruct Hch as [Hseg1 Hch].
  apply (chain_app _ _ _ [(ptr, sz, true)]) in Hch.
  destruct Hch as [Hsegp Hch2]. cbn [seg end_of last_al] in Hsegp, Hch2.
  destruct Hsegp as (Eptr & H64 & Hmod & Hh & _ & _).
  rewrite <- Eptr in Hch2.
  destruct (chain_head _ _ _ _ Hch2) as (nsz & nal & Hnh & Hnmod & Hnsz & Hshape).
  pose proof Hch2 as [Hseg2 _].
  set (pa := last_al true l1) in *.
  rewrite end_of_app in Hend, Hbrk, Hepi. cbn [end_of] in Hend, Hbrk, Hepi.
  rewrite <- Eptr in Hend, Hbrk, Hepi.
  pose proof (seg_end_le _ _ _ _ Hseg1) as Hle1.
  pose proof (seg_end_le _ _ _ _ Hseg2) as Hle2.
  assert (Hn64 : nal = false -> 64 <= nsz /\ ptr + sz + nsz <= end_of (ptr + sz) l2).
  { intros ->. destruct Hshape as [(_ & _ & E) | (r & ->)]; [discriminate |].
    cbn [seg end_of] in *. destruct Hseg2 as (_ & ? & _ & _ & _ & Hr).
    apply seg_end_le in Hr. split; assumption. }
  assert (Hnb : ptr + sz + nsz <= end_of (ptr + sz) l2).
  { destruct Hshape as [(-> & -> & _) | (r & ->)]; [simpl; lia |].
    cbn [seg end_of] in *. destruct Hseg2 as (_ & ? & _ & _ & _ & Hr).
    apply seg_end_le in Hr. assumption. }
  set (v := hv sz pa false).
  set (m3 := PUT (PUT (PUT m (ptr - 8) v) (ptr + sz - 16) v)
                 (ptr + sz - 8) (hv nsz false nal)).
  set (m4 := if nal then m3 else PUT m3 (ptr + sz + nsz - 16) (hv nsz false false)).
  assert (Hv : 0 <= v < SIZE_MOD) by (apply hv_range; lia).
  assert (Hnv : forall al, 0 <= hv nsz false al < SIZE_MOD)
    by (intros; apply hv_range; lia).
  pose proof (Hnv true) as Hnvt. pose proof (Hnv false) as Hnvf.
  assert (Hrun : mm_free s ptr
                 = ('(s1, _) <- coalesce (with_heap s m4) ptr ;; Some s1)).
  { unfold mm_free. cbn zeta. fold m.
    assert (R2 : GET_SIZE m (HDRP ptr) = sz)
      by (unfold HDRP, WSIZE; eapply read_size; eauto).
    assert (R1 : GET_PREV_ALLOC m (HDRP ptr) = flag pa 2)
      by (unfold HDRP, WSIZE; eapply read_prev_alloc; eauto).
    assert (R3 : NEXT_BLOCK m ptr = ptr + sz)
      by (unfold NEXT_BLOCK; fold (HDRP ptr); rewrite R2; reflexivity).
    assert (R4 : GET_ALLOC m (HDRP (ptr + sz)) = flag nal 1)
      by (unfold HDRP, WSIZE; eapply read_alloc; eauto).
    assert (R5 : GET_SIZE m (HDRP (ptr + sz)) = nsz)
      by (unfold HDRP, WSIZE; eapply read_size; eauto).
    rewrite R3, R1, R2, R4, R5.
    change (PACK sz (flag pa 2) 0) with (PACK sz (flag pa 2) (flag false 1)).
    rewrite (PACK_flags sz pa false) by exact Hmod. fold v.
    change (PACK nsz 0 (flag nal 1)) with (PACK nsz (flag false 2) (flag nal 1)).
    rewrite (PACK_flags nsz false nal) by exact Hnmod.
    assert (F1 : FTRP (PUT m (ptr - 8) v) ptr = ptr + sz - 16).
    { unfold FTRP, HDRP, WSIZE, DWORD.
      rewrite (read_size _ _ sz pa false); auto. apply GET_PUT_same. exact Hv. }
    unfold HDRP, WSIZE. rewrite F1. fold m3.
    destruct nal; cbn [flag]; change (1 =? 0) with false; change (0 =? 0) with true;
      cbv iota.
    - reflexivity.
    - assert (F2 : FTRP m3 (ptr + sz) = ptr + sz + nsz - 16).
      { unfold FTRP, HDRP, WSIZE, DWORD.
        rewrite (read_size _ _ nsz false false); auto.
        unfold m3. apply GET_PUT_same. apply Hnv. }
      rewrite F2.
      change (PACK nsz 0 0) with (PACK nsz (flag false 2) (flag false 1)).
      rewrite PACK_flags by exact Hnmod. reflexivity. }
  assert (Hbytes : forall x,
            x < ptr - 8 \/
            (ptr <= x < ptr + sz - 16) \/
            (ptr + sz <= x /\ (nal = false -> x < ptr + sz + nsz - 16
                                            \/ ptr + sz + nsz - 8 <= x)) ->
            m4 x = m x).
  { intros x Hx. unfold m4, m3. destruct nal.
    - gp. reflexivity.
    - destruct (Hn64 eq_refl).
      assert (x < ptr + sz + nsz - 16 \/ ptr + sz + nsz - 8 <= x \/ x < ptr + sz) by lia.
      gp. reflexivity. }
  assert (Hm4 : mst m4 a0 fs (l1 ++ (ptr, sz, false) :: l2)
                    (Fr (l1 ++ (ptr, sz, true) :: l2))).
  { split.
    - apply chain_app. split.
      + eapply seg_frame; eauto. intros x Hx. apply Hbytes. lia.
      + rewrite <- Eptr. fold pa.
        apply chain_cons_intro; [reflexivity | lia | assumption | | |].
        * unfold m4, m3. destruct nal; [| destruct (Hn64 eq_refl)]; gp; reflexivity.
        * intros _. unfold m4, m3.
          destruct nal; [| destruct (Hn64 eq_refl)]; gp; reflexivity.
        * apply (chain_set_pa m m4 (ptr + sz) true false l2 nsz nal Hch2 Hnh Hnmod).
          -- unfold m4, m3. destruct nal; [| destruct (Hn64 eq_refl)]; gp;
               reflexivity.
          -- intros ->. unfold m4. gp. reflexivity.
          -- intros x Hx1 Hx2. apply Hbytes. right. right. auto.
    - eapply reg_agree; [exact (mst_reg _ _ _ _ _ Hm) |].
      intros x [Hx | (b & k & HF & Hx)]; apply Hbytes.
      + left. unfold a0, first_block in *. lia.
      + apply Fr_alloc in HF. destruct HF as [HF | HF].
        * destruct (Fr_range _ _ _ _ _ _ Hseg1 HF). lia.
        * destruct (Fr_range _ _ _ _ _ _ Hseg2 HF) as (Hb1 & Hb2 & _).
          right. right. split; [lia |]. intros ->.
          destruct Hshape as [(_ & _ & E) | (r & ->)]; [discriminate |].
          apply Fr_cons in HF. destruct HF as [(_ & -> & _) | HF].
          -- destruct (Hn64 eq_refl). lia.
          -- cbn [seg] in Hseg2. destruct Hseg2 as (_ & _ & _ & _ & _ & Hr).
             destruct (Fr_range _ _ _ _ _ _ Hr HF). lia.
    - intros b k HF. apply Fr_alloc in HF. apply Fr_free.
      destruct HF; auto.
    - exact Hfs1.
    - rewrite end_of_app. cbn [end_of]. rewrite <- Eptr. exact Hend. }
  destruct (coalesce_spec (with_heap s m4) a0 l1 ptr sz l2) as
    (s' & r & L' & Hres & Es & HmL & NL & EL & _ & PL & AL & _).
  { exact Hm4. }
  { exact Hna. }
  { cbn [mem_start_brk with_heap]. unfold a0, first_block. lia. }
  { cbn [mem_brk with_heap]. rewrite end_of_app. cbn [end_of].
    rewrite <- Eptr. lia. }
  rewrite end_of_app in EL. cbn [end_of] in EL. rewrite <- Eptr in EL.
  cbn [heap with_heap free_start] in *.
  assert (Es' : s' = with_heap s (heap s')) by (rewrite Es; reflexivity).
  exists s', L'. rewrite Hrun, Hres. cbn [bind].
  split; [reflexivity |]. split; [exact Es' |].
  assert (Hsame := same_frame_fields s s' Es').
  destruct Hsame as (S1 & S2 & S3 & S4 & S5 & S6 & S7).
  assert (Hne1 : forall b z al, In (b, z, al) l1 -> b < ptr).
  { intros b z al Hb.
    destruct (seg_In _ _ _ _ _ _ _ Hseg1 Hb) as (_ & ? & ? & _). lia. }
  assert (Hne2 : forall b z al, In (b, z, al) l2 -> ptr + sz <= b).
  { intros b z al Hb.
    destruct (seg_In _ _ _ _ _ _ _ Hseg2 Hb) as (? & _). lia. }
  split; [| split].
  - apply (inv_same_frame s s' _ L' Hinv Es' HmL NL).
    fold a0. rewrite EL, end_of_app. cbn [end_of]. rewrite <- Eptr. reflexivity.
  - intros b z. rewrite AL, !in_app_iff. cbn [In]. split.
    + intros [H | H].
      * split; [left; exact H |]. specialize (Hne1 _ _ _ H). lia.
      * split; [right; right; exact H |]. specialize (Hne2 _ _ _ H). lia.
    + intros [[H | [H | H]] Hne]; auto. inversion H. congruence.
  - intros b z x Hb Hne Hx.
    assert (Hb' : In (b, z, true) (l1 ++ l2)).
    { apply in_app_or in Hb. apply in_or_app.
      destruct Hb as [Hb | [Hb | Hb]]; auto. inversion Hb. congruence. }
    rewrite (PL b z x Hb' Hx). apply Hbytes.
    apply in_app_or in Hb'. destruct Hb' as [Hb' | Hb'].
    + destruct (seg_In _ _ _ _ _ _ _ Hseg1 Hb') as (_ & ? & ? & _). lia.
    + destruct (seg_In _ _ _ _ _ _ _ Hseg2 Hb') as (? & _).
      right. right. split; [lia |]. intros ->.
      destruct Hshape as [(_ & _ & E) | (r' & ->)]; [discriminate |].
      destruct Hb' as [E | Hb']; [inversion E |].
      cbn [seg] in Hseg2. destruct Hseg2 as (_ & _ & _ & _ & _ & Hr).
      destruct (seg_In _ _ _ _ _ _ _ Hr Hb') as (? & _). lia.
Qed.

(** ** place *)

Lemma place_spec (s : state) (L : list block) (ptr osz size : Z) :
  inv s L -> In (ptr, osz, false) L ->
  64 <= size <= osz -> size mod 16 = 0 ->
  exists s' L' asz,
    place s ptr size = Some (s', ptr) /\ same_frame s s' /\ inv s' L' /\
    size <= asz <= osz /\
    (forall b z, In (b, z, true) L' <-> (In (b, z, true) L \/ (b = ptr /\ z = asz))) /\
    pres L (heap s) (heap s') /\
    asz = (if osz - size >? 64 then size else osz) /\
    (osz - size > 64 -> In (ptr + size, osz - size, false) L').
Proof.
  intros Hinv Hin Hsize Hsmod.
  pose proof Hinv as [Hbase Hfs Hpro Hm Hepi Hbrk Hmax Hna].
  destruct (in_split _ _ Hin) as (l1 & l2 & ->).
  pose proof (mst_chain _ _ _ _ _ Hm) as Hch.
  pose proof (mst_end _ _ _ _ _ Hm) as Hend.
  pose proof (mst_fs _ _ _ _ _ Hm) as Hfs1.
  pose proof (reg_fs _ _ _ (mst_reg _ _ _ _ _ Hm)) as Hfs0.
  set (a0 := first_block s) in *. set (m := heap s) in *.
  set (fs := free_start s) in *.
  apply chain_app in Hch. destruct Hch as [Hseg1 Hch].
  apply (chain_app _ _ _ [(ptr, osz, false)]) in Hch.
  destruct Hch as [Hsegp Hch2]. cbn [seg end_of last_al] in Hsegp, Hch2.
  destruct Hsegp as (Eptr & H64 & Hmod & Hh & _ & _).
  rewrite <- Eptr in Hch2.
  apply noadj_app in Hna. destruct Hna as [N1 [Hpa N2]].
  assert (Hpa1 : last_al true l1 = true) by (destruct Hpa; [assumption | discriminate]).
  rewrite Hpa1 in *.
  destruct (chain_head _ _ _ _ Hch2) as (nsz & nal & Hnh & Hnmod & Hnsz & Hshape).
  assert (Hnal : nal = true).
  { destruct Hshape as [(_ & _ & E) | (r & ->)]; [exact E |].
    cbn [noadj] in N2. destruct N2 as [[E | E] _]; [discriminate | exact E]. }
  subst nal.
  pose proof Hch2 as [Hseg2 _].
  rewrite end_of_app in Hend, Hbrk, Hepi. cbn [end_of] in Hend, Hbrk, Hepi.
  rewrite <- Eptr in Hend, Hbrk, Hepi.
  pose proof (seg_end_le _ _ _ _ Hseg1) as Hle1.
  pose proof (seg_end_le _ _ _ _ Hseg2) as Hle2.
  assert (Hnb : ptr + osz + nsz <= end_of (ptr + osz) l2).
  { destruct Hshape as [(-> & -> & _) | (r & ->)]; [simpl; lia |].
    cbn [seg end_of] in *. destruct Hseg2 as (_ & ? & _ & _ & _ & Hr).
    apply seg_end_le in Hr. assumption. }
  assert (R2 : GET_SIZE m (HDRP ptr) = osz)
    by (unfold HDRP, WSIZE; eapply read_size; eauto).
  assert (R3 : NEXT_BLOCK m ptr = ptr + osz)
    by (unfold NEXT_BLOCK; fold (HDRP ptr); rewrite R2; reflexivity).
  assert (R5 : GET_SIZE m (HDRP (ptr + osz)) = nsz)
    by (unfold HDRP, WSIZE; eapply read_size; eauto).
  destruct (step_remove s a0 _ _ ptr (get_list osz) Hm) as [Hm1 Hp1].
  { apply Fr_free. right. right. auto. }
  fold m in Hp1.
  assert (Es1 : remove_block s ptr = with_heap s (heap (remove_block s ptr)))
    by reflexivity.
  set (s1 := remove_block s ptr) in *. set (m1 := heap s1) in *.
  pose proof (mst_chain _ _ _ _ _ Hm1) as Hch1.
  apply chain_app in Hch1. destruct Hch1 as [Hseg1' Hch1].
  apply (chain_app _ _ _ [(ptr, osz, false)]) in Hch1.
  destruct Hch1 as [_ Hch2']. cbn [seg end_of last_al] in Hch2'.
  rewrite <- Eptr in Hch2'.
  destruct (chain_head _ _ _ _ Hch2') as (nsz' & nal' & Hnh' & Hnmod' & _ & _).
  assert (Hnh1 : GET m1 (ptr + osz - 8) = hv nsz false true).
  { assert (E : GET m1 (ptr + osz - 8) = GET m (ptr + osz - 8)).
    { pose proof (mst_chain _ _ _ _ _ Hm) as [HsegL _].
      apply GET_ext. intros x Hx.
      destruct (remove_block_spec s ptr (get_list osz) _ (mst_reg _ _ _ _ _ Hm))
        as (_ & _ & Hfr).
      - apply Fr_free. right. right. auto.
      - fold m. rewrite R2. reflexivity.
      - apply Hfr. fold fs.
        destruct Hshape as [(-> & _) | (r & ->)].
        + eapply lnk_not_epilogue with (l := l1 ++ [(ptr, osz, false)]); eauto.
          * intros b k HF. apply Fr_block with (k := k). exact HF.
          * rewrite end_of_app. cbn [end_of]. rewrite <- Eptr. lia.
        + eapply lnk_not_hf with (b := ptr + osz); eauto.
          * intros b k HF. apply Fr_block with (k := k). exact HF.
          * apply in_or_app. right. right. left. reflexivity.
          * left. lia. }
    rewrite E. exact Hnh. }
  assert (Hf1 : forall F', (forall b k, F' b k -> Fr l1 b k \/ Fr l2 b k) ->
            forall x, lnk F' fs x -> x < ptr - 8 \/ ptr + osz <= x).
  { intros F' HF' x [Hx | (b & k & HF & Hx)].
    - left. lia.
    - destruct (HF' _ _ HF) as [H | H].
      + destruct (Fr_range _ _ _ _ _ _ Hseg1 H). left. lia.
      + destruct (Fr_range _ _ _ _ _ _ Hseg2 H). right. lia. }
  assert (HF1 : forall b k, (Fr (l1 ++ (ptr, osz, false) :: l2) b k /\ b <> ptr)
                            <-> Fr l1 b k \/ Fr l2 b k).
  { intros b k. apply Fr_without.
    - intros b' k' H. destruct (Fr_range _ _ _ _ _ _ Hseg1 H). lia.
    - intros b' k' H. destruct (Fr_range _ _ _ _ _ _ Hseg2 H). lia. }
  assert (Hpl1 : forall b z x, In (b, z, true) l1 -> b <= x < b + z - 8 -> x < ptr - 8).
  { intros b z x Hb Hx.
    destruct (seg_In _ _ _ _ _ _ _ Hseg1 Hb) as (_ & ? & _). lia. }
  assert (Hpl2 : forall b z x, In (b, z, true) l2 -> b <= x < b + z - 8 -> ptr + osz <= x).
  { intros b z x Hb Hx.
    destruct (seg_In _ _ _ _ _ _ _ Hseg2 Hb) as (? & _). lia. }
  assert (Hv : forall z p a, 0 <= z <= osz + nsz -> 0 <= hv z p a < SIZE_MOD)
    by (intros; apply hv_range; lia).
  unfold place. cbn zeta. fold m. rewrite R3, R5, R2.
  rewrite wrap_small by lia. fold s1. fold m1.
  change (Z.shiftl 1 6) with 64.
  destruct (Z.gtb_spec (osz - size) 64) as [Hsplit | Hwhole].
  - (* split *)
    set (frag := osz - size) in *.
    assert (Hfmod : frag mod 16 = 0).
    { unfold frag. rewrite Zminus_mod, Hmod, Hsmod. reflexivity. }
    change (PACK nsz 0 1) with (PACK nsz (flag false 2) (flag true 1)).
    change (PACK size 2 1) with (PACK size (flag true 2) (flag true 1)).
    change (PACK frag 2 0) with (PACK frag (flag true 2) (flag false 1)).
    rewrite !PACK_flags by assumption.
    unfold HDRP, WSIZE.
    set (m2 := PUT (PUT m1 (ptr + osz - 8) (hv nsz false true))
                   (ptr - 8) (hv size true true)).
    pose proof (Hv nsz false true ltac:(lia)).
    pose proof (Hv size true true ltac:(lia)).
    pose proof (Hv frag true false ltac:(lia)).
    assert (R6 : NEXT_BLOCK m2 ptr = ptr + size).
    { unfold NEXT_BLOCK, WSIZE. rewrite (read_size _ _ size true true); auto.
      unfold m2. gp. reflexivity. }
    rewrite R6.
    set (m3 := PUT m2 (ptr + size - 8) (hv frag true false)).
    assert (R7 : FTRP m3 (ptr + size) = ptr + osz - 16).
    { unfold FTRP, HDRP, WSIZE, DWORD.
      rewrite (read_size _ _ frag true false); auto; [unfold frag; lia |].
      unfold m3. gp. reflexivity. }
    rewrite R7.
    set (m4 := PUT m3 (ptr + osz - 16) (hv frag true false)).
    assert (Hbytes : forall x, x < ptr - 8 \/ ptr + osz <= x -> m4 x = m1 x).
    { intros x Hx. unfold m4, m3, m2. gp. reflexivity. }
    set (L2 := l1 ++ (ptr, size, true) :: (ptr + size, frag, false) :: l2).
    assert (Hm4 : mst m4 a0 fs L2
                      (fun b k => Fr (l1 ++ (ptr, osz, false) :: l2) b k /\ b <> ptr)).
    { split.
      - apply chain_app. split.
        + apply seg_frame with (m := m1); [exact Hseg1' |].
          intros x Hx. apply Hbytes. lia.
        + rewrite <- Eptr, Hpa1.
          apply chain_cons_intro; [reflexivity | lia | assumption | | |].
          * unfold m4, m3, m2. gp. reflexivity.
          * intros E. discriminate.
          * apply chain_cons_intro; [reflexivity | lia | assumption | | |].
            -- unfold m4, m3. gp. reflexivity.
            -- intros _. unfold m4.
               replace (ptr + size + frag - 16) with (ptr + osz - 16) by (unfold frag; lia).
               gp. reflexivity.
            -- replace (ptr + size + frag) with (ptr + osz) by (unfold frag; lia).
               apply (chain_set_pa m1 m4 (ptr + osz) false false l2 nsz true Hch2' Hnh1 Hnmod).
               ++ unfold m4, m3, m2. gp. reflexivity.
               ++ intros E. discriminate.
               ++ intros x Hx _. apply Hbytes. lia.
      - eapply reg_agree; [exact (mst_reg _ _ _ _ _ Hm1) |].
        intros x Hx. apply Hbytes. eapply Hf1; [| exact Hx].
        intros b k HF. apply HF1. exact HF.
      - intros b k HF. apply HF1 in HF. unfold L2.
        change ((ptr, size, true) :: (ptr + size, frag, false) :: l2)
          with ([(ptr, size, true)] ++ (ptr + size, frag, false) :: l2).
        rewrite app_assoc. apply Fr_free. rewrite Fr_app.
        destruct HF; auto.
      - exact Hfs1.
      - unfold L2. rewrite end_of_app. cbn [end_of]. rewrite <- Eptr.
        replace (ptr + size + frag) with (ptr + osz) by (unfold frag; lia).
        exact Hend. }
    assert (EndL2 : end_of a0 L2 = end_of (ptr + osz) l2).
    { unfold L2. rewrite end_of_app. cbn [end_of]. rewrite <- Eptr.
      f_equal. unfold frag. lia. }
    destruct (step_add (with_heap s1 m4) a0 L2 _ (ptr + size) (get_list frag) Hm4)
      as (s2 & Hs2 & Es2 & Hm5 & Hp5).
    + unfold L2.
      change ((ptr, size, true) :: (ptr + size, frag, false) :: l2)
        with ([(ptr, size, true)] ++ (ptr + size, frag, false) :: l2).
      rewrite app_assoc. apply Fr_free. right. right. auto.
    + intros k [HF Hne]. apply Fr_free in HF. destruct HF as [HF | [HF | [E _]]].
      * destruct (Fr_range _ _ _ _ _ _ Hseg1 HF). lia.
      * destruct (Fr_range _ _ _ _ _ _ Hseg2 HF). unfold frag in *. lia.
      * lia.
    + cbn [mem_start_brk with_heap]. unfold s1. cbn [mem_start_brk remove_block with_heap].
      unfold a0, first_block. lia.
    + cbn [mem_brk with_heap]. unfold s1. cbn [mem_brk remove_block with_heap].
      rewrite EndL2. lia.
    + rewrite Hs2. cbn [bind]. exists s2, L2, size.
      cbn [heap with_heap free_start] in *.
      assert (Es' : same_frame s s2).
      { unfold same_frame. rewrite Es2. unfold s1. reflexivity. }
      split; [reflexivity |]. split; [exact Es' |].
      split; [| split; [lia | split; [| split; [| split]]]].
      * apply (inv_same_frame s s2 _ L2 Hinv Es').
        -- destruct Hm5 as [C1 C2 C3 C4 C5]. split; auto.
           eapply reg_equiv; [| exact C2].
           intros b k. cbn beta. rewrite HF1. unfold L2.
           change ((ptr, size, true) :: (ptr + size, frag, false) :: l2)
             with ([(ptr, size, true)] ++ (ptr + size, frag, false) :: l2).
           rewrite app_assoc, Fr_free, Fr_app.
           split.
           ++ intros [[H2 | H2] | H2]; auto.
           ++ intros [[H2 | H2] | [H2 | H2]]; auto.
              apply Fr_cons in H2. destruct H2 as [(E & _) | H2]; [discriminate |].
              destruct (Fr_nil _ _ H2).
        -- unfold L2. apply noadj_app. split; [exact N1 |].
           rewrite Hpa1. cbn [noadj]. auto.
        -- fold a0. rewrite EndL2, end_of_app. cbn [end_of]. rewrite <- Eptr.
           reflexivity.
      * intros b z. unfold L2. rewrite !in_app_iff. cbn [In]. split.
        -- intros [H2 | [H2 | [H2 | H2]]]; auto.
           ++ inversion H2. auto.
           ++ inversion H2.
        -- intros [[H2 | [H2 | H2]] | [-> ->]]; auto. inversion H2.
      * eapply pres_trans; [exact Hp1 |].
        eapply pres_trans.
        -- intros b z x Hb Hx. apply Hbytes.
           apply in_app_or in Hb. destruct Hb as [Hb | [Hb | Hb]].
           ++ left. eapply Hpl1; eauto.
           ++ inversion Hb.
           ++ right. eapply Hpl2; eauto.
        -- eapply pres_sub; [| exact Hp5]. intros b z Hb. unfold L2.
           apply in_app_or in Hb. apply in_or_app.
           destruct Hb as [Hb | [Hb | Hb]]; auto.
           ++ inversion Hb.
           ++ right. right. right. exact Hb.
      * reflexivity.
      * intros _. unfold L2, frag. apply in_or_app. right. right. left.
        reflexivity.
  - (* the whole block *)
    change (PACK nsz 2 1) with (PACK nsz (flag true 2) (flag true 1)).
    change (PACK osz 2 1) with (PACK osz (flag true 2) (flag true 1)).
    rewrite !PACK_flags by assumption.
    unfold HDRP, WSIZE.
    set (m2 := PUT (PUT m1 (ptr + osz - 8) (hv nsz true true))
                   (ptr - 8) (hv osz true true)).
    pose proof (Hv nsz true true ltac:(lia)).
    pose proof (Hv osz true true ltac:(lia)).
    assert (Hbytes : forall x, x < ptr - 8 \/ ptr + osz <= x -> m2 x = m1 x).
    { intros x Hx. unfold m2. gp. reflexivity. }
    set (L2 := l1 ++ (ptr, osz, true) :: l2).
    exists (with_heap s1 m2), L2, osz.
    assert (Es' : same_frame s (with_heap s1 m2)) by reflexivity.
    split; [reflexivity |]. split; [exact Es' |].
    split; [| split; [lia | split; [| split; [| split]]]].
    + apply (inv_same_frame s _ _ L2 Hinv Es').
      * cbn [heap with_heap]. fold a0 fs. split.
        -- apply chain_app. split.
           ++ apply seg_frame with (m := m1); [exact Hseg1' |].
              intros x Hx. apply Hbytes. lia.
           ++ rewrite <- Eptr, Hpa1.
              apply chain_cons_intro; [reflexivity | lia | assumption | | |].
              ** unfold m2. gp. reflexivity.
              ** intros E. discriminate.
              ** apply (chain_set_pa m1 m2 (ptr + osz) false true l2 nsz true
                          Hch2' Hnh1 Hnmod).
                 --- unfold m2. gp. reflexivity.
                 --- intros E. discriminate.
                 --- intros x Hx _. apply Hbytes. lia.
        -- eapply reg_equiv; [| eapply reg_agree; [exact (mst_reg _ _ _ _ _ Hm1) |]].
           ++ intros b k. cbn beta. rewrite HF1. unfold L2. rewrite Fr_alloc.
              reflexivity.
           ++ intros x Hx. apply Hbytes. eapply Hf1; [| exact Hx].
              intros b k HF. apply HF1. exact HF.
        -- auto.
        -- exact Hfs1.
        -- unfold L2. rewrite end_of_app. cbn [end_of]. rewrite <- Eptr. exact Hend.
      * unfold L2. apply noadj_app. split; [exact N1 |].
        rewrite Hpa1. cbn [noadj]. split; [auto |]. apply noadj_weaken. exact N2.
      * fold a0. unfold L2. rewrite !end_of_app. reflexivity.
    + intros b z. unfold L2. rewrite !in_app_iff. cbn [In]. split.
      * intros [H2 | [H2 | H2]]; auto. inversion H2. auto.
      * intros [[H2 | [H2 | H2]] | [-> ->]]; auto. inversion H2.
    + cbn [heap with_heap]. eapply pres_trans; [exact Hp1 |].
      intros b z x Hb Hx. apply Hbytes.
      apply in_app_or in Hb. destruct Hb as [Hb | [Hb | Hb]].
      * left. eapply Hpl1; eauto.
      * inversion Hb.
      * right. eapply Hpl2; eauto.
    + reflexivity.
    + intros Hc. lia.
Qed.

(** ** extend_heap *)

Lemma inv_block_pos s L b z al : inv s L -> In (b, z, al) L -> 0 < b.
Proof.
  intros Hinv Hin. destruct (mst_chain _ _ _ _ _ (inv_mst _ _ Hinv)) as [Hseg _].
  destruct (seg_In _ _ _ _ _ _ _ Hseg Hin) as (H1 & _).
  pose proof (inv_base _ _ Hinv). unfold first_block in *. lia.
Qed.

Lemma extend_heap_spec (s : state) (L : list block) (words : Z) :
  inv s L -> 0 <= words -> words mod 2 = 0 -> 64 <= words * 8 ->
  words * 8 < SIZE_MOD ->
  if mem_brk s + words * 8 <=? mem_max_addr s then
    exists s' L' r rsz,
      extend_heap s words = Some (s', r) /\ inv s' L' /\ r <> 0 /\
      In (r, rsz, false) L' /\ words * 8 <= rsz /\
      (forall b z, In (b, z, true) L' <-> In (b, z, true) L) /\
      pres L (heap s) (heap s') /\
      mem_start_brk s' = mem_start_brk s /\ mem_max_addr s' = mem_max_addr s /\
      heap_start s' = heap_start s
  else extend_heap s words = Some (s, NULL).
Proof.
  intros Hinv Hw Heven H64 Hbound.
  pose proof Hinv as [Hbase Hfs Hpro Hm Hepi Hbrk Hmax Hna].
  pose proof (mst_chain _ _ _ _ _ Hm) as [Hseg Hep].
  pose proof (mst_fs _ _ _ _ _ Hm) as Hfs1.
  pose proof (reg_fs _ _ _ (mst_reg _ _ _ _ _ Hm)) as Hfs0.
  pose proof (seg_end_le _ _ _ _ Hseg) as Hle.
  set (a0 := first_block s) in *. set (m := heap s) in *.
  set (fs := free_start s) in *. set (e := end_of a0 L) in *.
  set (pa := last_al true L) in *. set (size := words * 8) in *.
  assert (Hsmod : size mod 16 = 0).
  { unfold size. apply Z.mod_divide in Heven; [| lia]. destruct Heven as [c ->].
    replace (c * 2 * 8) with (c * 16) by lia. apply Z.mod_mul. lia. }
  unfold extend_heap. cbn zeta.
  rewrite Heven. change (negb (0 =? 0)) with false. cbv iota.
  unfold WSIZE. fold size. rewrite wrap_small by lia.
  unfold mem_sbrk.
  destruct (Z.leb_spec (mem_brk s + size) (mem_max_addr s)) as [Hok | Hno].
  2:{ reflexivity. }
  assert (Hept : 0 < e) by (unfold a0, first_block in *; lia).
  rewrite Hbrk. fold a0 e.
  destruct (Z.eqb_spec e (-1)) as [E | _]; [lia |].
  cbn [heap with_brk heap_epilogue]. fold m. rewrite Hepi. fold a0 e.
  assert (R1 : GET_PREV_ALLOC m (e - 8) = flag pa 2).
  { eapply read_prev_alloc; [exact Hep | reflexivity]. }
  rewrite R1.
  change (PACK size (flag pa 2) 0) with (PACK size (flag pa 2) (flag false 1)).
  rewrite PACK_flags by exact Hsmod.
  change (PACK 0 0 1) with (hv 0 false true).
  unfold HDRP, WSIZE.
  set (v := hv size pa false).
  assert (Hv : 0 <= v < SIZE_MOD) by (apply hv_range; lia).
  assert (Hv0 : 0 <= hv 0 false true < SIZE_MOD) by (apply hv_range; lia).
  set (m1 := PUT m (e - 8) v).
  assert (R2 : FTRP m1 e = e + size - 16).
  { unfold FTRP, HDRP, WSIZE, DWORD. rewrite (read_size _ _ size pa false); auto.
    unfold m1. gp. reflexivity. }
  rewrite R2. set (m2 := PUT m1 (e + size - 16) v).
  assert (R3 : NEXT_BLOCK m2 e = e + size).
  { unfold NEXT_BLOCK, WSIZE. rewrite (read_size _ _ size pa false); auto.
    unfold m2, m1. gp. reflexivity. }
  rewrite R3. set (m3 := PUT m2 (e + size - 8) (hv 0 false true)).
  assert (R4 : NEXT_BLOCK m3 e = e + size).
  { unfold NEXT_BLOCK, WSIZE. rewrite (read_size _ _ size pa false); auto.
    unfold m3, m2, m1. gp. reflexivity. }
  rewrite R4.
  set (s2 := with_heap_epilogue (with_heap (with_brk s (e + size)) m3) (e + size - 8)).
  assert (Hbytes : forall x, x < e - 8 -> m3 x = m x).
  { intros x Hx. unfold m3, m2, m1. gp. reflexivity. }
  set (L2 := L ++ [(e, size, false)]).
  assert (EndL2 : end_of a0 L2 = e + size).
  { unfold L2. rewrite end_of_snoc. reflexivity. }
  assert (Hm3 : mst m3 a0 fs L2 (Fr L)).
  { split.
    - apply chain_app. split.
      + apply seg_frame with (m := m); [exact Hseg |].
        intros x Hx. apply Hbytes. fold e in Hx. lia.
      + fold e pa. apply chain_cons_intro; [reflexivity | lia | assumption | | |].
        * unfold m3, m2, m1. gp. reflexivity.
        * intros _. unfold m3, m2. gp. reflexivity.
        * split; [exact I |]. cbn [end_of last_al]. unfold m3. gp. reflexivity.
    - eapply reg_agree; [exact (mst_reg _ _ _ _ _ Hm) |].
      intros x [Hx | (b & k & HF & Hx)]; apply Hbytes.
      + lia.
      + destruct (Fr_range _ _ _ _ _ _ Hseg HF). fold e in H0. lia.
    - intros b k HF. apply Fr_app. left. exact HF.
    - exact Hfs1.
    - rewrite EndL2. lia. }
  assert (Hfin : forall s' L' ,
            s' = with_heap s2 (heap s') ->
            mst (heap s') a0 fs L' (Fr L') -> noadj true L' ->
            end_of a0 L' = e + size ->
            inv s' L').
  { intros s' L' Es HmL NL EL.
    destruct (same_frame_fields s2 s' Es) as (S1 & S2 & S3 & S4 & S5 & S6 & S7).
    assert (Ef : first_block s' = a0) by (unfold first_block; rewrite S1; reflexivity).
    constructor.
    - rewrite S1. exact Hbase.
    - rewrite S5, S1. exact Hfs.
    - rewrite S6, S1. exact Hpro.
    - rewrite Ef, S5. exact HmL.
    - rewrite Ef, S7, EL. reflexivity.
    - rewrite Ef, S2, EL. reflexivity.
    - rewrite S3. exact Hmax.
    - exact NL. }
  assert (HpL : pres L m m3).
  { intros b z x Hb Hx. apply Hbytes.
    destruct (seg_In _ _ _ _ _ _ _ Hseg Hb) as (_ & ? & _). fold e in H. lia. }
  destruct pa eqn:Epa; cbn [flag]; change (2 =? 0) with false;
    change (0 =? 0) with true; cbn [negb]; cbv iota.
  - (* the last block is allocated: list the new block *)
    destruct (step_add s2 a0 L2 (Fr L) e (get_list size) Hm3)
      as (s3 & Hs3 & Es3 & Hm4 & Hp4).
    + apply Fr_app. right. apply Fr_cons. left. auto.
    + intros k HF. destruct (Fr_range _ _ _ _ _ _ Hseg HF). fold e in H0. lia.
    + cbn. unfold a0, first_block. lia.
    + cbn. rewrite EndL2. lia.
    + rewrite Hs3. cbn [bind]. exists s3, L2, e, size.
      split; [reflexivity |]. split; [| split; [lia | split; [| split; [lia | split; [| split]]]]].
      * apply Hfin; auto.
        -- destruct Hm4 as [C1 C2 C3 C4 C5]. split; auto.
           eapply reg_equiv; [| exact C2]. intros b k. unfold L2.
           rewrite Fr_app, Fr_cons. split.
           ++ intros [H | [-> ->]]; auto.
           ++ intros [H | [(_ & -> & ->) | H]]; auto. destruct (Fr_nil _ _ H).
        -- unfold L2. apply noadj_app. split; [exact Hna |].
           fold pa. rewrite Epa. cbn [noadj]. auto.
      * unfold L2. apply in_or_app. right. left. reflexivity.
      * intros b z. unfold L2. rewrite in_app_iff. cbn [In]. split.
        -- intros [H | [H | []]]; auto. inversion H.
        -- auto.
      * eapply pres_trans; [exact HpL |].
        eapply pres_sub; [| exact Hp4]. intros b z Hb. unfold L2.
        apply in_or_app. left. exact Hb.
      * rewrite Es3. repeat split; reflexivity.
  - (* the last block is free: merge *)
    destruct (coalesce_spec s2 a0 L e size []) as
      (s' & r & L' & Hres & Es & HmL & NL & EL & _ & PL & AL & (rsz & Hr1 & Hr2 & Hr3)).
    + destruct Hm3 as [C1 C2 C3 C4 C5]. split; auto.
      * eapply reg_equiv; [| exact C2]. intros b k. rewrite Fr_alloc. split.
        -- auto.
        -- intros [H | H]; auto. destruct (Fr_nil _ _ H).
      * intros b k HF. apply Fr_alloc in HF. apply Fr_app.
        destruct HF as [H | H]; auto. destruct (Fr_nil _ _ H).
    + apply noadj_app. split; [exact Hna |]. cbn [noadj]. auto.
    + cbn. unfold a0, first_block. lia.
    + change (end_of a0 L2 <= e + size). rewrite EndL2. lia.
    + rewrite Hres. exists s', L', r, rsz. fold L2 in EL. rewrite EndL2 in EL.
      split; [reflexivity |].
      assert (Hinv' : inv s' L') by (apply Hfin; auto).
      split; [exact Hinv' |].
      split; [pose proof (inv_block_pos _ _ _ _ _ Hinv' Hr1); lia |].
      split; [exact Hr1 |]. split; [lia |].
      split; [| split].
      * intros b z. rewrite AL, app_nil_r. reflexivity.
      * eapply pres_trans; [exact HpL |].
        rewrite app_nil_r in PL. exact PL.
      * rewrite Es. repeat split; reflexivity.
Qed.

(** ** find_fit *)

Lemma find_fit_list_spec (m : mem) (size : Z) (l : list Z) :
  forall prev lo (fuel : nat),
    0 <= lo -> asc lo l -> dlseg m prev l 0 -> (length l < fuel)%nat ->
    exists p, find_fit_list fuel m size (hd0 l 0) = Some p /\
              (p = 0 \/ (In p l /\ size <= GET_SIZE m (HDRP p))).
Proof.
  induction l as [| x r IH]; intros prev lo fuel Hlo Hasc Hdl Hfuel.
  - destruct fuel as [| f]; [simpl in Hfuel; lia |].
    exists 0. cbn [find_fit_list hd0]. unfold NULL. rewrite Z.eqb_refl. auto.
  - destruct fuel as [| f]; [simpl in Hfuel; lia |].
    destruct Hasc as [Hx Hasc]. destruct Hdl as (_ & Hn & Hdl).
    cbn [find_fit_list hd0]. unfold NULL.
    destruct (Z.eqb_spec x 0) as [E | _]; [lia |].
    destruct (Z.leb_spec size (GET_SIZE m (HDRP x))) as [Hfit | Hno].
    + exists x. split; [reflexivity |]. right. split; [left; reflexivity | exact Hfit].
    + unfold NEXT_FLIST_ADDRESS. rewrite Hn.
      destruct (IH x x f) as (p & Hp & Hres); auto; try lia.
      * simpl in Hfuel. lia.
      * exists p. split; [exact Hp |].
        destruct Hres as [E | [Hin Hsz]]; [left; exact E | right].
        split; [right; exact Hin | exact Hsz].
Qed.

Lemma find_fit_lists_spec (s : state) (L : list block) (size : Z) (n : nat) :
  inv s L ->
  forall k, 0 <= k -> 16 <= k + Z.of_nat n ->
    exists p, find_fit_lists n s size k = Some p /\
              (p = 0 \/ exists z, In (p, z, false) L /\ size <= z).
Proof.
  intros Hinv.
  pose proof Hinv as [Hbase Hfs Hpro Hm Hepi Hbrk Hmax Hna].
  pose proof (mst_chain _ _ _ _ _ Hm) as [Hseg _].
  induction n as [| n IH]; intros k Hk Hn.
  - cbn [find_fit_lists]. unfold MAX_LISTS.
    destruct (Z.ltb_spec k 16); [lia |]. exists 0. auto.
  - cbn [find_fit_lists]. unfold MAX_LISTS.
    destruct (Z.ltb_spec k 16) as [Hlt | Hge]; [| exists 0; auto].
    destruct (reg_buckets _ _ _ (mst_reg _ _ _ _ _ Hm) k ltac:(lia))
      as (l & Hasc & Hroot & Hdl & Hmem).
    unfold GET_ROOT, WSIZE. rewrite Hroot.
    destruct (find_fit_list_spec (heap s) size l 0 0 (walk_fuel s))
      as (p & Hp & Hres); auto; try lia.
    { assert (Hlen : Z.of_nat (length l)
                     <= Z.max 0 (mem_brk s - 64 - mem_start_brk s)).
      { apply asc_length.
        - eapply asc_from; eauto. intros x Hx. apply Hmem in Hx.
          destruct (Fr_range _ _ _ _ _ _ Hseg Hx). unfold first_block in *. lia.
        - intros x Hx. apply Hmem in Hx.
          destruct (Fr_range _ _ _ _ _ _ Hseg Hx) as (_ & ? & _). lia. }
      unfold walk_fuel. lia. }
    rewrite Hp. cbn [bind]. unfold NULL.
    destruct (Z.eqb_spec p 0) as [E | Hne].
    + apply IH; lia.
    + exists p. split; [reflexivity |]. right.
      destruct Hres as [E | [Hin Hsz]]; [contradiction |].
      apply Hmem in Hin. destruct Hin as (z & Hin & _).
      exists z. split; [exact Hin |].
      rewrite (mst_hdr_size _ _ _ _ _ _ _ _ Hm Hin) in Hsz. exact Hsz.
Qed.

Lemma find_fit_spec (s : state) (L : list block) (size : Z) :
  inv s L -> 0 <= size ->
  exists p, find_fit s size = Some p /\
            (p = 0 \/ exists z, In (p, z, false) L /\ size <= z).
Proof.
  intros Hinv Hsize. unfold find_fit.
  apply find_fit_lists_spec with (L := L); auto.
  - apply get_list_range. exact Hsize.
  - pose proof (get_list_range size Hsize). simpl. lia.
Qed.

(** ** mm_malloc *)

Lemma round_size_spec (n : Z) :
  request_ok n ->
  64 <= round_size n /\ round_size n mod 16 = 0 /\
  n + 16 <= round_size n /\ (32 < n -> round_size n <= n + 31).
Proof.
  intros [Hn Hb]. unfold round_size, DWORD.
  destruct (Z.leb_spec n 32) as [Hle | Hgt].
  - repeat split; lia.
  - rewrite wrap_small by lia.
    replace (n + 16 + (16 - 1)) with (n + 31) by lia.
    pose proof (Z.div_mod (n + 31) 16 ltac:(lia)) as Hdm.
    pose proof (Z.mod_pos_bound (n + 31) 16 ltac:(lia)) as Hmb.
    repeat split; try lia.
    rewrite Z.mul_comm. apply Z.mod_mul. lia.
Qed.

Lemma mm_malloc_spec (s : state) (L : list block) (n : Z) :
  inv s L -> request_ok n -> n <> 0 ->
  malloc_post s L (round_size n) (mm_malloc s n).
Proof.
  intros Hinv Hreq Hn0.
  destruct (round_size_spec n Hreq) as (H64 & Hmod & Hnle & _).
  set (size := round_size n) in *.
  unfold mm_malloc. destruct (Z.eqb_spec n 0) as [E | _]; [contradiction |].
  cbn zeta. fold size.
  destruct (find_fit_spec s L size Hinv ltac:(lia)) as (p & Hp & Hres).
  rewrite Hp. cbn [bind]. unfold NULL.
  pose proof (mst_chain _ _ _ _ _ (inv_mst _ _ Hinv)) as [Hseg _].
  destruct (Z.eqb_spec p 0) as [-> | Hne]; cbn [negb]; cbv iota.
  - (* no fit: extend the heap *)
    set (ext := MAX size CHUNKSIZE) in *.
    assert (Hext : size <= ext /\ 256 <= ext /\ ext mod 16 = 0 /\
                   (ext = size \/ ext = 256)).
    { unfold ext, MAX. change CHUNKSIZE with 256.
      destruct (Z.gtb_spec size 256); repeat split; try lia; auto. }
    destruct Hext as (He1 & He2 & He3 & He4).
    unfold WSIZE.
    assert (Hwords : ext / 8 * 8 = ext /\ (ext / 8) mod 2 = 0).
    { apply Z.mod_divide in He3; [| lia]. destruct He3 as [c Hc].
      rewrite Hc. replace (c * 16) with (c * 2 * 8) by lia.
      rewrite Z.div_mul by lia. split; [lia |].
      apply Z.mod_mul. lia. }
    destruct Hwords as [Hw1 Hw2].
    assert (H256 : 256 < SIZE_MOD) by (unfold SIZE_MOD; lia).
    assert (Hsz : size < SIZE_MOD).
    { destruct (round_size_spec n Hreq) as (_ & _ & _ & Hup).
      fold size in Hup. destruct Hreq as [Hn Hb].
      destruct (Z.le_gt_cases n 32) as [Hle | Hgt]; [| lia].
      unfold size, round_size. destruct (Z.leb_spec n 32); lia. }
    pose proof (extend_heap_spec s L (ext / 8) Hinv) as Hx.
    rewrite Hw1 in Hx.
    specialize (Hx ltac:(apply Z.div_pos; lia) Hw2 ltac:(lia) ltac:(lia)).
    destruct (Z.leb_spec (mem_brk s + ext) (mem_max_addr s)) as [Hok | Hno].
    + destruct Hx as (s1 & L1 & r & rsz & Hrun & Hinv1 & Hr0 & Hr1 & Hr2 & AL1 & PL1 & S1 & S2 & S3).
      rewrite Hrun. cbn [bind].
      destruct (Z.eqb_spec r 0) as [E | _]; [contradiction |].
      destruct (place_spec s1 L1 r rsz size Hinv1 Hr1 ltac:(lia) Hmod)
        as (s2 & L2 & asz & Hpl & Es2 & Hinv2 & Hasz & AL2 & PL2 & _).
      rewrite Hpl. cbn [bind].
      exists s2, r. split; [reflexivity |]. right.
      split; [exact Hr0 |]. split; [intros _; exact Hok |].
      exists L2, asz.
      destruct (same_frame_fields s1 s2 Es2) as (T1 & T2 & T3 & T4 & T5 & T6 & T7).
      pose proof (mst_chain _ _ _ _ _ (inv_mst _ _ Hinv1)) as [Hseg1 _].
      split; [exact Hinv2 |].
      split; [apply AL2; right; auto |]. split; [lia |].
      split; [| split; [| split; [| split; [| split]]]].
      * intros z0 Hz0. apply AL1 in Hz0.
        destruct (seg_functional _ _ _ _ _ _ _ _ _ Hseg1 Hr1 Hz0) as [_ E].
        discriminate.
      * intros b z0. rewrite AL2, AL1. reflexivity.
      * eapply pres_trans; [exact PL1 |].
        eapply pres_sub; [| exact PL2]. intros b z0 Hb. apply AL1. exact Hb.
      * rewrite T1. exact S1.
      * rewrite T3. exact S2.
      * rewrite T4. exact S3.
    + rewrite Hx. cbn [bind]. unfold NULL. rewrite Z.eqb_refl.
      exists s, 0. split; [reflexivity |]. left. auto.
  - (* a fit was found *)
    destruct Hres as [E | (z & Hin & Hz)]; [contradiction |].
    destruct (place_spec s L p z size Hinv Hin ltac:(lia) Hmod)
      as (s2 & L2 & asz & Hpl & Es2 & Hinv2 & Hasz & AL2 & PL2 & _).
    rewrite Hpl. cbn [bind].
    exists s2, p. split; [reflexivity |]. right.
    split; [exact Hne |]. split; [intros E; congruence |].
    exists L2, asz.
    destruct (same_frame_fields s s2 Es2) as (T1 & T2 & T3 & T4 & T5 & T6 & T7).
    split; [exact Hinv2 |].
    split; [apply AL2; right; auto |]. split; [lia |].
    split; [| split; [| split; [| split; [| split]]]]; auto.
    intros z0 Hz0.
    destruct (seg_functional _ _ _ _ _ _ _ _ _ Hseg Hin Hz0) as [_ E].
    discriminate.
Qed.

(** ** Writes of the client and of memcpy *)

(** Bytes written inside the payload of an allocated block leave the
    invariant as it is. *)
Lemma inv_payload_frame (s : state) (L : list block) (m' : mem) (q zq : Z) :
  inv s L -> In (q, zq, true) L ->
  (forall x, ~ (q <= x < q + zq - 8) -> m' x = heap s x) ->
  inv (with_heap s m') L.
Proof.
  intros Hinv Hq Hag.
  pose proof (inv_mst _ _ Hinv) as Hm.
  pose proof (mst_chain _ _ _ _ _ Hm) as Hch. pose proof Hch as [Hseg _].
  destruct (seg_In _ _ _ _ _ _ _ Hseg Hq) as (Hq1 & Hq2 & Hq3 & _).
  apply (inv_same_frame s _ L L Hinv); [reflexivity | | exact (inv_noadj _ _ Hinv) | reflexivity].
  cbn [heap with_heap]. destruct Hm as [C1 C2 C3 C4 C5]. split; auto.
  - eapply chain_frame; [exact Hch | |].
    + intros b z al Hb x Hx. apply Hag.
      destruct (seg_In _ _ _ _ _ _ _ Hseg Hb) as (Hb1 & Hb2 & Hb3 & _).
      destruct (seg_disjoint _ _ _ _ _ _ _ _ _ _ Hseg Hb Hq) as [E | Hd].
      * inversion E; subst. destruct Hx as [Hx | [E' _]]; [lia | discriminate].
      * destruct Hx as [Hx | [_ Hx]]; lia.
    + intros x Hx. apply Hag. lia.
  - eapply reg_agree; [exact C2 |]. intros x Hx. apply Hag. intros Hpay.
    eapply lnk_not_payload with (l := L) (b := q); eauto.
    intros b k HF. destruct HF as (z & Hin & _). eauto.
Qed.

Lemma memcpy_outside (k : nat) :
  forall m dst src x,
    x < dst \/ dst + Z.of_nat k <= x -> memcpy_loop k m dst src x = m x.
Proof.
  induction k as [| k IH]; intros m dst src x Hx; cbn [memcpy_loop];
    [reflexivity |].
  rewrite IH by lia. unfold upd.
  destruct (Z.eqb_spec x dst); [lia | reflexivity].
Qed.

Lemma memcpy_copied (k : nat) :
  forall m dst src i,
    0 <= i < Z.of_nat k ->
    (forall j, 0 <= j <= i -> src + i < dst + j \/ dst + Z.of_nat k <= src + i) ->
    memcpy_loop k m dst src (dst + i) = m (src + i).
Proof.
  induction k as [| k IH]; intros m dst src i Hi Hsrc; [simpl in Hi; lia |].
  cbn [memcpy_loop].
  destruct (Z.eq_dec i 0) as [-> | Hne].
  - rewrite memcpy_outside by lia. unfold upd.
    rewrite Z.add_0_r, Z.eqb_refl. f_equal. lia.
  - replace (dst + i) with (dst + 1 + (i - 1)) by lia.
    rewrite IH.
    + unfold upd. replace (src + 1 + (i - 1)) with (src + i) by lia.
      destruct (Z.eqb_spec (src + i) dst) as [E | _]; [| reflexivity].
      specialize (Hsrc 0 ltac:(lia)). lia.
    + lia.
    + intros j Hj. specialize (Hsrc (j + 1) ltac:(lia)). lia.
Qed.

Lemma chain_cons_inv m a pa b sz al r :
  chain m a pa ((b, sz, al) :: r) ->
  b = a /\ 64 <= sz /\ sz mod 16 = 0 /\
  GET m (b - 8) = hv sz pa al /\
  (al = false -> GET m (b + sz - 16) = hv sz pa false) /\
  chain m (b + sz) al r.
Proof.
  intros [Hseg Hepi]. cbn [seg] in Hseg.
  destruct Hseg as (-> & H64 & Hmod & Hh & Hf & Hr).
  repeat split; auto.
Qed.

(** ** mm_realloc *)

Lemma realloc_same_refl (s : state) (L : list block) (p z n : Z) :
  inv s L -> In (p, z, true) L -> n + 16 <= z ->
  realloc_same s L p z n s.
Proof.
  intros Hinv Hin Hn. exists L, z.
  pose proof (mst_chain _ _ _ _ _ (inv_mst _ _ Hinv)) as [Hseg _].
  split; [exact Hinv |]. split; [exact Hin |]. split; [exact Hn |].
  split; [lia |]. split; [| split; [apply pres_refl | destruct s; reflexivity]].
  intros b z0. split.
  - intros Hb. destruct (Z.eq_dec b p) as [-> | Hne]; [right | left; auto].
    destruct (seg_functional _ _ _ _ _ _ _ _ _ Hseg Hin Hb) as [E _]. auto.
  - intros [[Hb _] | [-> ->]]; auto.
Qed.

(** Growing in place: the free successor is taken out of its list and
    becomes part of the block. *)
Lemma realloc_absorb_spec (s : state) l1 p z nsz l2 n :
  inv s (l1 ++ (p, z, true) :: (p + z, nsz, false) :: l2) ->
  n + 16 <= z + nsz ->
  let m := heap s in
  let s1 := remove_block s (p + z) in
  let m1 := PUT (heap s1) (HDRP p)
                (PACK (z + nsz) (GET_PREV_ALLOC m (HDRP p)) 1) in
  let m2 := PUT m1 (HDRP (NEXT_BLOCK m1 p))
                (PACK (GET_SIZE m1 (HDRP (NEXT_BLOCK m1 p))) 2 1) in
  realloc_same s (l1 ++ (p, z, true) :: (p + z, nsz, false) :: l2) p z n
               (with_heap s1 m2) /\
  inv (with_heap s1 m2) (l1 ++ (p, z + nsz, true) :: l2) /\
  GET_PREV_ALLOC m2 (HDRP (p + z + nsz)) = 2.
Proof.
  intros Hinv Hn m s1 m1 m2.
  pose proof Hinv as [Hbase Hfs Hpro Hm Hepi Hbrk Hmax Hna].
  set (L := l1 ++ (p, z, true) :: (p + z, nsz, false) :: l2) in *.
  pose proof (mst_chain _ _ _ _ _ Hm) as Hch.
  pose proof (mst_end _ _ _ _ _ Hm) as Hend.
  pose proof (mst_fs _ _ _ _ _ Hm) as Hfs1.
  pose proof (reg_fs _ _ _ (mst_reg _ _ _ _ _ Hm)) as Hfs0.
  set (a0 := first_block s) in *. set (fs := free_start s) in *.
  fold m in Hm, Hch.
  assert (HFnb : Fr L (p + z) (get_list nsz)).
  { unfold L. apply Fr_alloc. right. apply Fr_cons. left. auto. }
  destruct (step_remove s a0 L _ (p + z) (get_list nsz) Hm HFnb) as [Hm1 Hp1].
  fold s1 in Hm1, Hp1. fold m in Hp1.
  pose proof (mst_chain _ _ _ _ _ Hm1) as Hch1. unfold L in Hch1.
  apply chain_app in Hch1. destruct Hch1 as [Hseg1 Hch1].
  apply chain_cons_inv in Hch1.
  destruct Hch1 as (Ep & H64 & Hmod & Hh1 & _ & Hch1).
  apply chain_cons_inv in Hch1.
  destruct Hch1 as (_ & Hn64 & Hnmod & Hnh1 & _ & Hch2).
  unfold L in Hch. apply chain_app in Hch. destruct Hch as [_ Hch].
  apply chain_cons_inv in Hch. destruct Hch as (_ & _ & _ & Hh & _ & _).
  set (pa := last_al true l1) in *.
  unfold L in Hna. apply noadj_app in Hna. destruct Hna as [N1 [_ [_ N2]]].
  cbn [last_al] in N2.
  destruct (chain_head _ _ _ _ Hch2) as (nnsz & nnal & Hnnh & Hnnmod & Hnnsz & Hshape).
  assert (Hnnal : nnal = true).
  { destruct Hshape as [(_ & _ & E) | (r & E)]; [exact E |].
    rewrite E in N2. cbn [noadj] in N2.
    destruct N2 as [[E' | E'] _]; [discriminate | exact E']. }
  subst nnal.
  pose proof Hch2 as [Hseg2 _].
  unfold L in Hend, Hbrk, Hepi.
  rewrite end_of_app in Hend, Hbrk, Hepi. cbn [end_of] in Hend, Hbrk, Hepi.
  rewrite <- Ep in Hend, Hbrk, Hepi.
  pose proof (seg_end_le _ _ _ _ Hseg1) as Hle1.
  pose proof (seg_end_le _ _ _ _ Hseg2) as Hle2.
  assert (Hnb : p + z + nsz + nnsz <= end_of (p + z + nsz) l2).
  { destruct Hshape as [(-> & -> & _) | (r & ->)]; [simpl; lia |].
    cbn [seg end_of] in *. destruct Hseg2 as (_ & ? & _ & _ & _ & Hr).
    apply seg_end_le in Hr. assumption. }
  assert (R1 : GET_PREV_ALLOC m (HDRP p) = flag pa 2)
    by (unfold HDRP, WSIZE; eapply read_prev_alloc; eauto).
  assert (Htmod : (z + nsz) mod 16 = 0)
    by (rewrite Z.add_mod, Hmod, Hnmod by lia; reflexivity).
  assert (Em1 : m1 = PUT (heap s1) (p - 8) (hv (z + nsz) pa true)).
  { unfold m1. rewrite R1.
    change (PACK (z + nsz) (flag pa 2) 1) with (PACK (z + nsz) (flag pa 2) (flag true 1)).
    rewrite PACK_flags by exact Htmod. reflexivity. }
  assert (Hv1 : 0 <= hv (z + nsz) pa true < SIZE_MOD) by (apply hv_range; lia).
  assert (Hv2 : 0 <= hv nnsz true true < SIZE_MOD) by (apply hv_range; lia).
  assert (R2 : NEXT_BLOCK m1 p = p + z + nsz).
  { unfold NEXT_BLOCK, WSIZE. rewrite (read_size _ _ (z + nsz) pa true); auto; [lia |].
    rewrite Em1. gp. reflexivity. }
  assert (R3 : GET_SIZE m1 (HDRP (p + z + nsz)) = nnsz).
  { unfold HDRP, WSIZE. apply (read_size _ _ nnsz false true); auto.
    rewrite Em1. gp. exact Hnnh. }
  assert (Em2 : m2 = PUT m1 (p + z + nsz - 8) (hv nnsz true true)).
  { unfold m2. rewrite R2, R3.
    change (PACK nnsz 2 1) with (PACK nnsz (flag true 2) (flag true 1)).
    rewrite PACK_flags by exact Hnnmod. reflexivity. }
  assert (Hbytes : forall x,
            x < p - 8 \/ p <= x < p + z + nsz - 8 \/ p + z + nsz <= x ->
            m2 x = heap s1 x).
  { intros x Hx. rewrite Em2, Em1. gp. reflexivity. }
  set (L2 := l1 ++ (p, z + nsz, true) :: l2).
  assert (HF1 : forall b k, (Fr L b k /\ b <> p + z) <-> Fr l1 b k \/ Fr l2 b k).
  { intros b k. unfold L.
    change ((p, z, true) :: (p + z, nsz, false) :: l2)
      with ([(p, z, true)] ++ (p + z, nsz, false) :: l2).
    rewrite app_assoc. rewrite Fr_without.
    - rewrite Fr_app. split.
      + intros [[H | H] | H]; auto.
        apply Fr_cons in H. destruct H as [(E & _) | H]; [discriminate |].
        destruct (Fr_nil _ _ H).
      + intros [H | H]; auto.
    - intros b' k' H. apply Fr_app in H. destruct H as [H | H].
      + destruct (Fr_range _ _ _ _ _ _ Hseg1 H). lia.
      + apply Fr_cons in H. destruct H as [(E & _) | H]; [discriminate |].
        destruct (Fr_nil _ _ H).
    - intros b' k' H. destruct (Fr_range _ _ _ _ _ _ Hseg2 H). lia. }
  assert (Hm2 : mst m2 a0 fs L2 (Fr L2)).
  { split.
    - apply chain_app. split.
      + apply seg_frame with (m := heap s1); [exact Hseg1 |].
        intros x Hx. apply Hbytes. lia.
      + rewrite <- Ep. fold pa.
        apply chain_cons_intro; [reflexivity | lia | assumption | | |].
        * rewrite Em2, Em1. gp. reflexivity.
        * intros E. discriminate.
        * replace (p + (z + nsz)) with (p + z + nsz) by lia.
          apply (chain_set_pa (heap s1) m2 (p + z + nsz) false true l2 nnsz true
                   Hch2 Hnnh Hnnmod).
          -- rewrite Em2. gp. reflexivity.
          -- intros E. discriminate.
          -- intros x Hx _. apply Hbytes. lia.
    - eapply reg_equiv; [| eapply reg_agree; [exact (mst_reg _ _ _ _ _ Hm1) |]].
      + intros b k. cbn beta. rewrite HF1. unfold L2. rewrite Fr_alloc. reflexivity.
      + intros x [Hx | (b & k & HF & Hx)]; apply Hbytes.
        * lia.
        * apply HF1 in HF. destruct HF as [HF | HF].
          -- destruct (Fr_range _ _ _ _ _ _ Hseg1 HF). lia.
          -- destruct (Fr_range _ _ _ _ _ _ Hseg2 HF). lia.
    - auto.
    - exact Hfs1.
    - unfold L2. rewrite end_of_app. cbn [end_of]. rewrite <- Ep.
      replace (p + (z + nsz)) with (p + z + nsz) by lia. exact Hend. }
  assert (Es' : same_frame s (with_heap s1 m2)) by reflexivity.
  assert (Hinv2 : inv (with_heap s1 m2) L2).
  { apply (inv_same_frame s _ L L2 Hinv Es').
    - exact Hm2.
    - unfold L2. apply noadj_app. split; [exact N1 |]. cbn [noadj].
      split; [auto |]. apply noadj_weaken. exact N2.
    - fold a0. unfold L2, L. rewrite !end_of_app. cbn [end_of].
      f_equal. lia. }
  split; [| split; [exact Hinv2 |]].
  - exists L2, (z + nsz).
    split; [exact Hinv2 |].
    split; [unfold L2; apply in_or_app; right; left; reflexivity |].
    split; [lia |]. split; [lia |]. split; [| split; [| exact Es']].
    + intros b z0. unfold L2, L. rewrite !in_app_iff. cbn [In]. split.
      * intros [H | [H | H]].
        -- left. split; [auto |].
           destruct (seg_In _ _ _ _ _ _ _ Hseg1 H) as (_ & ? & ? & _). lia.
        -- inversion H. right. auto.
        -- left. split; [auto |].
           destruct (seg_In _ _ _ _ _ _ _ Hseg2 H) as (? & _). lia.
      * intros [[[H | [H | [H | H]]] Hne] | [-> ->]]; auto.
        -- inversion H. congruence.
        -- inversion H.
    + cbn [heap with_heap]. eapply pres_trans; [exact Hp1 |].
      intros b z0 x Hb Hx. apply Hbytes.
      unfold L in Hb. apply in_app_or in Hb. destruct Hb as [Hb | [Hb | [Hb | Hb]]].
      * destruct (seg_In _ _ _ _ _ _ _ Hseg1 Hb) as (_ & ? & ? & _). lia.
      * inversion Hb; subst. lia.
      * inversion Hb.
      * destruct (seg_In _ _ _ _ _ _ _ Hseg2 Hb) as (? & _). lia.
  - unfold HDRP, WSIZE. rewrite (read_prev_alloc _ _ nnsz true true); auto.
    rewrite Em2. gp. reflexivity.
Qed.

(** Growing by moving: a new block is allocated, the old payload copied
    and the old block freed. *)
Lemma realloc_copy_spec (s : state) (L : list block) (p z n size : Z) :
  inv s L -> In (p, z, true) L ->
  request_ok size -> 64 <= size -> z < size -> n + 16 <= size ->
  exists s' r,
    ('(s1, new_ptr) <- mm_malloc s size ;;
     if new_ptr =? NULL then Some (s1, NULL)
     else
       let s2 := with_heap s1 (memcpy (heap s1) new_ptr p size) in
       s3 <- mm_free s2 p ;;
       Some (s3, new_ptr)) = Some (s', r) /\
    ((r = 0 /\ s' = s) \/ realloc_moved s L p z n s' r).
Proof.
  intros Hinv Hin Hreq H64 Hzs Hn.
  destruct (mm_malloc_spec s L size Hinv Hreq ltac:(lia))
    as (s1 & q & Hrun & Hcases).
  rewrite Hrun. cbn [bind]. unfold NULL.
  destruct Hcases as [(-> & -> & _) | (Hq0 & _ & L1 & zq & Hinv1 & Hq & Hzq & Hnew & AL1 & PL1 & S1 & S2 & S3)].
  - rewrite Z.eqb_refl. exists s, 0. split; [reflexivity |]. left. auto.
  - destruct (Z.eqb_spec q 0) as [E | _]; [contradiction |].
    cbn zeta.
    destruct (round_size_spec size Hreq) as (_ & _ & Hrs & _).
    pose proof (mst_chain _ _ _ _ _ (inv_mst _ _ Hinv1)) as [Hseg1 _].
    assert (Hp1 : In (p, z, true) L1) by (apply AL1; left; exact Hin).
    assert (Hqp : q <> p) by (intros ->; eapply Hnew; eauto).
    destruct (seg_In _ _ _ _ _ _ _ Hseg1 Hq) as (Hq1 & Hq2 & Hq3 & _).
    destruct (seg_In _ _ _ _ _ _ _ Hseg1 Hp1) as (Hp'1 & Hp'2 & Hp'3 & _).
    assert (Hdisj : p + z <= q \/ q + zq <= p).
    { destruct (seg_disjoint _ _ _ _ _ _ _ _ _ _ Hseg1 Hp1 Hq) as [E | Hd];
        [inversion E; congruence | exact Hd]. }
    set (m1 := heap s1) in *.
    set (m2 := memcpy m1 q p size).
    assert (Hout : forall x, ~ (q <= x < q + zq - 8) -> m2 x = m1 x).
    { intros x Hx. unfold m2, memcpy. apply memcpy_outside.
      rewrite Z2Nat.id by lia. lia. }
    assert (Hinv2 : inv (with_heap s1 m2) L1).
    { apply (inv_payload_frame s1 L1 m2 q zq Hinv1 Hq). exact Hout. }
    destruct (mm_free_spec (with_heap s1 m2) L1 p z Hinv2 Hp1)
      as (s3 & L3 & Hfree & Es3 & Hinv3 & AL3 & PL3).
    rewrite Hfree. cbn [bind].
    exists s3, q. split; [reflexivity |]. right.
    destruct (same_frame_fields _ _ Es3) as (T1 & T2 & T3 & T4 & T5 & T6 & T7).
    cbn [heap with_heap mem_start_brk mem_max_addr heap_start] in *.
    split; [exact Hq0 |]. split; [exact Hqp |].
    exists L3, zq.
    split; [exact Hinv3 |].
    split; [apply AL3; split; [exact Hq | exact Hqp] |].
    split; [lia |].
    split; [| split; [| split; [| split; [| split]]]].
    + intros b z0. rewrite AL3, AL1. split.
      * intros [[H | [-> ->]] Hne]; auto.
      * intros [[H Hne] | [-> ->]]; auto.
    + intros b z0 x Hb Hne Hx.
      assert (Hb1 : In (b, z0, true) L1) by (apply AL1; left; exact Hb).
      rewrite (PL3 b z0 x Hb1 Hne Hx).
      rewrite Hout; [exact (PL1 b z0 x Hb Hx) |].
      assert (Hbq : b <> q) by (intros ->; eapply Hnew; eauto).
      destruct (seg_In _ _ _ _ _ _ _ Hseg1 Hb1) as (? & ? & ? & _).
      destruct (seg_disjoint _ _ _ _ _ _ _ _ _ _ Hseg1 Hb1 Hq) as [E | Hd];
        [inversion E; congruence | lia].
    + intros i Hi.
      rewrite (PL3 q zq (q + i) Hq Hqp ltac:(lia)).
      unfold m2, memcpy. rewrite memcpy_copied.
      * apply (PL1 p z (p + i) Hin). lia.
      * rewrite Z2Nat.id by lia. lia.
      * intros j Hj. rewrite Z2Nat.id by lia. lia.
    + rewrite T1. exact S1.
    + rewrite T3. exact S2.
    + rewrite T4. exact S3.
Qed.

Lemma mm_realloc_spec (s : state) (L : list block) (p z n : Z) :
  inv s L -> In (p, z, true) L ->
  request_ok n -> n <> 0 -> request_ok (round_size n) ->
  exists s' r,
    mm_realloc s p n = Some (s', r) /\
    ((r = 0 /\ s' = s) \/ (r = p /\ realloc_same s L p z n s') \/
     realloc_moved s L p z n s' r).
Proof.
  intros Hinv Hin Hreq Hn0 Hreq2.
  pose proof (inv_block_pos _ _ _ _ _ Hinv Hin) as Hppos.
  destruct (round_size_spec n Hreq) as (H64 & Hmod & Hnle & _).
  set (size := round_size n) in *.
  pose proof Hinv as [Hbase Hfs Hpro Hm Hepi Hbrk Hmax Hna].
  pose proof (mst_end _ _ _ _ _ Hm) as Hend.
  pose proof (mst_chain _ _ _ _ _ Hm) as Hch.
  destruct (in_split _ _ Hin) as (l1 & l2 & EL).
  rewrite EL in Hch. apply chain_app in Hch. destruct Hch as [Hseg1 Hch].
  apply chain_cons_inv in Hch. destruct Hch as (Ep & Hz64 & Hzmod & Hh & _ & Hch2).
  destruct (chain_head _ _ _ _ Hch2) as (nsz & nal & Hnh & Hnmod & Hnsz & Hshape).
  pose proof Hch2 as [Hseg2 _].
  pose proof (seg_end_le _ _ _ _ Hseg1) as Hle1.
  pose proof (seg_end_le _ _ _ _ Hseg2) as Hle2.
  set (m := heap s) in *.
  assert (R2 : GET_SIZE m (HDRP p) = z)
    by (unfold HDRP, WSIZE; eapply read_size; eauto).
  assert (R3 : NEXT_BLOCK m p = p + z)
    by (unfold NEXT_BLOCK; fold (HDRP p); rewrite R2; reflexivity).
  assert (R4 : GET_ALLOC m (HDRP (p + z)) = flag nal 1)
    by (unfold HDRP, WSIZE; eapply read_alloc; eauto).
  assert (R5 : GET_SIZE m (HDRP (p + z)) = nsz)
    by (unfold HDRP, WSIZE; eapply read_size; eauto).
  unfold mm_realloc. unfold NULL.
  destruct (Z.eqb_spec p 0) as [E | _]; [lia |].
  destruct (Z.eqb_spec n 0) as [E | _]; [contradiction |].
  cbn zeta. fold size. fold m. rewrite R3, R2, R4, R5.
  destruct (Z.eqb_spec size z) as [Eq | Hne].
  { exists s, p. split; [reflexivity |]. right. left.
    split; [reflexivity |]. apply realloc_same_refl; auto. lia. }
  destruct (Z.gtb_spec size z) as [Hgrow | Hshrink].
  2:{ cbn [andb]. exists s, p. split; [reflexivity |]. right. left.
      split; [reflexivity |]. apply realloc_same_refl; auto. lia. }
  assert (Hcopy := realloc_copy_spec s L p z n size Hinv Hin Hreq2 H64 ltac:(lia) Hnle).
  destruct nal; cbn [flag]; change (1 =? 0) with false; change (0 =? 0) with true;
    cbn [andb].
  - destruct Hcopy as (s' & r & Hrun & Hres).
    exists s', r. split; [exact Hrun |].
    destruct Hres as [H | H]; [left; exact H | right; right; exact H].
  - destruct Hshape as [(_ & _ & E) | (l2' & El2)]; [discriminate |].
    subst l2.
    assert (Hnb : p + z + nsz <= end_of (p + z) ((p + z, nsz, false) :: l2')).
    { cbn [seg end_of] in *. destruct Hseg2 as (_ & ? & _ & _ & _ & Hr).
      apply seg_end_le in Hr. assumption. }
    rewrite EL, end_of_app in Hend. cbn [end_of] in Hend. rewrite <- Ep in Hend.
    cbn [end_of] in Hnb.
    rewrite wrap_small by lia.
    destruct (Z.gtb_spec (nsz + z) size) as [Hfits | Hnofit].
    + rewrite EL in Hinv.
      destruct (realloc_absorb_spec s l1 p z nsz l2' n Hinv ltac:(lia))
        as (Hsame & _ & _).
      cbn zeta in Hsame. fold m in Hsame.
      rewrite (Z.add_comm nsz z).
      eexists. exists p. split; [reflexivity |]. right. left.
      split; [reflexivity |]. rewrite EL. exact Hsame.
    + destruct Hcopy as (s' & r & Hrun & Hres).
      exists s', r. split; [exact Hrun |].
      destruct Hres as [H | H]; [left; exact H | right; right; exact H].
Qed.

(** ** mm_init: the first heap *)

Lemma init_roots_spec (n : nat) :
  forall m fs i,
    (forall k, i <= k < i + Z.of_nat n ->
               GET (init_roots n m fs i) (fs + k * 8) = 0) /\
    (forall x, x < fs + i * 8 \/ fs + (i + Z.of_nat n) * 8 <= x ->
               init_roots n m fs i x = m x).
Proof.
  induction n as [| n IH]; intros m fs i; cbn [init_roots].
  - split; [intros k Hk; lia | reflexivity].
  - unfold WSIZE, NULL. destruct (IH (PUT m (fs + i * 8) 0) fs (i + 1)) as [H1 H2].
    split.
    + intros k Hk. destruct (Z.eq_dec k i) as [-> | Hne].
      * rewrite (GET_ext (PUT m (fs + i * 8) 0)).
        -- apply GET_PUT_same. unfold SIZE_MOD. lia.
        -- intros x Hx. apply H2. lia.
      * apply H1. lia.
    + intros x Hx. rewrite H2 by lia. apply PUT_outside. lia.
Qed.

Lemma inv_with_heap_start (s : state) (L : list block) (p : Z) :
  inv s L -> inv (with_heap_start s p) L.
Proof. intros [H1 H2 H3 H4 H5 H6 H7 H8]. constructor; assumption. Qed.

Lemma inv_with_max_addr (s : state) (L : list block) (lim : Z) :
  inv s L -> lim < SIZE_MOD -> inv (with_max_addr s lim) L.
Proof. intros [H1 H2 H3 H4 H5 H6 H7 H8] Hl. constructor; assumption. Qed.

Lemma inv_all_free (s : state) (L : list block) :
  inv s L -> (forall b z, ~ In (b, z, true) L) ->
  L = [] \/ exists z, L = [(first_block s, z, false)].
Proof.
  intros Hinv Hfree.
  pose proof (mst_chain _ _ _ _ _ (inv_mst _ _ Hinv)) as [Hseg _].
  pose proof (inv_noadj _ _ Hinv) as Hna.
  destruct L as [| [[b z] al] r]; [left; reflexivity | right].
  cbn [seg] in Hseg. destruct Hseg as (-> & _).
  assert (al = false).
  { destruct al; [| reflexivity]. exfalso. eapply Hfree. left. reflexivity. }
  subst al. exists z. f_equal.
  destruct r as [| [[b' z'] al'] r']; [reflexivity |].
  cbn [noadj] in Hna. destruct Hna as (_ & [E | E] & _); [discriminate |].
  subst al'. exfalso. eapply Hfree. right. left. reflexivity.
Qed.

Lemma mm_init_spec (m0 : mem) (base lim : Z) :
  0 < base -> lim < SIZE_MOD ->
  exists s r,
    mm_init (boot m0 base lim) = Some (s, r) /\
    (base + 408 <= lim -> r = 0) /\
    (r = 0 ->
     mem_start_brk s = base /\ heap_start s = base + 152 /\
     mem_max_addr s = lim /\
     exists L, inv s L /\ forall b z, ~ In (b, z, true) L).
Proof.
  intros Hbase Hlim.
  unfold mm_init, mem_sbrk, boot. cbn [mem_brk mem_max_addr].
  change ((MAX_LISTS + 3) * WSIZE) with 152.
  destruct (Z.leb_spec (base + 152) lim) as [Hok | Hno].
  2:{ destruct (Z.eqb_spec (-1) (-1)) as [_ | N]; [| congruence].
      eexists. exists (-1). split; [reflexivity |]. split; intros; lia. }
  destruct (Z.eqb_spec base (-1)) as [E | _]; [lia |].
  cbn [with_brk with_heap_prologue with_free_start with_heap with_heap_epilogue
       heap mem_start_brk mem_brk mem_max_addr heap_start free_start
       heap_prologue heap_epilogue].
  change ((MAX_LISTS + 1) * WSIZE) with 136.
  change (PACK DWORD 2 1) with (hv 16 true true).
  change (PACK 0 2 1) with (hv 0 true true).
  change (CHUNKSIZE / WSIZE) with 32.
  unfold HDRP, WSIZE.
  replace (base + 136 - 8) with (base + 128) by lia.
  set (m1 := init_roots 16 m0 base 0).
  set (m2 := PUT m1 (base + 128) (hv 16 true true)).
  assert (Hv16 : 0 <= hv 16 true true < SIZE_MOD) by (apply hv_range; unfold SIZE_MOD; lia).
  assert (Hv0 : 0 <= hv 0 true true < SIZE_MOD) by (apply hv_range; unfold SIZE_MOD; lia).
  assert (R1 : FTRP m2 (base + 136) = base + 136).
  { unfold FTRP, HDRP, WSIZE, DWORD.
    rewrite (read_size _ _ 16 true true); [lia | | reflexivity].
    replace (base + 136 - 8) with (base + 128) by lia.
    unfold m2. gp. reflexivity. }
  rewrite R1. set (m3 := PUT m2 (base + 136) (hv 16 true true)).
  assert (R2 : NEXT_BLOCK m3 (base + 136) = base + 152).
  { unfold NEXT_BLOCK, WSIZE.
    rewrite (read_size _ _ 16 true true); [lia | | reflexivity].
    replace (base + 136 - 8) with (base + 128) by lia.
    unfold m3, m2. gp. reflexivity. }
  rewrite R2. replace (base + 152 - 8) with (base + 144) by lia.
  set (m5 := PUT m3 (base + 144) (hv 0 true true)).
  set (s5 := mkState m5 base (base + 152) lim 0 base (base + 136) (base + 144)).
  destruct (init_roots_spec 16 m0 base 0) as [Hroots _]. fold m1 in Hroots.
  assert (Hinv5 : inv s5 []).
  { unfold s5. constructor; unfold first_block; cbn [mem_start_brk free_start heap_prologue
        heap_epilogue mem_brk mem_max_addr heap first_block end_of noadj].
    - exact Hbase.
    - reflexivity.
    - reflexivity.
    - constructor.
      + split; [exact I |]. cbn [end_of last_al].
        replace (base + 152 - 8) with (base + 144) by lia.
        unfold m5. gp. reflexivity.
      + constructor.
        * intros k Hk. exists []. split; [exact I |]. split; [| split; [exact I |]].
          -- cbn [hd0]. unfold m5, m3, m2. gp. apply Hroots. simpl. lia.
          -- intros b. split; [intros [] | intros H; destruct (Fr_nil _ _ H)].
        * intros b k H. destruct (Fr_nil _ _ H).
        * intros b k k' H. destruct (Fr_nil _ _ H).
        * intros b k b' k' H. destruct (Fr_nil _ _ H).
        * intros b k H. destruct (Fr_nil _ _ H).
        * lia.
      + intros b k H. exact H.
      + lia.
      + cbn [end_of]. lia.
    - lia.
    - reflexivity.
    - lia.
    - exact I. }
  pose proof (extend_heap_spec s5 [] 32 Hinv5 ltac:(lia) eq_refl ltac:(lia)
                ltac:(unfold SIZE_MOD; lia)) as Hx.
  cbn [mem_brk mem_max_addr s5] in Hx.
  change (extend_heap _ 32) with (extend_heap s5 32).
  destruct (Z.leb_spec (base + 152 + 32 * 8) lim) as [Hok2 | Hno2].
  - destruct Hx as (s6 & L6 & r & rsz & Hrun & Hinv6 & Hr0 & Hr1 & Hr2 & AL & PL & S1 & S2 & S3).
    rewrite Hrun. cbn [bind]. unfold NULL.
    destruct (Z.eqb_spec r 0) as [E | _]; [contradiction |].
    eexists. exists 0. split; [reflexivity |]. split; [reflexivity |].
    intros _. cbn [mem_start_brk heap_start mem_max_addr with_heap_start].
    assert (Hnone : forall b z, ~ In (b, z, true) L6).
    { intros b z Hb. apply AL in Hb. destruct Hb. }
    destruct (inv_all_free _ _ Hinv6 Hnone) as [-> | (z & ->)]; [destruct Hr1 |].
    destruct Hr1 as [E | []]. injection E as E1 E2.
    rewrite <- E1. unfold first_block. rewrite S1. cbn [mem_start_brk s5].
    split; [reflexivity |]. split; [reflexivity |]. split; [exact S2 |].
    exists [(first_block s6, z, false)]. split; [| exact Hnone].
    apply inv_with_heap_start. exact Hinv6.
  - rewrite Hx. cbn [bind]. unfold NULL. rewrite Z.eqb_refl.
    eexists. exists (-1). split; [reflexivity |]. split; intros; lia.
Qed.

(** ** What the heap checker sees

    Under the invariant the executable scans return what the abstract
    heap says. *)

Lemma seg_length (m : mem) (l : list block) :
  forall a pa, seg m a pa l -> Z.of_nat (length l) * 64 <= end_of a l - a.
Proof.
  induction l as [| [[b sz] al] r IH]; intros a pa H; [simpl; lia |].
  destruct H as (_ & Hsz & _ & _ & _ & Hr). apply IH in Hr.
  cbn [length end_of]. lia.
Qed.

Lemma flag_alloc_bit (al : bool) : negb (flag al 1 =? 0) = al.
Proof. destruct al; reflexivity. Qed.

Lemma heap_blocks_from_seg (m : mem) (l : list block) :
  forall a pa (fuel : nat),
    seg m a pa l -> (length l < fuel)%nat ->
    heap_blocks_from fuel m a (end_of a l - 8) = Some l.
Proof.
  induction l as [| [[b sz] al] r IH]; intros a pa fuel H Hfuel.
  - destruct fuel as [| f]; [simpl in Hfuel; lia |].
    cbn [heap_blocks_from end_of]. unfold HDRP, WSIZE.
    rewrite Z.eqb_refl. reflexivity.
  - destruct fuel as [| f]; [simpl in Hfuel; lia |].
    destruct H as (-> & Hsz & Hmod & Hh & _ & Hr).
    pose proof (seg_end_le _ _ _ _ Hr) as Hle.
    cbn [heap_blocks_from end_of]. unfold HDRP, NEXT_BLOCK, WSIZE.
    destruct (Z.eqb_spec (a - 8) (end_of (a + sz) r - 8)) as [E | _]; [lia |].
    rewrite (read_size _ _ _ _ _ Hh Hmod), (read_alloc _ _ _ _ _ Hh Hmod).
    rewrite (IH (a + sz) al f Hr) by (simpl in Hfuel; lia).
    cbn [bind]. rewrite flag_alloc_bit. reflexivity.
Qed.

Lemma scan_adjacent_free_seg (m : mem) (l : list block) :
  forall a pa q (fuel : nat),
    seg m a pa l -> GET m (end_of a l - 8) = hv 0 q true ->
    noadj pa l -> (length l < fuel)%nat ->
    scan_adjacent_free fuel m a (end_of a l - 8) = Some false.
Proof.
  induction l as [| [[b sz] al] r IH]; intros a pa q fuel H He Hna Hfuel.
  - destruct fuel as [| f]; [simpl in Hfuel; lia |].
    cbn [scan_adjacent_free end_of]. unfold HDRP, WSIZE.
    rewrite Z.eqb_refl. reflexivity.
  - destruct fuel as [| f]; [simpl in Hfuel; lia |].
    destruct H as (-> & Hsz & Hmod & Hh & _ & Hr).
    destruct Hna as [_ Hna].
    pose proof (seg_end_le _ _ _ _ Hr) as Hle.
    cbn [scan_adjacent_free end_of] in *. unfold HDRP, NEXT_BLOCK, WSIZE.
    destruct (Z.eqb_spec (a - 8) (end_of (a + sz) r - 8)) as [E | _]; [lia |].
    rewrite (read_size _ _ _ _ _ Hh Hmod), (read_alloc _ _ _ _ _ Hh Hmod).
    assert (Hpair : (flag al 1 =? 0) && (GET_ALLOC m (a + sz - 8) =? 0) = false).
    { destruct al; [reflexivity |]. cbn [flag]. rewrite Z.eqb_refl. cbn [andb].
      destruct r as [| [[b' sz'] al'] r'].
      - cbn [end_of] in He. rewrite (read_alloc _ _ _ _ _ He eq_refl). reflexivity.
      - destruct Hr as (-> & _ & Hmod' & Hh' & _).
        destruct Hna as [[E | ->] _]; [discriminate |].
        rewrite (read_alloc _ _ _ _ _ Hh' Hmod'). reflexivity. }
    rewrite Hpair. apply (IH (a + sz) al q f Hr He Hna). simpl in Hfuel. lia.
Qed.

Lemma list_from_dlseg (m : mem) (l : list Z) :
  forall prev (fuel : nat),
    dlseg m prev l 0 -> (forall x, In x l -> x <> 0) ->
    (length l < fuel)%nat ->
    list_from fuel m (hd0 l 0) = Some l.
Proof.
  induction l as [| x r IH]; intros prev fuel Hdl Hnz Hfuel.
  - destruct fuel as [| f]; [simpl in Hfuel; lia |]. reflexivity.
  - destruct fuel as [| f]; [simpl in Hfuel; lia |].
    destruct Hdl as (_ & Hn & Hdl).
    cbn [list_from hd0]. unfold NULL.
    destruct (Z.eqb_spec x 0) as [E | _];
      [exfalso; apply (Hnz x); [left; reflexivity | exact E] |].
    unfold NEXT_FLIST_ADDRESS. rewrite Hn.
    rewrite (IH x f Hdl) by
      (try (intros y Hy; apply Hnz; right; exact Hy); simpl in Hfuel; lia).
    reflexivity.
Qed.

Section Observers.
Variables (s : state) (L : list block).
Hypothesis Hinv : inv s L.
Hypothesis Hstart : heap_start s = first_block s.

Lemma inv_fuel : (length L < walk_fuel s)%nat.
Proof.
  pose proof (mst_chain _ _ _ _ _ (inv_mst _ _ Hinv)) as [Hseg _].
  pose proof (seg_length _ _ _ _ Hseg) as Hlen.
  pose proof (inv_brk _ _ Hinv) as Hbrk.
  unfold walk_fuel, first_block in *. lia.
Qed.

Lemma heap_blocks_inv : heap_blocks s = Some L.
Proof.
  pose proof (mst_chain _ _ _ _ _ (inv_mst _ _ Hinv)) as [Hseg _].
  unfold heap_blocks. rewrite Hstart, (inv_epilogue _ _ Hinv).
  apply heap_blocks_from_seg with (pa := true); [exact Hseg | exact inv_fuel].
Qed.

Lemma adjacent_free_inv : adjacent_free s = Some false.
Proof.
  pose proof (mst_chain _ _ _ _ _ (inv_mst _ _ Hinv)) as [Hseg Hep].
  unfold adjacent_free. rewrite Hstart, (inv_epilogue _ _ Hinv).
  apply scan_adjacent_free_seg with (pa := true) (q := last_al true L);
    [exact Hseg | exact Hep | exact (inv_noadj _ _ Hinv) | exact inv_fuel].
Qed.

Lemma bucket_list_inv (k : Z) :
  0 <= k < 16 ->
  exists l, bucket_list s k = Some l /\ asc 0 l /\
            dlseg (heap s) 0 l 0 /\ forall b, In b l <-> Fr L b k.
Proof.
  intros Hk.
  pose proof (inv_mst _ _ Hinv) as Hm.
  pose proof (mst_chain _ _ _ _ _ Hm) as [Hseg _].
  destruct (reg_buckets _ _ _ (mst_reg _ _ _ _ _ Hm) k Hk)
    as (l & Hasc & Hroot & Hdl & Hmem).
  exists l. split; [| split; [exact Hasc | split; [exact Hdl | exact Hmem]]].
  unfold bucket_list, GET_ROOT, WSIZE. rewrite Hroot.
  apply list_from_dlseg with (prev := 0); [exact Hdl | |].
  - intros x Hx. pose proof (asc_In _ _ _ Hasc Hx). lia.
  - assert (Hlen : Z.of_nat (length l)
                   <= Z.max 0 (mem_brk s - 64 - mem_start_brk s)).
    { apply asc_length.
      - eapply asc_from; [exact Hasc |]. intros x Hx. apply Hmem in Hx.
        destruct (Fr_range _ _ _ _ _ _ Hseg Hx). unfold first_block in *. lia.
      - intros x Hx. apply Hmem in Hx.
        destruct (Fr_range _ _ _ _ _ _ Hseg Hx) as (_ & H2 & _).
        pose proof (inv_brk _ _ Hinv). lia. }
    unfold walk_fuel. lia.
Qed.

End Observers.

(** ** The invariant of the client's view *)

Lemma In_drop (p q n : Z) (l : list (Z * Z)) :
  In (q, n) (drop p l) <-> In (q, n) l /\ q <> p.
Proof.
  unfold drop. rewrite filter_In. cbn [fst].
  destruct (Z.eqb_spec q p) as [E | E]; cbn [negb]; split.
  - intros [_ H]. discriminate.
  - intros [_ H]. contradiction.
  - intros [H _]. split; assumption.
  - intros [H _]. split; [exact H | reflexivity].
Qed.

Lemma alloc_unique (s : state) (L : list block) (p z z' : Z) (al al' : bool) :
  inv s L -> In (p, z, al) L -> In (p, z', al') L -> z = z' /\ al = al'.
Proof.
  intros Hinv H1 H2.
  pose proof (mst_chain _ _ _ _ _ (inv_mst _ _ Hinv)) as [Hseg _].
  exact (seg_functional _ _ _ _ _ _ _ _ _ Hseg H1 H2).
Qed.

Lemma cinv_first (base : Z) (c : config) (L : list block) :
  cinv base c L -> heap_start (st c) = first_block (st c).
Proof.
  intros H. unfold first_block.
  rewrite (cinv_start _ _ _ H), (cinv_base _ _ _ H). reflexivity.
Qed.

(** Adding one allocated block [r] to the heap and to the client's list. *)
Lemma cinv_hold (base : Z) (c : config) (L L' : list block)
      (s' : state) (r n z : Z) :
  cinv base c L -> inv s' L' ->
  mem_start_brk s' = mem_start_brk (st c) -> heap_start s' = heap_start (st c) ->
  0 <= n -> n + 16 <= z ->
  (forall z0, ~ In (r, z0, true) L) ->
  (forall b z0, In (b, z0, true) L' <-> (In (b, z0, true) L \/ (b = r /\ z0 = z))) ->
  cinv base (mkConfig s' ((r, n) :: live c)) L'.
Proof.
  intros [Hi Hb Hs Hl Hr] Hinv' E1 E2 Hn Hz Hnew Hall.
  constructor; cbn [st live].
  - exact Hinv'.
  - rewrite E1. exact Hb.
  - rewrite E2. exact Hs.
  - intros p. split.
    + intros (k & [E | Hin]).
      * inversion E; subst. exists z. apply Hall. right. split; reflexivity.
      * destruct (proj1 (Hl p) (ex_intro _ k Hin)) as (z0 & Hz0).
        exists z0. apply Hall. left. exact Hz0.
    + intros (z0 & Hz0). apply Hall in Hz0. destruct Hz0 as [Hold | [-> _]].
      * destruct (proj2 (Hl p) (ex_intro _ z0 Hold)) as (k & Hk).
        exists k. right. exact Hk.
      * exists n. left. reflexivity.
  - intros p k z0 [E | Hin] Hz0.
    + inversion E; subst. apply Hall in Hz0.
      destruct Hz0 as [Hold | [_ ->]]; [destruct (Hnew _ Hold) | lia].
    + apply Hall in Hz0. destruct Hz0 as [Hold | [-> _]].
      * exact (Hr _ _ _ Hin Hold).
      * destruct (proj1 (Hl r) (ex_intro _ k Hin)) as (z1 & Hz1).
        destruct (Hnew _ Hz1).
Qed.

(** Taking the allocated block [p] away. *)
Lemma cinv_drop (base : Z) (c : config) (L L' : list block)
      (s' : state) (p : Z) :
  cinv base c L -> inv s' L' ->
  mem_start_brk s' = mem_start_brk (st c) -> heap_start s' = heap_start (st c) ->
  (forall b z0, In (b, z0, true) L' <-> (In (b, z0, true) L /\ b <> p)) ->
  cinv base (mkConfig s' (drop p (live c))) L'.
Proof.
  intros [Hi Hb Hs Hl Hr] Hinv' E1 E2 Hall.
  constructor; cbn [st live].
  - exact Hinv'.
  - rewrite E1. exact Hb.
  - rewrite E2. exact Hs.
  - intros q. split.
    + intros (k & Hin). apply In_drop in Hin. destruct Hin as [Hin Hne].
      destruct (proj1 (Hl q) (ex_intro _ k Hin)) as (z0 & Hz0).
      exists z0. apply Hall. split; assumption.
    + intros (z0 & Hz0). apply Hall in Hz0. destruct Hz0 as [Hold Hne].
      destruct (proj2 (Hl q) (ex_intro _ z0 Hold)) as (k & Hk).
      exists k. apply In_drop. split; assumption.
  - intros q k z0 Hin Hz0. apply In_drop in Hin. destruct Hin as [Hin _].
    apply Hall in Hz0. destruct Hz0 as [Hold _]. exact (Hr _ _ _ Hin Hold).
Qed.

Lemma cinv_malloc (base : Z) (c : config) (L : list block) (n r : Z) (s' : state) :
  cinv base c L -> request_ok n ->
  mm_malloc (st c) n = Some (s', r) ->
  exists L', cinv base (mkConfig s' (hold r n (live c))) L'.
Proof.
  intros HC Hn Hrun. pose proof HC as [Hi Hb Hs Hl Hr].
  destruct (Z.eq_dec n 0) as [-> | Hnz].
  - cbn in Hrun. inversion Hrun; subst. exists L.
    change (hold 0 0 (live c)) with (live c). destruct c; exact HC.
  - destruct (mm_malloc_spec _ _ n Hi Hn Hnz) as (s1 & r1 & Hrun1 & Hpost).
    rewrite Hrun in Hrun1. inversion Hrun1; subst s1 r1. clear Hrun1.
    unfold hold, NULL.
    destruct Hpost as [(-> & -> & _) | (Hr0 & _ & L' & z & Hinv' & Hin & Hsz & Hnew & Hall & _ & E1 & _ & E2)].
    + rewrite Z.eqb_refl. exists L. destruct c; exact HC.
    + destruct (Z.eqb_spec r 0) as [E | _]; [contradiction |].
      exists L'. apply (cinv_hold base c L L' s' r n z); auto.
      * destruct Hn. lia.
      * pose proof (round_size_spec n Hn). lia.
Qed.

(** Replacing the allocated block [p] by the allocated block [r]. *)
Lemma cinv_replace (base : Z) (c : config) (L L' : list block)
      (s' : state) (p r n z : Z) :
  cinv base c L -> inv s' L' ->
  mem_start_brk s' = mem_start_brk (st c) -> heap_start s' = heap_start (st c) ->
  0 <= n -> n + 16 <= z ->
  (forall b z0, In (b, z0, true) L' <->
                ((In (b, z0, true) L /\ b <> p) \/ (b = r /\ z0 = z))) ->
  cinv base (mkConfig s' ((r, n) :: drop p (live c))) L'.
Proof.
  intros [Hi Hb Hs Hl Hr] Hinv' E1 E2 Hn Hz Hall.
  assert (Hnew : In (r, z, true) L') by (apply Hall; right; split; reflexivity).
  constructor; cbn [st live].
  - exact Hinv'.
  - rewrite E1. exact Hb.
  - rewrite E2. exact Hs.
  - intros q. split.
    + intros (k & [E | Hin]).
      * inversion E; subst. exists z. exact Hnew.
      * apply In_drop in Hin. destruct Hin as [Hin Hne].
        destruct (proj1 (Hl q) (ex_intro _ k Hin)) as (z0 & Hz0).
        exists z0. apply Hall. left. split; assumption.
    + intros (z0 & Hz0). apply Hall in Hz0.
      destruct Hz0 as [[Hold Hne] | [-> _]].
      * destruct (proj2 (Hl q) (ex_intro _ z0 Hold)) as (k & Hk).
        exists k. right. apply In_drop. split; assumption.
      * exists n. left. reflexivity.
  - intros q k z0 [E | Hin] Hz0.
    + inversion E; subst.
      destruct (alloc_unique _ _ _ _ _ _ _ Hinv' Hnew Hz0) as [<- _]. lia.
    + apply In_drop in Hin. destruct Hin as [Hin Hne].
      apply Hall in Hz0. destruct Hz0 as [[Hold _] | [-> ->]].
      * exact (Hr _ _ _ Hin Hold).
      * destruct (proj1 (Hl r) (ex_intro _ k Hin)) as (z1 & Hz1).
        assert (Hz1' : In (r, z1, true) L') by (apply Hall; left; split; assumption).
        destruct (alloc_unique _ _ _ _ _ _ _ Hinv' Hnew Hz1') as [-> _].
        exact (Hr _ _ _ Hin Hz1).
Qed.

Lemma cinv_free (base : Z) (c : config) (L : list block) (p n : Z) (s' : state) :
  cinv base c L -> In (p, n) (live c) ->
  mm_free (st c) p = Some s' ->
  exists L', cinv base (mkConfig s' (drop p (live c))) L'.
Proof.
  intros HC Hin Hrun. pose proof HC as [Hi Hb Hs Hl Hr].
  destruct (proj1 (Hl p) (ex_intro _ n Hin)) as (z & Hz).
  destruct (mm_free_spec _ _ _ _ Hi Hz) as (s1 & L' & Hrun1 & Hsf & Hinv' & Hall & _).
  rewrite Hrun in Hrun1. inversion Hrun1; subst s1. clear Hrun1.
  destruct (same_frame_fields _ _ Hsf) as (F1 & F2 & F3 & F4 & F5 & F6 & F7).
  exists L'. apply (cinv_drop base c L L' s' p); auto.
Qed.

Lemma cinv_realloc (base : Z) (c : config) (L : list block)
      (p n0 n r : Z) (s' : state) :
  cinv base c L -> In (p, n0) (live c) ->
  request_ok n -> request_ok (round_size n) ->
  mm_realloc (st c) p n = Some (s', r) ->
  exists L', cinv base (mkConfig s' (if n =? 0 then drop p (live c)
                                     else if r =? NULL then live c
                                     else (r, n) :: drop p (live c))) L'.
Proof.
  intros HC Hin Hn Hn2 Hrun. pose proof HC as [Hi Hb Hs Hl Hr].
  destruct (proj1 (Hl p) (ex_intro _ n0 Hin)) as (z & Hz).
  pose proof (inv_block_pos _ _ _ _ _ Hi Hz) as Hp.
  destruct (Z.eqb_spec n 0) as [-> | Hnz].
  - unfold mm_realloc, NULL in Hrun.
    destruct (Z.eqb_spec p 0) as [E | _]; [lia |].
    change (0 =? 0) with true in Hrun. cbn iota in Hrun.
    destruct (mm_free (st c) p) as [s1 |] eqn:Hfree; [| discriminate].
    cbn [bind] in Hrun. inversion Hrun; subst s1 r.
    exact (cinv_free base c L p n0 s' HC Hin Hfree).
  - destruct (mm_realloc_spec _ _ _ _ n Hi Hz Hn Hnz Hn2) as (s1 & r1 & Hrun1 & Hcases).
    rewrite Hrun in Hrun1. inversion Hrun1; subst s1 r1. clear Hrun1.
    unfold NULL.
    destruct Hcases as [[-> ->] | [[-> Hsame] | Hmoved]].
    + rewrite Z.eqb_refl. exists L. destruct c; exact HC.
    + destruct (Z.eqb_spec p 0) as [E | _]; [lia |].
      destruct Hsame as (L' & z' & Hinv' & Hin' & Hsz & _ & Hall & _ & Hsf).
      destruct (same_frame_fields _ _ Hsf) as (F1 & F2 & F3 & F4 & F5 & F6 & F7).
      exists L'. apply (cinv_replace base c L L' s' p p n z'); auto.
      destruct Hn. lia.
    + destruct Hmoved as (Hr0 & Hrp & L' & z' & Hinv' & Hin' & Hsz & Hall & _ & _ & E1 & _ & E2).
      destruct (Z.eqb_spec r 0) as [E | _]; [contradiction |].
      exists L'. apply (cinv_replace base c L L' s' p r n z'); auto.
      destruct Hn. lia.
Qed.

Lemma cinv_write (base : Z) (c : config) (L : list block) (p n i v : Z) :
  cinv base c L -> In (p, n) (live c) -> 0 <= i < n ->
  cinv base (mkConfig (with_heap (st c) (upd (heap (st c)) (p + i) v)) (live c)) L.
Proof.
  intros HC Hin Hi0. pose proof HC as [Hi Hb Hs Hl Hr].
  destruct (proj1 (Hl p) (ex_intro _ n Hin)) as (z & Hz).
  destruct (Hr _ _ _ Hin Hz) as [Hn Hroom].
  constructor; cbn [st live]; try assumption.
  apply (inv_payload_frame _ _ _ p z Hi Hz).
  intros x Hx. unfold upd. destruct (Z.eqb_spec x (p + i)) as [E | _]; [lia | reflexivity].
Qed.

Lemma cinv_step (base : Z) (c c' : config) (e : event) (L : list block) :
  cinv base c L -> step c e c' -> exists L', cinv base c' L'.
Proof.
  intros HC Hstep. destruct Hstep.
  - eapply cinv_malloc; eauto.
  - eapply cinv_free; eauto.
  - unfold mm_realloc in H0. change (NULL =? NULL) with true in H0. cbn iota in H0.
    eapply cinv_malloc; eauto.
  - eapply cinv_realloc; eauto.
  - exists L. eapply cinv_write; eauto.
  - exists L. destruct HC as [Hi Hb Hs Hl Hr].
    constructor; cbn [st live]; try assumption.
    apply inv_with_max_addr; assumption.
Qed.

(** Every configuration the client reaches satisfies the invariant. *)
Lemma reachable_cinv (base : Z) (c : config) :
  reachable base c -> exists L, cinv base c L.
Proof.
  induction 1 as [m0 lim s Hbase Hlim Hinit | c e c' _ [L HC] Hstep].
  - destruct (mm_init_spec m0 base lim Hbase Hlim) as (s1 & r1 & Hrun & _ & Hgood).
    rewrite Hinit in Hrun. inversion Hrun; subst s1 r1.
    destruct (Hgood eq_refl) as (E1 & E2 & _ & L & Hinv & Hnone).
    exists L. constructor; cbn [st live]; try assumption.
    + intros p. split; [intros (n & []) | intros (z & Hz); destruct (Hnone _ _ Hz)].
    + intros p n z [].
  - exact (cinv_step base c c' e L HC Hstep).
Qed.

(** ** The free lists as the checker reads them *)


Lemma listed_mst (s : state) (a0 : Z) (L : list block) (F : Z -> Z -> Prop) :
  mst (heap s) a0 (free_start s) L F ->
  mem_start_brk s < a0 -> end_of a0 L <= mem_brk s ->
  listed s F.
Proof.
  intros Hm Hlo Hhi k Hk.
  pose proof (mst_chain _ _ _ _ _ Hm) as [Hseg _].
  destruct (reg_buckets _ _ _ (mst_reg _ _ _ _ _ Hm) k Hk)
    as (l & Hasc & Hroot & Hdl & Hmem).
  exists l. split; [| split; [exact Hasc | split; [exact Hdl | exact Hmem]]].
  unfold bucket_list, GET_ROOT, WSIZE. rewrite Hroot.
  apply list_from_dlseg with (prev := 0); [exact Hdl | |].
  - intros x Hx. pose proof (asc_In _ _ _ Hasc Hx). lia.
  - assert (Hlen : Z.of_nat (length l)
                   <= Z.max 0 (mem_brk s - 64 - mem_start_brk s)).
    { apply asc_length.
      - eapply asc_from; [exact Hasc |]. intros x Hx. apply Hmem in Hx.
        apply (mst_sub _ _ _ _ _ Hm) in Hx.
        destruct (Fr_range _ _ _ _ _ _ Hseg Hx) as (H1 & _).
        lia.
      - intros x Hx. apply Hmem in Hx. apply (mst_sub _ _ _ _ _ Hm) in Hx.
        destruct (Fr_range _ _ _ _ _ _ Hseg Hx) as (_ & H2 & _). lia. }
    unfold walk_fuel. lia.
Qed.

Lemma listed_inv (s : state) (L : list block) : inv s L -> listed s (Fr L).
Proof.
  intros Hinv. apply (listed_mst s (first_block s) L).
  - exact (inv_mst _ _ Hinv).
  - unfold first_block. lia.
  - rewrite (inv_brk _ _ Hinv). lia.
Qed.



Lemma listed_sorted (s : state) (F : Z -> Z -> Prop) :
  listed s F -> sorted_lists s.
Proof.
  intros H k Hk. destruct (H k Hk) as (l & H1 & H2 & H3 & _).
  exists l. split; [exact H1 |]. split; [exact H2 | exact H3].
Qed.

Lemma listed_only (s : state) (F : Z -> Z -> Prop) (k b : Z) (l : list Z) :
  listed s F -> 0 <= k < 16 -> bucket_list s k = Some l -> In b l -> F b k.
Proof.
  intros H Hk Hl Hin. destruct (H k Hk) as (l' & H1 & _ & _ & H4).
  rewrite Hl in H1. inversion H1; subst l'. apply H4. exact Hin.
Qed.





(** ** A concrete run *)

Lemma request_ok_small (n : Z) : 0 <= n < 4294967296 -> request_ok n.
Proof. unfold request_ok, SIZE_MOD. lia. Qed.

Lemma reach_c0 : reachable 4096 c0.
Proof.
  apply (reach_init 4096 mem0 (4096 + 20 * 1048576) heap0);
    [lia | reflexivity | vm_compute; reflexivity].
Defined.

Lemma reach_c1 : reachable 4096 c1.
Proof.
  apply (reach_step 4096 c0 (EvMalloc 1 4248) c1 reach_c0).
  apply (step_malloc c0 1 heap1 4248);
    [apply request_ok_small; lia | vm_compute; reflexivity].
Defined.



(** ** The claims on the free lists *)





(** ** The scan for adjacent free blocks *)

(** For requests that round without wrapping around, no scan meets two
    neighbours that are both free. *)
Lemma reachable_no_adjacent_free (base : Z) (c : config) :
  reachable base c -> adjacent_free (st c) = Some false.
Proof.
  intros Hreach. destruct (reachable_cinv base c Hreach) as (L & HC).
  exact (adjacent_free_inv (st c) L (cinv_inv _ _ _ HC) (cinv_first _ _ _ HC)).
Qed.

(** C1. The run [mm_init; a = mm_malloc(2^64 - 1); b = mm_malloc(200);
    mm_free(a)]: [a] is a block of 16 bytes, and when it is freed add_block
    writes its second link word over the header of [b]; after mm_free has
    returned, the scan of the heap finds the free block [a] followed by a
    header whose allocated bit is 0. *)
Theorem wrapped_request_adjacent_free :
  mm_init arena = Some (heap0, 0) /\
  round_size (2 ^ 64 - 1) = 16 /\
  mm_malloc heap0 (2 ^ 64 - 1) = Some (over1, 4248) /\
  heap_blocks over1 = Some [(4248, 16, true); (4264, 240, false)] /\
  mm_malloc over1 200 = Some (over2, 4264) /\
  GET (heap over2) (HDRP 4264) = 243 /\
  adjacent_free over2 = Some false /\
  mm_free over2 4248 = Some over3 /\
  GET (heap over3) (HDRP 4264) = 0 /\
  adjacent_free over3 = Some true.
Proof.
  repeat match goal with |- _ /\ _ => split end; vm_compute; reflexivity.
Qed.

(** ** Alignment of the addresses handed out *)

Lemma step_returned_live (c c' : config) (e : event) (r : Z) :
  step c e c' -> returned e = Some r -> r <> NULL ->
  exists n, In (r, n) (live c').
Proof.
  intros Hstep Hret Hr. destruct Hstep; cbn [returned] in Hret;
    try discriminate; inversion Hret; subst; cbn [live].
  - exists n. unfold hold. destruct (Z.eqb_spec r NULL) as [E | _];
      [contradiction | left; reflexivity].
  - exists n. unfold hold. destruct (Z.eqb_spec r NULL) as [E | _];
      [contradiction | left; reflexivity].
  - destruct (Z.eqb_spec n 0) as [-> | Hn].
    + exfalso. unfold mm_realloc in H2.
      destruct (p =? NULL).
      * cbn in H2. inversion H2. subst. apply Hr. reflexivity.
      * change (0 =? 0) with true in H2. cbn iota in H2.
        destruct (mm_free (st c) p); cbn [bind] in H2; [| discriminate].
        inversion H2. subst. apply Hr. reflexivity.
    + exists n. destruct (Z.eqb_spec r NULL) as [E | _];
        [contradiction | left; reflexivity].
Qed.

Lemma reachable_live_block (base : Z) (c : config) (p n : Z) :
  reachable base c -> In (p, n) (live c) ->
  (p - (base + 152)) mod 16 = 0 /\ base + 152 <= p.
Proof.
  intros Hreach Hin. destruct (reachable_cinv base c Hreach) as (L & HC).
  destruct HC as [Hi Hb Hs Hl Hr].
  destruct (proj1 (Hl p) (ex_intro _ n Hin)) as (z & Hz).
  pose proof (mst_chain _ _ _ _ _ (inv_mst _ _ Hi)) as [Hseg _].
  destruct (seg_In _ _ _ _ _ _ _ Hseg Hz) as (H1 & _ & _ & _ & H5).
  unfold first_block in *. rewrite Hb in *. split; assumption.
Qed.

(** C2 (as the code has it). Every non-null address that mm_malloc or
    mm_realloc returns in a reachable state lies 152 bytes plus a multiple of
    16 above the base of the heap; it is aligned to 8 bytes when the base
    is, and with a base aligned to 16 bytes it is 8 modulo 16. *)
Theorem returned_address_aligned_8 (base : Z) (c c' : config) (e : event) (r : Z) :
  reachable base c -> step c e c' -> returned e = Some r -> r <> NULL ->
  (r - (base + 152)) mod 16 = 0 /\
  (base mod 8 = 0 -> r mod 8 = 0) /\
  (base mod 16 = 0 -> r mod 16 = 8).
Proof.
  intros Hreach Hstep Hret Hr.
  destruct (step_returned_live c c' e r Hstep Hret Hr) as (n & Hin).
  destruct (reachable_live_block base c' r n
              (reach_step base c e c' Hreach Hstep) Hin) as [Hmod _].
  split; [exact Hmod |].
  split; intros Hb; Z.div_mod_to_equations; lia.
Qed.

Lemma returned_address_aligned_8_witness :
  reachable 4096 c0 /\ step c0 (EvMalloc 1 4248) c1 /\
  (4248 - (4096 + 152)) mod 16 = 0 /\
  (4096 mod 8 = 0 -> 4248 mod 8 = 0) /\
  (4096 mod 16 = 0 -> 4248 mod 16 = 8).
Proof.
  assert (Hstep : step c0 (EvMalloc 1 4248) c1).
  { apply (step_malloc c0 1 heap1 4248);
      [apply request_ok_small; lia | vm_compute; reflexivity]. }
  split; [exact reach_c0 |]. split; [exact Hstep |].
  apply (returned_address_aligned_8 4096 c0 c1 (EvMalloc 1 4248) 4248 reach_c0 Hstep);
    [reflexivity | unfold NULL; lia].
Defined.

(** C2, as the spec words it, fails: in the state after mm_init on a heap
    based at 4096, mm_malloc(1) returns 4248, which is not a multiple of
    16. *)
Lemma returned_address_not_aligned_16 :
  reachable 4096 c0 /\
  mm_malloc (st c0) 1 = Some (heap1, 4248) /\
  4248 <> NULL /\ 4248 mod 16 <> 0.
Proof.
  split; [exact reach_c0 |].
  split; [vm_compute; reflexivity |].
  split; [unfold NULL; lia |].
  change (4248 mod 16) with 8. lia.
Qed.

(** ** mm_realloc, seen from the headers *)

(** What the headers of an allocated block and of its successor hold. *)
Lemma alloc_view (s : state) (L : list block) (p z : Z) :
  inv s L -> In (p, z, true) L ->
  0 < p /\ 64 <= z /\ block_size s p = z /\ GET_ALLOC (heap s) (HDRP p) = 1 /\
  NEXT_BLOCK (heap s) p = p + z /\
  exists nsz nal,
    next_size s p = nsz /\ next_alloc s p = flag nal 1 /\
    0 <= nsz /\ p + z + nsz < SIZE_MOD /\
    (nal = false ->
     exists l1 l2, L = l1 ++ (p, z, true) :: (p + z, nsz, false) :: l2).
Proof.
  intros Hinv Hin.
  pose proof (inv_block_pos _ _ _ _ _ Hinv Hin) as Hppos.
  pose proof Hinv as [Hbase Hfs Hpro Hm Hepi Hbrk Hmax Hna].
  pose proof (mst_end _ _ _ _ _ Hm) as Hend.
  pose proof (mst_chain _ _ _ _ _ Hm) as Hch.
  destruct (in_split _ _ Hin) as (l1 & l2 & EL).
  rewrite EL in Hch. apply chain_app in Hch. destruct Hch as [Hseg1 Hch].
  apply chain_cons_inv in Hch. destruct Hch as (Ep & Hz64 & Hzmod & Hh & _ & Hch2).
  destruct (chain_head _ _ _ _ Hch2) as (nsz & nal & Hnh & Hnmod & Hnsz & Hshape).
  pose proof Hch2 as [Hseg2 _].
  pose proof (seg_end_le _ _ _ _ Hseg2) as Hle2.
  assert (R2 : GET_SIZE (heap s) (HDRP p) = z)
    by (unfold HDRP, WSIZE; eapply read_size; eauto).
  assert (R1 : GET_ALLOC (heap s) (HDRP p) = 1)
    by (unfold HDRP, WSIZE; apply (read_alloc _ _ _ _ _ Hh Hzmod)).
  assert (R3 : NEXT_BLOCK (heap s) p = p + z)
    by (unfold NEXT_BLOCK; fold (HDRP p); rewrite R2; reflexivity).
  assert (R4 : GET_ALLOC (heap s) (HDRP (p + z)) = flag nal 1)
    by (unfold HDRP, WSIZE; eapply read_alloc; eauto).
  assert (R5 : GET_SIZE (heap s) (HDRP (p + z)) = nsz)
    by (unfold HDRP, WSIZE; eapply read_size; eauto).
  unfold block_size, next_size, next_alloc. rewrite R3.
  split; [exact Hppos |]. split; [exact Hz64 |]. split; [exact R2 |].
  split; [exact R1 |]. split; [reflexivity |].
  exists nsz, nal. split; [exact R5 |]. split; [exact R4 |]. split; [exact Hnsz |].
  rewrite EL, end_of_app in Hend. cbn [end_of] in Hend. rewrite <- Ep in Hend.
  destruct Hshape as [(-> & -> & ->) | (l2' & ->)].
  - split; [cbn [end_of] in *; lia |]. intros E. discriminate.
  - assert (Hnb : p + z + nsz <= end_of (p + z) ((p + z, nsz, nal) :: l2')).
    { cbn [seg end_of] in *. destruct Hseg2 as (_ & ? & _ & _ & _ & Hr).
      apply seg_end_le in Hr. assumption. }
    split; [lia |]. intros ->. exists l1, l2'. exact EL.
Qed.

(** Growing in place, as mm_realloc runs it. *)
Lemma realloc_absorb_run (s : state) l1 p z nsz l2 n :
  inv s (l1 ++ (p, z, true) :: (p + z, nsz, false) :: l2) ->
  request_ok n -> n <> 0 -> z < round_size n < z + nsz ->
  exists s',
    mm_realloc s p n = Some (s', p) /\
    inv s' (l1 ++ (p, z + nsz, true) :: l2) /\
    same_frame s s' /\
    GET_PREV_ALLOC (heap s') (HDRP (p + z + nsz)) = 2.
Proof.
  intros Hinv Hreq Hn0 Hsz.
  set (L := l1 ++ (p, z, true) :: (p + z, nsz, false) :: l2) in *.
  assert (Hin : In (p, z, true) L)
    by (unfold L; apply in_or_app; right; left; reflexivity).
  destruct (alloc_view s L p z Hinv Hin)
    as (Hp & Hz & R2 & _ & R3 & nsz' & nal & R5 & R4 & Hns & Hlt & _).
  pose proof (mst_chain _ _ _ _ _ (inv_mst _ _ Hinv)) as [Hseg _].
  assert (Hnx : In (p + z, nsz, false) L)
    by (unfold L; apply in_or_app; right; right; left; reflexivity).
  destruct (seg_In_hdr _ _ _ _ _ _ _ Hseg Hnx) as (pa' & Hnh & _).
  destruct (seg_In _ _ _ _ _ _ _ Hseg Hnx) as (_ & _ & _ & Hnmod & _).
  unfold block_size, next_size, next_alloc in *. rewrite R3 in R4, R5.
  assert (R5' : GET_SIZE (heap s) (HDRP (p + z)) = nsz)
    by (unfold HDRP, WSIZE; eapply read_size; eauto).
  assert (R4' : GET_ALLOC (heap s) (HDRP (p + z)) = 0)
    by (unfold HDRP, WSIZE; apply (read_alloc _ _ _ _ _ Hnh Hnmod)).
  rewrite R5' in R5. subst nsz'.
  destruct (round_size_spec n Hreq) as (_ & _ & Hnle & _).
  destruct (realloc_absorb_spec s l1 p z nsz l2 n Hinv ltac:(lia))
    as (Hsame & Hinv' & Hpa).
  cbn zeta in Hsame, Hinv', Hpa.
  unfold mm_realloc, NULL.
  destruct (Z.eqb_spec p 0) as [E | _]; [lia |].
  destruct (Z.eqb_spec n 0) as [E | _]; [contradiction |].
  cbn zeta. rewrite R3, R2, R4', R5'.
  destruct (Z.eqb_spec (round_size n) z) as [E | _]; [lia |].
  destruct (Z.gtb_spec (round_size n) z) as [_ | Hle]; [| lia].
  change (0 =? 0) with true. cbn [andb].
  rewrite wrap_small by lia.
  destruct (Z.gtb_spec (nsz + z) (round_size n)) as [_ | Hle]; [| lia].
  rewrite (Z.add_comm nsz z).
  eexists. split; [reflexivity |]. split; [exact Hinv' |]. split; [| exact Hpa].
  destruct Hsame as (_ & _ & _ & _ & _ & _ & _ & _ & Hsf). exact Hsf.
Qed.

(** C7 (as the code has it). For an allocated block ptr of a reachable state
    whose rounded request exceeds its size: if the successor is free and the
    two sizes together are strictly larger than the rounded request,
    mm_realloc returns ptr, the scan of the heap shows ptr with the sum of
    the two sizes in place of the two blocks, the successor is a node of no
    list, and the header after the grown block has its previous-allocated
    flag set. *)
Theorem realloc_absorbs_free_successor (base : Z) (c : config) (p n0 n : Z) :
  reachable base c -> In (p, n0) (live c) ->
  request_ok n -> n <> 0 ->
  block_size (st c) p < round_size n ->
  next_alloc (st c) p = 0 ->
  round_size n < block_size (st c) p + next_size (st c) p ->
  exists s' l1 l2,
    mm_realloc (st c) p n = Some (s', p) /\
    heap_blocks (st c) =
      Some (l1 ++ (p, block_size (st c) p, true)
               :: (NEXT_BLOCK (heap (st c)) p, next_size (st c) p, false) :: l2) /\
    heap_blocks s' =
      Some (l1 ++ (p, block_size (st c) p + next_size (st c) p, true) :: l2) /\
    block_size s' p = block_size (st c) p + next_size (st c) p /\
    GET_PREV_ALLOC (heap s') (HDRP (NEXT_BLOCK (heap s') p)) = 2 /\
    sorted_lists s' /\
    forall k l, 0 <= k < 16 -> bucket_list s' k = Some l ->
                ~ In (NEXT_BLOCK (heap (st c)) p) l.
Proof.
  intros Hreach Hin Hreq Hn0 Hgrow Hfree Hfit.
  destruct (reachable_cinv base c Hreach) as (L & HC).
  pose proof (cinv_first _ _ _ HC) as Hstart.
  destruct HC as [Hinv Hb Hs Hl Hr].
  destruct (proj1 (Hl p) (ex_intro _ n0 Hin)) as (z & Hz).
  destruct (alloc_view _ L p z Hinv Hz)
    as (Hp & Hz64 & R2 & _ & R3 & nsz & nal & R5 & R4 & Hns & Hlt & Hshape).
  rewrite Hfree in R4. destruct nal; [discriminate |].
  destruct (Hshape eq_refl) as (l1 & l2 & EL).
  rewrite R2, R5, R3 in *. subst L.
  destruct (realloc_absorb_run _ l1 p z nsz l2 n Hinv Hreq Hn0 ltac:(lia))
    as (s' & Hrun & Hinv' & Hsf & Hpa).
  destruct (same_frame_fields _ _ Hsf) as (F1 & F2 & F3 & F4 & F5 & F6 & F7).
  assert (Hstart' : heap_start s' = first_block s')
    by (unfold first_block in *; rewrite F4, F1; exact Hstart).
  assert (Hz' : In (p, z + nsz, true) (l1 ++ (p, z + nsz, true) :: l2))
    by (apply in_or_app; right; left; reflexivity).
  destruct (alloc_view _ _ p (z + nsz) Hinv' Hz') as (_ & _ & R2' & _ & R3' & _).
  exists s', l1, l2.
  split; [exact Hrun |].
  split; [exact (heap_blocks_inv _ _ Hinv Hstart) |].
  split; [exact (heap_blocks_inv _ _ Hinv' Hstart') |].
  split; [exact R2' |].
  split; [rewrite R3', Z.add_assoc; exact Hpa |].
  split; [exact (listed_sorted _ _ (listed_inv _ _ Hinv')) |].
  intros k l Hk Hbl Hnode.
  destruct (listed_only _ _ k (p + z) l (listed_inv _ _ Hinv') Hk Hbl Hnode)
    as (sz & Hsz & _).
  pose proof (mst_chain _ _ _ _ _ (inv_mst _ _ Hinv')) as [Hseg' _].
  destruct (seg_In _ _ _ _ _ _ _ Hseg' Hsz) as (_ & _ & H64 & _).
  destruct (seg_disjoint _ _ _ _ _ _ _ _ _ _ Hseg' Hsz Hz') as [E | Hd].
  - discriminate E.
  - lia.
Qed.

Lemma realloc_absorbs_free_successor_witness :
  exists s' l1 l2,
    mm_realloc (st c1) 4248 200 = Some (s', 4248) /\
    heap_blocks (st c1) =
      Some (l1 ++ (4248, block_size (st c1) 4248, true)
               :: (NEXT_BLOCK (heap (st c1)) 4248, next_size (st c1) 4248, false)
               :: l2) /\
    heap_blocks s' =
      Some (l1 ++ (4248, block_size (st c1) 4248 + next_size (st c1) 4248, true)
               :: l2) /\
    block_size s' 4248 = block_size (st c1) 4248 + next_size (st c1) 4248 /\
    GET_PREV_ALLOC (heap s') (HDRP (NEXT_BLOCK (heap s') 4248)) = 2 /\
    sorted_lists s' /\
    forall k l, 0 <= k < 16 -> bucket_list s' k = Some l ->
                ~ In (NEXT_BLOCK (heap (st c1)) 4248) l.
Proof.
  apply (realloc_absorbs_free_successor 4096 c1 4248 1 200 reach_c1).
  - left. reflexivity.
  - apply request_ok_small. lia.
  - lia.
  - vm_compute. reflexivity.
  - vm_compute. reflexivity.
  - vm_compute. reflexivity.
Defined.

(** C7, as the spec words it, fails: the block at 4248 has 64 bytes and a
    free successor of 192 bytes; a request of 225 bytes rounds to 256, which
    the two blocks together hold, and mm_realloc returns another address. *)
Lemma realloc_exact_fit_moves :
  reachable 4096 c1 /\ In (4248, 1) (live c1) /\
  block_size (st c1) 4248 = 64 /\ round_size 225 = 256 /\
  next_alloc (st c1) 4248 = 0 /\ next_size (st c1) 4248 = 192 /\
  round_size 225 <= block_size (st c1) 4248 + next_size (st c1) 4248 /\
  option_map snd (mm_realloc (st c1) 4248 225) = Some 4312 /\
  4312 <> 4248.
Proof.
  split; [exact reach_c1 |].
  split; [left; reflexivity |].
  repeat match goal with |- _ /\ _ => split end;
    vm_compute; solve [reflexivity | discriminate].
Qed.

(** ** Requests that shrink a block *)

(** C4. For every block ptr and every request n >= 1 whose rounded size is
    strictly smaller than the size in ptr's header, mm_realloc returns ptr
    and the state it returns is the state it was given: no byte of the heap,
    so no header and no list, has changed. *)
Theorem realloc_shrink_returns_same (s : state) (ptr n : Z) :
  ptr <> NULL -> 1 <= n ->
  round_size n < block_size s ptr ->
  mm_realloc s ptr n = Some (s, ptr).
Proof.
  intros Hp Hn Hlt. unfold block_size in Hlt. unfold mm_realloc.
  destruct (Z.eqb_spec ptr NULL) as [E | _]; [contradiction |].
  destruct (Z.eqb_spec n 0) as [E | _]; [lia |].
  cbn zeta.
  destruct (Z.eqb_spec (round_size n) (GET_SIZE (heap s) (HDRP ptr))) as [E | _];
    [lia |].
  destruct (Z.gtb_spec (round_size n) (GET_SIZE (heap s) (HDRP ptr))) as [H | _];
    [lia |].
  reflexivity.
Qed.

Lemma realloc_shrink_returns_same_witness :
  4312 <> NULL /\ 1 <= 1 /\ round_size 1 < block_size heap2 4312 /\
  mm_realloc heap2 4312 1 = Some (heap2, 4312).
Proof.
  assert (H1 : 4312 <> NULL) by (unfold NULL; lia).
  assert (H2 : 1 <= 1) by lia.
  assert (H3 : round_size 1 < block_size heap2 4312) by (vm_compute; reflexivity).
  split; [exact H1 |]. split; [exact H2 |]. split; [exact H3 |].
  exact (realloc_shrink_returns_same heap2 4312 1 H1 H2 H3).
Defined.

(** ** Running out of memory *)

Lemma inv_brk_pos (s : state) (L : list block) : inv s L -> 0 < mem_brk s.
Proof.
  intros Hinv. pose proof (inv_base _ _ Hinv).
  pose proof (mst_chain _ _ _ _ _ (inv_mst _ _ Hinv)) as [Hseg _].
  pose proof (seg_end_le _ _ _ _ Hseg).
  rewrite (inv_brk _ _ Hinv). unfold first_block in *. lia.
Qed.

(** Requests whose rounding does not wrap, [n + 31 < 2 ^ 64]: mm_malloc
    returns, and it returns NULL if and only if the request is 0 or no free
    block fits and mem_sbrk refuses the extension mm_malloc asks for; any
    other result is the address of an allocated block of the heap whose
    payload holds the bytes asked for. *)
Theorem malloc_null_iff_zero_or_refused (base : Z) (c : config) (n : Z) :
  reachable base c -> request_ok n ->
  exists s' r,
    mm_malloc (st c) n = Some (s', r) /\
    (r = NULL <->
     n = 0 \/
     (find_fit (st c) (round_size n) = Some NULL /\
      snd (mem_sbrk (st c) (MAX (round_size n) CHUNKSIZE)) = -1)) /\
    (r <> NULL ->
     exists L z, heap_blocks s' = Some L /\ In (r, z, true) L /\ n <= z - 8).
Proof.
  intros Hreach Hreq.
  destruct (reachable_cinv base c Hreach) as (L & HC).
  pose proof (cinv_inv _ _ _ HC) as Hinv.
  assert (Hrun : exists s' r, mm_malloc (st c) n = Some (s', r) /\
            (r = NULL <->
             n = 0 \/
             (find_fit (st c) (round_size n) = Some NULL /\
              snd (mem_sbrk (st c) (MAX (round_size n) CHUNKSIZE)) = -1))).
  { destruct (Z.eq_dec n 0) as [-> | Hnz].
    - exists (st c), NULL. split; [reflexivity |].
      split; [intros _; left; reflexivity | reflexivity].
    - destruct (mm_malloc_spec _ _ n Hinv Hreq Hnz) as (s' & r & Hrun & Hpost).
      exists s', r. split; [exact Hrun |]. unfold NULL, mem_sbrk.
      destruct Hpost as [(-> & _ & Hfit & Hfull) | (Hr0 & Hroom & _)].
      + split; [intros _ | reflexivity]. right. split; [exact Hfit |].
        destruct (Z.leb_spec (mem_brk (st c) + MAX (round_size n) CHUNKSIZE)
                             (mem_max_addr (st c))); [lia | reflexivity].
      + split; [intros E; contradiction |].
        intros [E | [Hfit Hsb]]; [contradiction |]. exfalso.
        specialize (Hroom Hfit). pose proof (inv_brk_pos _ _ Hinv).
        destruct (Z.leb_spec (mem_brk (st c) + MAX (round_size n) CHUNKSIZE)
                             (mem_max_addr (st c))); [cbn [snd] in Hsb |]; lia. }
  destruct Hrun as (s' & r & Hrun & Hiff).
  exists s', r. split; [exact Hrun |]. split; [exact Hiff |].
  intros Hr.
  destruct (cinv_malloc base c L n r s' HC Hreq Hrun) as (L' & HC').
  unfold hold in HC'. destruct (Z.eqb_spec r NULL) as [E | _]; [contradiction |].
  pose proof (cinv_first _ _ _ HC') as Hstart'.
  destruct HC' as [Hinv' _ _ Hl' Hr'].
  cbn [st live] in *.
  destruct (proj1 (Hl' r) (ex_intro _ n (or_introl eq_refl))) as (z & Hz).
  exists L', z. split; [exact (heap_blocks_inv _ _ Hinv' Hstart') |].
  split; [exact Hz |].
  destruct (Hr' r n z (or_introl eq_refl) Hz). lia.
Qed.

Lemma malloc_null_iff_zero_or_refused_witness :
  exists s' r,
    mm_malloc (st c1) 100 = Some (s', r) /\
    (r = NULL <->
     100 = 0 \/
     (find_fit (st c1) (round_size 100) = Some NULL /\
      snd (mem_sbrk (st c1) (MAX (round_size 100) CHUNKSIZE)) = -1)) /\
    (r <> NULL ->
     exists L z, heap_blocks s' = Some L /\ In (r, z, true) L /\ 100 <= z - 8).
Proof.
  apply (malloc_null_iff_zero_or_refused 4096 c1 100 reach_c1).
  apply request_ok_small. lia.
Defined.

(** C5. The run [mm_init; mm_malloc(2^64 - 31)]: the request is not 0, the
    rounded size wraps around to 0, find_fit takes the free block of 256
    bytes for it and mem_sbrk is never asked, let alone refuses; mm_malloc
    returns 4248, an address other than NULL, and leaves the block free: its
    allocated bit is 0, it is still the node of its free list and the end of
    the heap has not moved. The next call, [mm_malloc(1)], returns 4248
    again. *)
Theorem wrapped_request_returns_free_block :
  reachable 4096 c0 /\
  mm_init arena = Some (heap0, 0) /\
  heap_blocks heap0 = Some [(4248, 256, false)] /\
  round_size (2 ^ 64 - 31) = 0 /\
  find_fit heap0 (round_size (2 ^ 64 - 31)) = Some 4248 /\
  snd (mem_sbrk heap0 (MAX (round_size (2 ^ 64 - 31)) CHUNKSIZE)) = 4504 /\
  mm_malloc heap0 (2 ^ 64 - 31) = Some (zero1, 4248) /\
  heap_blocks zero1 = Some [(4248, 256, false)] /\
  GET_ALLOC (heap zero1) (HDRP 4248) = 0 /\
  bucket_list zero1 (get_list 256) = Some [4248] /\
  mem_brk zero1 = mem_brk heap0 /\
  mm_malloc zero1 1 = Some (zero2, 4248) /\
  heap_blocks zero2 = Some [(4248, 64, true); (4312, 192, false)].
Proof.
  split; [exact reach_c0 |].
  repeat match goal with |- _ /\ _ => split end; vm_compute; reflexivity.
Qed.

Lemma reach_c1_full : reachable 4096 c1_full.
Proof.
  apply (reach_step 4096 c1 (EvLimit 4504) c1_full reach_c1).
  apply (step_limit c1 4504). unfold SIZE_MOD. lia.
Defined.

(** C8. For an allocated block p of a reachable state and a request whose
    rounded size exceeds p's size: when mm_realloc does not grow p in place
    (the successor is allocated, or the two sizes together do not exceed the
    rounded size) and the mm_malloc it calls returns NULL, mm_realloc returns
    NULL and the state it was given: header, payload and allocated bit of p
    are as they were, and p stays in the client's hands. *)
Theorem realloc_failure_leaves_block (base : Z) (c : config) (p n0 n : Z)
        (s1 : state) :
  reachable base c -> In (p, n0) (live c) ->
  request_ok n -> n <> 0 -> request_ok (round_size n) ->
  block_size (st c) p < round_size n ->
  ~ (next_alloc (st c) p = 0 /\
     round_size n < next_size (st c) p + block_size (st c) p) ->
  mm_malloc (st c) (round_size n) = Some (s1, NULL) ->
  mm_realloc (st c) p n = Some (st c, NULL) /\
  GET_ALLOC (heap (st c)) (HDRP p) = 1 /\
  (forall r c', step c (EvRealloc p n r) c' -> r = NULL /\ c' = c).
Proof.
  intros Hreach Hin Hreq Hn0 Hreq2 Hgrow Hguard Hmalloc.
  destruct (reachable_cinv base c Hreach) as (L & HC).
  destruct HC as [Hinv Hb Hs Hl Hr].
  destruct (proj1 (Hl p) (ex_intro _ n0 Hin)) as (z & Hz).
  destruct (alloc_view _ L p z Hinv Hz)
    as (Hp & Hz64 & R2 & R1 & R3 & nsz & nal & R5 & R4 & Hns & Hlt & _).
  destruct (round_size_spec n Hreq) as (H64 & _).
  assert (Es1 : s1 = st c).
  { destruct (mm_malloc_spec _ _ (round_size n) Hinv Hreq2 ltac:(lia))
      as (s' & r' & Hrun & Hpost).
    rewrite Hmalloc in Hrun. inversion Hrun; subst s' r'.
    destruct Hpost as [(_ & E & _) | (Hne & _)]; [exact E |].
    exfalso. apply Hne. reflexivity. }
  subst s1.
  assert (Hrun : mm_realloc (st c) p n = Some (st c, NULL)).
  { unfold block_size, next_size, next_alloc in *.
    unfold mm_realloc. unfold NULL at 1 2.
    destruct (Z.eqb_spec p 0) as [E | _]; [lia |].
    destruct (Z.eqb_spec n 0) as [E | _]; [contradiction |].
    cbn zeta. rewrite R3 in *. rewrite R2, R4, R5 in *.
    destruct (Z.eqb_spec (round_size n) z) as [E | _]; [lia |].
    destruct (Z.gtb_spec (round_size n) z) as [_ | Hle]; [| lia].
    rewrite wrap_small by lia.
    assert (Hg : (flag nal 1 =? 0) && (nsz + z >? round_size n) = false).
    { destruct nal; [reflexivity |]. cbn [flag]. change (0 =? 0) with true.
      cbn [andb]. destruct (Z.gtb_spec (nsz + z) (round_size n)) as [Hgt | _];
        [| reflexivity].
      exfalso. apply Hguard. split; [reflexivity | lia]. }
    rewrite Hg, Hmalloc. cbn [bind]. unfold NULL. rewrite Z.eqb_refl. reflexivity. }
  split; [exact Hrun |]. split; [exact R1 |].
  intros r c' Hstep. inversion Hstep; subst; [unfold NULL in Hp; lia |].
  match goal with H : mm_realloc _ _ _ = Some (_, _) |- _ =>
    rewrite Hrun in H; inversion H; subst end.
  split; [reflexivity |].
  destruct (Z.eqb_spec n 0) as [E | _]; [contradiction |].
  rewrite Z.eqb_refl. destruct c; reflexivity.
Qed.

Lemma realloc_failure_leaves_block_witness :
  mm_realloc (st c1_full) 4248 1000 = Some (st c1_full, NULL) /\
  GET_ALLOC (heap (st c1_full)) (HDRP 4248) = 1 /\
  (forall r c', step c1_full (EvRealloc 4248 1000 r) c' ->
                r = NULL /\ c' = c1_full).
Proof.
  apply (realloc_failure_leaves_block 4096 c1_full 4248 1 1000 (st c1_full)
           reach_c1_full).
  - left. reflexivity.
  - apply request_ok_small. lia.
  - lia.
  - change (round_size 1000) with 1024. apply request_ok_small. lia.
  - vm_compute. reflexivity.
  - intros [_ H]. vm_compute in H. discriminate H.
  - vm_compute. reflexivity.
Defined.

(** ** Contents across a resize *)




(** * Further properties of the code *)

(** ** The macros on header words *)

(** X1. ALIGN rounds a size up to the next multiple of 8, as long as
    [size + 7] does not wrap around. *)
Theorem ALIGN_rounds_up (size : Z) :
  0 <= size -> size + 7 < SIZE_MOD ->
  ALIGN size mod 8 = 0 /\ size <= ALIGN size < size + 8 /\
  (size mod 8 = 0 -> ALIGN size = size).
Proof.
  intros H0 H1. unfold ALIGN, ALIGNMENT.
  rewrite wrap_small by lia. rewrite land_lnot7.
  replace (size + (8 - 1)) with (size + 7) by lia.
  pose proof (Z.div_mod (size + 7) 8 ltac:(lia)) as Hd.
  pose proof (Z.mod_pos_bound (size + 7) 8 ltac:(lia)) as Hb.
  split; [rewrite Z.mul_comm; apply Z.mod_mul; lia |].
  split; [lia |].
  intros Hm. Z.div_mod_to_equations. lia.
Qed.

Lemma ALIGN_rounds_up_witness :
  ALIGN 13 mod 8 = 0 /\ 13 <= ALIGN 13 < 13 + 8 /\
  (13 mod 8 = 0 -> ALIGN 13 = 13).
Proof.
  apply (ALIGN_rounds_up 13); [lia | unfold SIZE_MOD; lia].
Defined.

Lemma flag_cases_2 (pa : Z) : pa = 0 \/ pa = 2 -> exists b, pa = flag b 2.
Proof. intros [-> | ->]; [exists false | exists true]; reflexivity. Qed.

Lemma flag_cases_1 (al : Z) : al = 0 \/ al = 1 -> exists b, al = flag b 1.
Proof. intros [-> | ->]; [exists false | exists true]; reflexivity. Qed.

(** X2. A header written with PACK reads back field by field: for a size
    that is a multiple of 8, a previous-allocated flag of 0 or 2 and an
    allocated flag of 0 or 1, GET_SIZE, GET_PREV_ALLOC and GET_ALLOC at the
    address of the PUT return the three arguments, and a word 8 bytes or
    more away reads as before. *)
Theorem header_read_back (m : mem) (p size prev_alloc alloc : Z) :
  0 <= size < SIZE_MOD -> size mod 8 = 0 ->
  prev_alloc = 0 \/ prev_alloc = 2 -> alloc = 0 \/ alloc = 1 ->
  let m' := PUT m p (PACK size prev_alloc alloc) in
  GET_SIZE m' p = size /\ GET_PREV_ALLOC m' p = prev_alloc /\
  GET_ALLOC m' p = alloc /\
  forall q, q + 8 <= p \/ p + 8 <= q -> GET m' q = GET m q.
Proof.
  intros Hs Hm Hpa Hal m'.
  destruct (flag_cases_2 _ Hpa) as (pa & ->).
  destruct (flag_cases_1 _ Hal) as (al & ->).
  assert (Hr : 0 <= hv size pa al < SIZE_MOD).
  { apply hv_range; [lia |]. unfold SIZE_MOD in *.
    Z.div_mod_to_equations. lia. }
  unfold m'. rewrite PACK_hv by exact Hm.
  unfold GET_SIZE, GET_PREV_ALLOC, GET_ALLOC. rewrite GET_PUT_same by exact Hr.
  split; [apply hv_size; exact Hm |].
  split; [apply hv_prev_alloc; exact Hm |].
  split; [apply hv_alloc; exact Hm |].
  intros q Hq. apply GET_PUT_other. exact Hq.
Qed.

Lemma header_read_back_witness :
  let m' := PUT (fun _ => 0) 4240 (PACK 240 2 1) in
  GET_SIZE m' 4240 = 240 /\ GET_PREV_ALLOC m' 4240 = 2 /\
  GET_ALLOC m' 4240 = 1 /\
  forall q, q + 8 <= 4240 \/ 4240 + 8 <= q -> GET m' q = GET (fun _ => 0) q.
Proof.
  apply (header_read_back (fun _ => 0) 4240 240 2 1);
    [unfold SIZE_MOD; lia | reflexivity | right; reflexivity | right; reflexivity].
Defined.

Lemma lor_range (a b : Z) :
  0 <= a < SIZE_MOD -> 0 <= b < SIZE_MOD -> 0 <= Z.lor a b < SIZE_MOD.
Proof.
  intros Ha Hb. unfold SIZE_MOD in *.
  assert (H0 : 0 <= Z.lor a b) by (apply Z.lor_nonneg; lia).
  split; [exact H0 |].
  destruct (Z.eq_dec (Z.lor a b) 0) as [-> | Hne]; [lia |].
  apply Z.log2_lt_pow2; [lia |].
  rewrite Z.log2_lor by lia.
  assert (La : Z.log2 a < 64).
  { destruct (Z.eq_dec a 0) as [-> | Hn]; [simpl; lia |].
    apply Z.log2_lt_pow2; lia. }
  assert (Lb : Z.log2 b < 64).
  { destruct (Z.eq_dec b 0) as [-> | Hn]; [simpl; lia |].
    apply Z.log2_lt_pow2; lia. }
  lia.
Qed.

Lemma land_range (w c : Z) :
  0 <= w < SIZE_MOD -> 0 <= Z.land w c < SIZE_MOD.
Proof.
  intros Hw. unfold SIZE_MOD in *.
  assert (E : Z.land (Z.land w c) (Z.ones 64) = Z.land w c).
  { rewrite <- Z.land_assoc, (Z.land_comm c), Z.land_assoc.
    rewrite (Z.land_ones w 64) by lia. rewrite Z.mod_small by lia.
    reflexivity. }
  rewrite Z.land_ones in E by lia. rewrite <- E.
  apply Z.mod_pos_bound. lia.
Qed.

Lemma land_mult8 (v : Z) : v mod 8 = 0 -> Z.land v (Z.lnot 7) = v.
Proof.
  intros H. rewrite land_lnot7. Z.div_mod_to_equations. lia.
Qed.

Ltac bits :=
  rewrite ?Z.land_lor_distr_l, <- ?Z.land_assoc;
  change (Z.land (Z.lnot 7) (Z.lnot 7)) with (Z.lnot 7);
  change (Z.land (Z.lnot 7) 2) with 0; change (Z.land (Z.lnot 7) 1) with 0;
  change (Z.land 2 (Z.lnot 7)) with 0; change (Z.land 1 (Z.lnot 7)) with 0;
  change (Z.land 0 (Z.lnot 7)) with 0;
  change (Z.land 2 2) with 2; change (Z.land 1 1) with 1;
  change (Z.land 2 1) with 0; change (Z.land 1 2) with 0;
  change (Z.land 0 1) with 0; change (Z.land 0 2) with 0;
  rewrite ?Z.land_0_r, ?Z.lor_0_r, ?Z.lor_0_l.

(** X3. CHANGE_SIZE, CHANGE_ALLOC and CHANGE_PREV each replace one field of
    the header word at [p] and keep the two others, whatever the word was:
    the size (a multiple of 8), the allocated flag (0 or 1), the
    previous-allocated flag (0 or 2). *)
Theorem change_one_field (m : mem) (p size prev_alloc alloc : Z) :
  0 <= size < SIZE_MOD -> size mod 8 = 0 ->
  prev_alloc = 0 \/ prev_alloc = 2 -> alloc = 0 \/ alloc = 1 ->
  (GET_SIZE (CHANGE_SIZE m p size) p = size /\
   GET_PREV_ALLOC (CHANGE_SIZE m p size) p = GET_PREV_ALLOC m p /\
   GET_ALLOC (CHANGE_SIZE m p size) p = GET_ALLOC m p) /\
  (GET_SIZE (CHANGE_ALLOC m p alloc) p = GET_SIZE m p /\
   GET_PREV_ALLOC (CHANGE_ALLOC m p alloc) p = GET_PREV_ALLOC m p /\
   GET_ALLOC (CHANGE_ALLOC m p alloc) p = alloc) /\
  (GET_SIZE (CHANGE_PREV m p prev_alloc) p = GET_SIZE m p /\
   GET_PREV_ALLOC (CHANGE_PREV m p prev_alloc) p = prev_alloc /\
   GET_ALLOC (CHANGE_PREV m p prev_alloc) p = GET_ALLOC m p).
Proof.
  intros Hs Hm Hpa Hal.
  pose proof (GET_range m p) as Hw.
  unfold CHANGE_SIZE, CHANGE_ALLOC, CHANGE_PREV, GET_SIZE, GET_PREV_ALLOC,
    GET_ALLOC, PACK.
  set (w := GET m p) in *.
  assert (Hal' : 0 <= alloc < SIZE_MOD) by (unfold SIZE_MOD; lia).
  assert (Hpa' : 0 <= prev_alloc < SIZE_MOD) by (unfold SIZE_MOD; lia).
  assert (Es2 : Z.land size 2 = 0)
    by (rewrite land_low3, Hm by lia; reflexivity).
  assert (Es1 : Z.land size 1 = 0)
    by (rewrite land_low3, Hm by lia; reflexivity).
  rewrite !GET_PUT_same
    by (repeat apply lor_range; try apply land_range; assumption).
  split; [| split].
  - bits. rewrite (land_mult8 size Hm), Es2, Es1. bits. auto.
  - bits. destruct Hal as [-> | ->]; bits; auto.
  - bits. destruct Hpa as [-> | ->]; bits; auto.
Qed.

Lemma change_one_field_witness :
  let m := PUT (fun _ => 0) 4240 243 in
  (GET_SIZE (CHANGE_SIZE m 4240 64) 4240 = 64 /\
   GET_PREV_ALLOC (CHANGE_SIZE m 4240 64) 4240 = GET_PREV_ALLOC m 4240 /\
   GET_ALLOC (CHANGE_SIZE m 4240 64) 4240 = GET_ALLOC m 4240) /\
  (GET_SIZE (CHANGE_ALLOC m 4240 0) 4240 = GET_SIZE m 4240 /\
   GET_PREV_ALLOC (CHANGE_ALLOC m 4240 0) 4240 = GET_PREV_ALLOC m 4240 /\
   GET_ALLOC (CHANGE_ALLOC m 4240 0) 4240 = 0) /\
  (GET_SIZE (CHANGE_PREV m 4240 0) 4240 = GET_SIZE m 4240 /\
   GET_PREV_ALLOC (CHANGE_PREV m 4240 0) 4240 = 0 /\
   GET_ALLOC (CHANGE_PREV m 4240 0) 4240 = GET_ALLOC m 4240).
Proof.
  apply (change_one_field (PUT (fun _ => 0) 4240 243) 4240 64 0 0);
    [unfold SIZE_MOD; lia | reflexivity | left; reflexivity | left; reflexivity].
Defined.

(** ** The size classes *)

(** X4. get_list is monotone and stays between 0 and 15; only size 0 has
    class 0. *)
Theorem get_list_monotone (a b : Z) :
  0 <= a <= b ->
  0 <= get_list a <= get_list b /\ get_list b <= 15 /\
  (get_list a = 0 <-> a = 0).
Proof.
  intros Hab.
  pose proof (get_list_range a ltac:(lia)) as Ha.
  pose proof (get_list_range b ltac:(lia)) as Hb.
  destruct (Z.eq_dec a 0) as [-> | Hne].
  - change (get_list 0) with 0. split; [lia |]. split; [lia |].
    split; reflexivity.
  - assert (Hmono : get_list a <= get_list b /\ 1 <= get_list a).
    { rewrite !get_list_classify by lia. unfold classify.
      pose proof (Z.log2_le_mono a b ltac:(lia)).
      pose proof (Z.log2_nonneg a). lia. }
    split; [lia |]. split; [lia |]. split; [lia | contradiction].
Qed.

Lemma get_list_monotone_witness :
  0 <= get_list 64 <= get_list 256 /\ get_list 256 <= 15 /\
  (get_list 64 = 0 <-> 64 = 0).
Proof. apply (get_list_monotone 64 256). lia. Defined.

(** ** What the operations leave alone *)

Lemma same_frame_refl (s : state) : same_frame s s.
Proof. destruct s; reflexivity. Qed.

Lemma same_frame_trans (s1 s2 s3 : state) :
  same_frame s1 s2 -> same_frame s2 s3 -> same_frame s1 s3.
Proof. unfold same_frame. intros -> ->. reflexivity. Qed.

Lemma same_frame_with_heap (s : state) (m : mem) : same_frame s (with_heap s m).
Proof. reflexivity. Qed.

Lemma remove_block_frame (s : state) (p : Z) : same_frame s (remove_block s p).
Proof. reflexivity. Qed.

Lemma add_block_frame (s : state) (p : Z) (s' : state) :
  add_block s p = Some s' -> same_frame s s'.
Proof.
  unfold add_block. cbn zeta.
  repeat match goal with
         | |- context [if ?c then _ else _] => destruct c
         | |- context [bind ?o _] => destruct o; cbn [bind]
         end;
    intros H; inversion H; reflexivity.
Qed.

Lemma put_header_footer_frame (s : state) (p v : Z) :
  same_frame s (put_header_footer s p v).
Proof. reflexivity. Qed.

Lemma coalesce_frame (s : state) (p : Z) (s' : state) (r : Z) :
  coalesce s p = Some (s', r) -> same_frame s s'.
Proof.
  unfold coalesce. cbn zeta.
  repeat match goal with
         | |- context [if ?c then _ else _] => destruct c
         end;
    try match goal with
        | |- context [bind (add_block ?x ?y) _] =>
            destruct (add_block x y) as [s3 |] eqn:Hadd; cbn [bind];
            [apply add_block_frame in Hadd | discriminate]
        end;
    intros H; inversion H; subst;
    first [ exact Hadd
          | eapply same_frame_trans; [| exact Hadd]; reflexivity
          | reflexivity ].
Qed.

Lemma place_frame (s : state) (p size : Z) (s' : state) (r : Z) :
  place s p size = Some (s', r) -> same_frame s s'.
Proof.
  unfold place. cbn zeta.
  destruct (_ >? _).
  - match goal with
    | |- context [bind (add_block ?x ?y) _] =>
        destruct (add_block x y) as [s3 |] eqn:Hadd; cbn [bind];
        [apply add_block_frame in Hadd | discriminate]
    end.
    intros H; inversion H; subst.
    eapply same_frame_trans; [| exact Hadd]. reflexivity.
  - intros H; inversion H; reflexivity.
Qed.

Lemma mm_free_frame (s : state) (p : Z) (s' : state) :
  mm_free s p = Some s' -> same_frame s s'.
Proof.
  unfold mm_free. cbn zeta.
  match goal with
  | |- context [bind (coalesce ?x ?y) _] =>
      destruct (coalesce x y) as [[s1 r] |] eqn:Hco; cbn [bind];
      [apply coalesce_frame in Hco | discriminate]
  end.
  intros H; inversion H; subst.
  eapply same_frame_trans; [| exact Hco]. reflexivity.
Qed.

Lemma same_frame_grows (s s' : state) : same_frame s s' -> grows s s'.
Proof.
  intros H. destruct (same_frame_fields _ _ H) as (F1 & F2 & F3 & F4 & F5 & F6 & F7).
  unfold grows. rewrite F1, F2, F3, F4, F5, F6. repeat split; lia.
Qed.

Lemma grows_trans (s1 s2 s3 : state) : grows s1 s2 -> grows s2 s3 -> grows s1 s3.
Proof.
  unfold grows. intros (A1 & A2 & A3 & A4 & A5 & A6) (B1 & B2 & B3 & B4 & B5 & B6).
  rewrite B1, B2, B3, B4, B5, A1, A2, A3, A4, A5. repeat split; lia.
Qed.

Lemma extend_heap_run (s : state) (words : Z) (s' : state) (r : Z) :
  extend_heap s words = Some (s', r) ->
  grows s s' /\
  (mem_max_addr s < mem_brk s + extend_bytes words -> s' = s /\ r = NULL) /\
  (mem_brk s + extend_bytes words <= mem_max_addr s -> mem_brk s <> -1 ->
   mem_brk s' = mem_brk s + extend_bytes words).
Proof.
  unfold extend_heap, mem_sbrk. fold (extend_bytes words).
  assert (Hpos : 0 <= extend_bytes words).
  { unfold extend_bytes, wrap, SIZE_MOD.
    destruct (negb _); apply Z.mod_pos_bound; lia. }
  destruct (Z.leb_spec (mem_brk s + extend_bytes words) (mem_max_addr s))
    as [Hok | Hno].
  - destruct (Z.eqb_spec (mem_brk s) (-1)) as [E | Hne].
    + intros H. inversion H; subst. split; [apply same_frame_grows, same_frame_refl |].
      split; [lia | intros _ Hc; contradiction].
    + cbn zeta.
      set (s2 := with_heap_epilogue _ _).
      assert (G2 : grows s s2 /\ mem_brk s2 = mem_brk s + extend_bytes words).
      { unfold grows, s2. cbn. repeat split; lia. }
      destruct G2 as [G2 B2].
      destruct (negb _).
      * destruct (add_block s2 (mem_brk s)) as [s3 |] eqn:Hadd; cbn [bind];
          [| discriminate].
        intros H. inversion H; subst.
        apply add_block_frame in Hadd.
        destruct (same_frame_fields _ _ Hadd) as (F1 & F2 & _).
        split; [exact (grows_trans _ _ _ G2 (same_frame_grows _ _ Hadd)) |].
        split; [lia |]. intros _ _. lia.
      * intros H. pose proof (coalesce_frame _ _ _ _ H) as Hco.
        destruct (same_frame_fields _ _ Hco) as (F1 & F2 & _).
        split; [exact (grows_trans _ _ _ G2 (same_frame_grows _ _ Hco)) |].
        split; [lia |]. intros _ _. lia.
  - destruct (Z.eqb_spec (-1) (-1)) as [_ | N]; [| contradiction].
    intros H. inversion H; subst.
    split; [apply same_frame_grows, same_frame_refl |].
    split; [intros _; split; reflexivity | lia].
Qed.

Lemma mm_malloc_grows (s : state) (n : Z) (s' : state) (r : Z) :
  mm_malloc s n = Some (s', r) -> grows s s'.
Proof.
  unfold mm_malloc. destruct (n =? 0).
  { intros H. inversion H. apply same_frame_grows, same_frame_refl. }
  cbn zeta. destruct (find_fit s (round_size n)) as [p |]; cbn [bind];
    [| discriminate].
  destruct (negb (p =? NULL)).
  - destruct (place s p (round_size n)) as [[s1 q] |] eqn:Hpl; cbn [bind];
      [| discriminate].
    intros H. inversion H; subst.
    apply same_frame_grows. exact (place_frame _ _ _ _ _ Hpl).
  - destruct (extend_heap s _) as [[s1 q] |] eqn:Hex; cbn [bind];
      [| discriminate].
    destruct (extend_heap_run _ _ _ _ Hex) as (G1 & _).
    destruct (q =? NULL).
    + intros H. inversion H; subst. exact G1.
    + destruct (place s1 q (round_size n)) as [[s2 q'] |] eqn:Hpl; cbn [bind];
        [| discriminate].
      intros H. inversion H; subst.
      exact (grows_trans _ _ _ G1 (same_frame_grows _ _ (place_frame _ _ _ _ _ Hpl))).
Qed.

Lemma mm_realloc_grows (s : state) (p n : Z) (s' : state) (r : Z) :
  mm_realloc s p n = Some (s', r) -> grows s s'.
Proof.
  unfold mm_realloc. destruct (p =? NULL); [apply mm_malloc_grows |].
  destruct (n =? 0).
  { destruct (mm_free s p) as [s1 |] eqn:Hf; cbn [bind]; [| discriminate].
    intros H. inversion H; subst.
    exact (same_frame_grows _ _ (mm_free_frame _ _ _ Hf)). }
  cbn zeta.
  destruct (_ =? _).
  { intros H. inversion H. apply same_frame_grows, same_frame_refl. }
  destruct (_ >? _).
  - destruct (_ && _).
    + intros H. inversion H. apply same_frame_grows. reflexivity.
    + destruct (mm_malloc s (round_size n)) as [[s1 q] |] eqn:Hm; cbn [bind];
        [| discriminate].
      pose proof (mm_malloc_grows _ _ _ _ Hm) as G1.
      destruct (q =? NULL).
      * intros H. inversion H; subst. exact G1.
      * destruct (mm_free _ p) as [s3 |] eqn:Hf; cbn [bind]; [| discriminate].
        intros H. inversion H; subst.
        apply mm_free_frame in Hf.
        refine (grows_trans _ _ _ G1 (same_frame_grows _ _ _)).
        eapply same_frame_trans; [| exact Hf]. reflexivity.
  - cbn [andb]. intros H. inversion H. apply same_frame_grows, same_frame_refl.
Qed.

(** X5. Whatever state and arguments they are given, when mm_malloc,
    mm_free and mm_realloc return they have not moved the base of the heap,
    its limit, the array of roots, the prologue or the first block, and they
    have not lowered the end of the heap; mm_free changes bytes of the heap
    and nothing else. *)
Theorem operations_only_grow (s : state) (p n : Z) :
  (forall s' r, mm_malloc s n = Some (s', r) -> grows s s') /\
  (forall s', mm_free s p = Some s' -> same_frame s s') /\
  (forall s' r, mm_realloc s p n = Some (s', r) -> grows s s').
Proof.
  split; [intros s' r; apply mm_malloc_grows |].
  split; [intros s'; apply mm_free_frame |].
  intros s' r. apply mm_realloc_grows.
Qed.

(** ** mm_init *)

Lemma mm_init_run (m0 : mem) (base lim : Z) (s : state) (r : Z) :
  0 < base ->
  mm_init (boot m0 base lim) = Some (s, r) ->
  (r = 0 \/ r = -1) /\
  (r = 0 -> base + 408 <= lim /\ mem_brk s = base + 408).
Proof.
  intros Hbase. unfold mm_init, mem_sbrk, boot. cbn [mem_brk mem_max_addr].
  change ((MAX_LISTS + 3) * WSIZE) with 152.
  destruct (Z.leb_spec (base + 152) lim) as [Hok | Hno].
  2:{ destruct (Z.eqb_spec (-1) (-1)) as [_ | N]; [| contradiction].
      intros H. inversion H. split; [right; reflexivity | lia]. }
  destruct (Z.eqb_spec base (-1)) as [E | _]; [lia |].
  cbn zeta.
  match goal with
  | |- context [bind (extend_heap ?x ?y) _] =>
      destruct (extend_heap x y) as [[s6 r6] |] eqn:Hex; cbn [bind];
      [| discriminate]
  end.
  destruct (extend_heap_run _ _ _ _ Hex) as (_ & Hfail & Hgrow).
  change (extend_bytes (CHUNKSIZE / WSIZE)) with 256 in Hfail, Hgrow.
  cbn [mem_brk mem_max_addr with_heap with_heap_epilogue with_heap_prologue
       with_free_start with_brk] in Hfail, Hgrow.
  destruct (Z.eqb_spec r6 NULL) as [E | Hne]; intros H; inversion H; subst.
  - split; [right; reflexivity | lia].
  - split; [left; reflexivity |]. intros _.
    destruct (Z.le_gt_cases (base + 152 + 256) lim) as [Hle | Hgt].
    + split; [lia |]. cbn [mem_brk with_heap_start]. rewrite Hgrow; lia.
    + destruct (Hfail ltac:(lia)) as [_ E]. contradiction.
Qed.

Lemma asc_all_eq (l : list Z) (x lo : Z) :
  asc lo l -> (forall b, In b l <-> b = x) -> l = [x].
Proof.
  intros Hasc Hmem.
  destruct l as [| a r].
  - exfalso. apply (proj2 (Hmem x) eq_refl).
  - assert (a = x) by (apply Hmem; left; reflexivity). subst a.
    destruct r as [| b r']; [reflexivity |].
    exfalso. destruct Hasc as (_ & Hlt & _).
    assert (b = x) by (apply Hmem; right; left; reflexivity). lia.
Qed.

Lemma list_none_nil (l : list Z) : (forall b, ~ In b l) -> l = [].
Proof.
  destruct l as [| a r]; [reflexivity |].
  intros H. exfalso. apply (H a). left. reflexivity.
Qed.

(** X6. mm_init on an empty region at [base] returns 0 if the memory
    system lets the region grow by 152 + 256 bytes and -1 otherwise; after
    a return of 0 the heap is one free block of 256 bytes at [base + 152],
    the only node of the list of class 9, and the 15 other lists are
    empty. *)
Theorem mm_init_outcome (m0 : mem) (base lim : Z) :
  0 < base -> lim < SIZE_MOD ->
  exists s r,
    mm_init (boot m0 base lim) = Some (s, r) /\
    (r = 0 \/ r = -1) /\ (r = 0 <-> base + 408 <= lim) /\
    (r = 0 ->
     heap_start s = base + 152 /\ mem_brk s = base + 408 /\
     heap_blocks s = Some [(base + 152, 256, false)] /\
     bucket_list s 9 = Some [base + 152] /\
     forall k, 0 <= k < 16 -> k <> 9 -> bucket_list s k = Some []).
Proof.
  intros Hbase Hlim.
  destruct (mm_init_spec m0 base lim Hbase Hlim) as (s & r & Hrun & Hok & Hgood).
  destruct (mm_init_run m0 base lim s r Hbase Hrun) as (Hr & Hbrk).
  exists s, r. split; [exact Hrun |]. split; [exact Hr |].
  split; [split; [intros E; apply (Hbrk E) | exact Hok] |].
  intros E. destruct (Hgood E) as (E1 & E2 & _ & L & Hinv & Hnone).
  destruct (Hbrk E) as (_ & Eb).
  assert (Hstart : heap_start s = first_block s)
    by (unfold first_block; rewrite E1, E2; reflexivity).
  assert (EL : L = [(base + 152, 256, false)]).
  { pose proof (inv_brk _ _ Hinv) as Hb. unfold first_block in Hb.
    rewrite E1, Eb in Hb.
    destruct (inv_all_free _ _ Hinv Hnone) as [-> | (z & ->)];
      cbn [end_of] in Hb; [lia |].
    unfold first_block. rewrite E1. replace z with 256 by lia. reflexivity. }
  subst L.
  split; [exact E2 |]. split; [exact Eb |].
  split; [exact (heap_blocks_inv _ _ Hinv Hstart) |].
  pose proof (listed_inv _ _ Hinv) as Hl.
  assert (HF : forall b k, Fr [(base + 152, 256, false)] b k <->
                           b = base + 152 /\ k = 9).
  { intros b k. split.
    - intros (z & [Ein | []] & Hk). inversion Ein; subst. split; reflexivity.
    - intros [-> ->]. exists 256. split; [left; reflexivity | reflexivity]. }
  split.
  - destruct (Hl 9 ltac:(lia)) as (l & Hbl & Hasc & _ & Hmem).
    rewrite Hbl. f_equal. apply (asc_all_eq l (base + 152) 0 Hasc).
    intros b. rewrite Hmem, HF. split; [intros [H _]; exact H | intros H; split; [exact H | reflexivity]].
  - intros k Hk Hne. destruct (Hl k Hk) as (l & Hbl & _ & _ & Hmem).
    rewrite Hbl. f_equal. apply list_none_nil.
    intros b Hb. apply Hmem, HF in Hb. destruct Hb as [_ E9]. contradiction.
Qed.

Lemma mm_init_outcome_witness :
  exists s r,
    mm_init (boot mem0 4096 (4096 + 20 * 1048576)) = Some (s, r) /\
    (r = 0 \/ r = -1) /\ (r = 0 <-> 4096 + 408 <= 4096 + 20 * 1048576) /\
    (r = 0 ->
     heap_start s = 4096 + 152 /\ mem_brk s = 4096 + 408 /\
     heap_blocks s = Some [(4096 + 152, 256, false)] /\
     bucket_list s 9 = Some [4096 + 152] /\
     forall k, 0 <= k < 16 -> k <> 9 -> bucket_list s k = Some []).
Proof.
  apply (mm_init_outcome mem0 4096 (4096 + 20 * 1048576));
    [lia | unfold SIZE_MOD; lia].
Defined.

(** ** The shape of the heap *)




(** ** The blocks in the client's hands *)






(** X10. A call of mm_malloc that returns NULL has changed nothing: in every
    reachable state the state it returns is the state it was given, whether
    the request was 0 or mem_sbrk refused to extend the heap. *)
Theorem failed_malloc_changes_nothing (base : Z) (c : config) (n : Z) (s' : state) :
  reachable base c -> request_ok n ->
  mm_malloc (st c) n = Some (s', NULL) -> s' = st c.
Proof.
  intros Hreach Hreq Hrun.
  destruct (reachable_cinv base c Hreach) as (L & HC).
  pose proof (cinv_inv _ _ _ HC) as Hinv.
  destruct (Z.eq_dec n 0) as [-> | Hnz].
  - cbn in Hrun. inversion Hrun. reflexivity.
  - destruct (mm_malloc_spec _ _ n Hinv Hreq Hnz) as (s1 & r1 & Hrun1 & Hpost).
    rewrite Hrun in Hrun1. inversion Hrun1; subst s1 r1.
    destruct Hpost as [(_ & E & _) | (Hne & _)]; [exact E |].
    exfalso. apply Hne. reflexivity.
Qed.

Lemma failed_malloc_changes_nothing_witness :
  reachable 4096 c1_full /\ request_ok 1000 /\
  mm_malloc (st c1_full) 1000 = Some (st c1_full, NULL) /\
  st c1_full = st c1_full.
Proof.
  assert (H1 : request_ok 1000) by (apply request_ok_small; lia).
  assert (H2 : mm_malloc (st c1_full) 1000 = Some (st c1_full, NULL))
    by (vm_compute; reflexivity).
  split; [exact reach_c1_full |]. split; [exact H1 |]. split; [exact H2 |].
  exact (failed_malloc_changes_nothing 4096 c1_full 1000 (st c1_full)
           reach_c1_full H1 H2).
Defined.

(** ** find_fit *)






(** ** place *)



(** ** mm_malloc and the end of the heap *)




(** ** mm_free and coalesce *)








(** ** extend_heap *)



(** ** mm_realloc *)

(** Requests of [2 ^ 64 - 31] bytes and more: the rounded size wraps around
    to 0 or 16, below the size of every block. *)
Lemma round_size_wrapped (n : Z) :
  0 <= n < SIZE_MOD -> ~ request_ok n -> round_size n = 0 \/ round_size n = 16.
Proof.
  intros Hn Hreq. unfold request_ok in Hreq.
  assert (Hw : SIZE_MOD <= n + 31) by lia.
  unfold round_size, DWORD, wrap. unfold SIZE_MOD in *.
  destruct (Z.leb_spec n 32) as [Hle | Hgt]; [lia |].
  replace (n + 16 + (16 - 1)) with ((n + 31 - 2 ^ 64) + 1 * 2 ^ 64) by lia.
  rewrite Z.mod_add by lia. rewrite Z.mod_small by lia.
  assert (H : (n + 31 - 2 ^ 64) / 16 = 0 \/ (n + 31 - 2 ^ 64) / 16 = 1).
  { assert (0 <= (n + 31 - 2 ^ 64) / 16) by (apply Z.div_pos; lia).
    assert ((n + 31 - 2 ^ 64) / 16 < 2) by (apply Z.div_lt_upper_bound; lia).
    lia. }
  destruct H as [-> | ->]; [left | right]; reflexivity.
Qed.


(** The rounded size of a request can be rounded once more without wrapping
    for all requests but the sixteen from [2 ^ 64 - 47] to [2 ^ 64 - 32]. *)
Lemma round_size_again (n : Z) :
  0 <= n < SIZE_MOD ->
  request_ok (round_size n) <-> n <= 2 ^ 64 - 48 \/ 2 ^ 64 - 31 <= n.
Proof.
  intros Hn.
  assert (Hdec : request_ok n \/ ~ request_ok n) by (unfold request_ok; lia).
  destruct Hdec as [Hreq | Hwrap].
  - destruct (round_size_spec n Hreq) as (H64 & _ & _ & _).
    unfold request_ok in *. unfold round_size, DWORD in *. unfold SIZE_MOD in *.
    destruct (Z.leb_spec n 32) as [Hle | Hgt]; [lia |].
    rewrite wrap_small in * by (unfold SIZE_MOD; lia).
    replace (n + 16 + (16 - 1)) with (n + 31) in * by lia.
    pose proof (Z.div_mod (n + 31) 16 ltac:(lia)) as Hdm.
    pose proof (Z.mod_pos_bound (n + 31) 16 ltac:(lia)) as Hmb.
    lia.
  - split.
    + intros _. right. unfold request_ok, SIZE_MOD in *. lia.
    + intros _. destruct (round_size_wrapped n Hn Hwrap) as [-> | ->];
        unfold request_ok, SIZE_MOD; lia.
Qed.

(** For one of those sixteen the rounded size is [2 ^ 64 - 16], more than
    any block and its successor hold, so mm_realloc calls mm_malloc and,
    when it gets an address, memcpy for [2 ^ 64 - 16] bytes, more than the
    address space holds above any block. *)
Lemma realloc_copies_whole_range (s : state) (L : list block) (p z n : Z) :
  inv s L -> In (p, z, true) L ->
  2 ^ 64 - 47 <= n <= 2 ^ 64 - 32 ->
  round_size n = 2 ^ 64 - 16 /\
  mm_realloc s p n =
  match mm_malloc s (round_size n) with
  | Some (s1, q) =>
      if q =? NULL then Some (s1, NULL)
      else match mm_free (with_heap s1 (memcpy (heap s1) q p (round_size n))) p with
           | Some s3 => Some (s3, q)
           | None => None
           end
  | None => None
  end.
Proof.
  intros Hinv Hz Hn.
  destruct (alloc_view _ L p z Hinv Hz)
    as (Hp & H64 & R2 & _ & _ & nsz & nal & N1 & N2 & Hns & Hend & _).
  pose proof (mst_chain _ _ _ _ _ (inv_mst _ _ Hinv)) as [Hseg _].
  destruct (seg_In _ _ _ _ _ _ _ Hseg Hz) as (Hlo & _).
  pose proof (inv_base _ _ Hinv) as Hbase. unfold first_block in Hlo.
  unfold block_size in R2. unfold next_size in N1. unfold next_alloc in N2.
  assert (Hr : round_size n = 2 ^ 64 - 16).
  { unfold round_size, DWORD.
    destruct (Z.leb_spec n 32) as [Hle | _]; [lia |].
    rewrite wrap_small by (unfold SIZE_MOD; lia).
    replace (n + 16 + (16 - 1)) with (n + 31) by lia.
    pose proof (Z.div_mod (n + 31) 16 ltac:(lia)) as Hdm.
    pose proof (Z.mod_pos_bound (n + 31) 16 ltac:(lia)) as Hmb.
    lia. }
  split; [exact Hr |].
  unfold mm_realloc.
  destruct (Z.eqb_spec p NULL) as [E | _]; [unfold NULL in E; lia |].
  destruct (Z.eqb_spec n 0) as [E | _]; [lia |].
  cbv zeta. rewrite R2, N1, N2.
  set (size := round_size n) in *.
  destruct (Z.eqb_spec size z) as [E | _]; [unfold SIZE_MOD in Hend; lia |].
  destruct (Z.gtb_spec size z) as [_ | E]; [| unfold SIZE_MOD in Hend; lia].
  rewrite wrap_small by (unfold SIZE_MOD in *; lia).
  destruct (Z.gtb_spec (nsz + z) size) as [E | _];
    [unfold SIZE_MOD in Hend; lia |].
  rewrite andb_false_r.
  unfold bind.
  destruct (mm_malloc s size) as [[s1 q] |]; [| reflexivity].
  destruct (q =? NULL); reflexivity.
Qed.


